(** * Group synchronization engine: Keycloak and Azure syncers

    A shallow embedding of the Keycloak syncer and of the Azure syncer
    ([pkg/syncer/azure.go]) of package [syncer].  Go maps are [gmap]s, Go pointers that the
    code dereferences are [option]s (dereferencing [None] is a runtime
    panic), a Go [(value, error)] pair is a [result], and the remote
    directory is a record of oracle functions. *)

From stdpp Require Import gmap strings list fin_maps.

(** ** Go values shared by both syncers *)

(** A Go [error] value, identified by its message. *)
Definition error := string.

(** A Go [(value, error)] return pair. *)
Inductive result (A : Type) : Type :=
  | Ok (a : A)
  | Err (e : error).
Arguments Ok {A} a.
Arguments Err {A} e.

(** A computation that either returns or dies on a nil-pointer
    dereference (or a failed unchecked type assertion). *)
Inductive exec (A : Type) : Type :=
  | Ret (a : A)
  | Panic.
Arguments Ret {A} a.
Arguments Panic {A}.

#[global] Instance exec_bind : MBind exec := λ A B f m,
  match m with
  | Ret a => f a
  | Panic => Panic
  end.

(** [*p] for a pointer [p]. *)
Definition deref {A : Type} (p : option A) : exec A :=
  match p with
  | Some a => Ret a
  | None => Panic
  end.

(** What a run does to the outside world: log lines and member-listing
    requests sent to the provider, oldest first. *)
Inductive Event : Type :=
  | LogInfo (msg : string)
  | LogError (msg : string)
  | MemberFetch (groupID : string).

(** [net/url]: only the host of a parsed URL is used.  The two parsing
    functions of the Go library are taken as given. *)
Record URL : Type := mkURL { Host : string }.

Record NetURL : Type := mkNetURL {
  url_Parse : string → result URL;
  url_ParseRequestURI : string → result URL
}.

(** [utilerrors.NewAggregate]: [nil] for an empty list, otherwise the
    aggregate of all the errors. *)
Definition NewAggregate (errs : list error) : option (list error) :=
  match errs with
  | [] => None
  | _ :: _ => Some errs
  end.

(** [corev1.Secret], reduced to its [Data] map. *)
Record Secret : Type := mkSecret { Data : gmap string string }.

(** [util.ReconcilerBase]: [GetClient().Get] of the secret with the
    given name in the given namespace. *)
Record ReconcilerBase : Type := mkReconcilerBase {
  GetSecret : string → string → result Secret
}.

(** Modelled from the spec: [redhatcopv1alpha1.GroupSync] is declared in
    the API package; the syncers read only the namespace of the
    resource that configures them. *)
Record GroupSync : Type := mkGroupSync { Namespace : string }.

(** [userv1.Group], the canonical record. *)
Record OcpGroup : Type := mkOcpGroup {
  Kind : string;
  APIVersion : string;
  ObjectName : string;
  Annotations : gmap string string;
  Labels : gmap string string;
  Users : list string
}.

(** Modelled from the spec: [constants.SyncSourceHost] and
    [constants.SyncSourceUID] are declared in the [constants] package.
    The spec has them as the two annotations source-host and
    source-uid of a canonical group; only their being two different
    keys matters here. *)
Definition SyncSourceHost : string := "source-host".
Definition SyncSourceUID : string := "source-uid".

(** [userv1.GroupVersion.String()] *)
Definition GroupAPIVersion : string := "user.openshift.io/v1".

(** Modelled from the spec: [SyncScope] and its two values are declared
    in the API package.  The spec has the enumeration
    {group-only, include-subgroups}; the code treats it as a string
    whose empty value [Init] replaces, and the walk compares it with
    [SubSyncScope] only. *)
Definition SyncScope := string.
Definition SubSyncScope : SyncScope := "sub".
Definition OneSyncScope : SyncScope := "one".

(** ** The Keycloak syncer *)
Module Keycloak.

Definition masterRealm : string := "master".
Definition secretUsernameKey : string := "username".
Definition secretPasswordKey : string := "password".
Definition secretCaKey : string := "ca.crt".

(** [gocloak.Group]: identifier and name are [*string]; sub-groups come
    decoded from JSON, so they form a finite tree of stubs.  A cyclic
    reference A→B→A is a stub under B that carries A's identifier. *)
#[warnings="-register-all"] Inductive Group : Type :=
  mkGroup { ID : option string; Name : option string; SubGroups : list Group }.

Record User : Type := mkUser { Username : option string }.

Record JWT : Type := mkJWT { AccessToken : string }.

(** The methods of [gocloak.GoCloak] the syncer calls. *)
Record GoCloak : Type := mkGoCloak {
  LoginAdmin : string → string → string → result JWT;
  GetGroups : string → string → result (list Group);
  GetGroupMembers : string → string → string → result (list User)
}.

(** Modelled from the spec: [redhatcopv1alpha1.KeycloakProvider] is
    declared in the API package; of the provider configuration the spec
    lists, these are the fields the syncer reads. *)
Record KeycloakProvider : Type := mkProvider {
  URL_ : string;
  LoginRealm : string;
  Realm : string;
  Scope : SyncScope;
  SecretName : string;
  Insecure : bool
}.

Record KeycloakSyncer : Type := mkSyncer {
  SyncerName : string;
  GroupSync_ : GroupSync;
  Provider : KeycloakProvider;
  GoCloak_ : option GoCloak;
  Token : option JWT;
  CachedGroups : gmap string Group;
  CachedGroupMembers : gmap string (list User);
  ReconcilerBase_ : ReconcilerBase;
  Secret_ : option Secret
}.

Definition setProvider (p : KeycloakProvider) (k : KeycloakSyncer) : KeycloakSyncer :=
  mkSyncer (SyncerName k) (GroupSync_ k) p (GoCloak_ k) (Token k)
           (CachedGroups k) (CachedGroupMembers k) (ReconcilerBase_ k) (Secret_ k).

Definition setGoCloak (c : option GoCloak) (k : KeycloakSyncer) : KeycloakSyncer :=
  mkSyncer (SyncerName k) (GroupSync_ k) (Provider k) c (Token k)
           (CachedGroups k) (CachedGroupMembers k) (ReconcilerBase_ k) (Secret_ k).

Definition setToken (t : option JWT) (k : KeycloakSyncer) : KeycloakSyncer :=
  mkSyncer (SyncerName k) (GroupSync_ k) (Provider k) (GoCloak_ k) t
           (CachedGroups k) (CachedGroupMembers k) (ReconcilerBase_ k) (Secret_ k).

Definition setCachedGroups (m : gmap string Group) (k : KeycloakSyncer) : KeycloakSyncer :=
  mkSyncer (SyncerName k) (GroupSync_ k) (Provider k) (GoCloak_ k) (Token k)
           m (CachedGroupMembers k) (ReconcilerBase_ k) (Secret_ k).

Definition setCachedGroupMembers (m : gmap string (list User)) (k : KeycloakSyncer) : KeycloakSyncer :=
  mkSyncer (SyncerName k) (GroupSync_ k) (Provider k) (GoCloak_ k) (Token k)
           (CachedGroups k) m (ReconcilerBase_ k) (Secret_ k).

Definition setSecret (s : option Secret) (k : KeycloakSyncer) : KeycloakSyncer :=
  mkSyncer (SyncerName k) (GroupSync_ k) (Provider k) (GoCloak_ k) (Token k)
           (CachedGroups k) (CachedGroupMembers k) (ReconcilerBase_ k) s.

Definition setLoginRealm (r : string) (p : KeycloakProvider) : KeycloakProvider :=
  mkProvider (URL_ p) r (Realm p) (Scope p) (SecretName p) (Insecure p).

Definition setScope (s : SyncScope) (p : KeycloakProvider) : KeycloakProvider :=
  mkProvider (URL_ p) (LoginRealm p) (Realm p) s (SecretName p) (Insecure p).

(** [Init]: fill the realm and scope defaults; reports whether anything
    changed. *)
Definition Init (k : KeycloakSyncer) : bool * KeycloakSyncer :=
  let changed := false in
  let '(changed, k) :=
    if decide (LoginRealm (Provider k) = "")
    then (true, setProvider (setLoginRealm masterRealm (Provider k)) k)
    else (changed, k) in
  let '(changed, k) :=
    if decide (Scope (Provider k) = "")
    then (true, setProvider (setScope SubSyncScope (Provider k)) k)
    else (changed, k) in
  (changed, k).

Section Validate.
Context (net : NetURL).

(** [Validate]: every check runs, whatever the earlier ones found.
    When the secret cannot be read, [secret] stays the empty
    [&corev1.Secret{}]. *)
Definition Validate (k : KeycloakSyncer) : option (list error) * KeycloakSyncer :=
  let validationErrors : list error := [] in
  let secret := mkSecret ∅ in
  let '(secret, validationErrors) :=
    match GetSecret (ReconcilerBase_ k) (SecretName (Provider k))
                    (Namespace (GroupSync_ k)) with
    | Ok found => (found, validationErrors)
    | Err err => (secret, validationErrors ++ [err])
    end in
  let validationErrors :=
    match url_ParseRequestURI net (URL_ (Provider k)) with
    | Ok _ => validationErrors
    | Err err => validationErrors ++ [err]
    end in
  (* Username key validation *)
  let validationErrors :=
    match Data secret !! secretUsernameKey with
    | Some _ => validationErrors
    | None =>
        validationErrors ++
          ["Could not find 'username' key in secret '" +:+ SecretName (Provider k)
           +:+ "' in namespace '" +:+ Namespace (GroupSync_ k)]
    end in
  (* Password key validation; the source looks up [secretUsernameKey] here *)
  let validationErrors :=
    match Data secret !! secretUsernameKey with
    | Some _ => validationErrors
    | None =>
        validationErrors ++
          ["Could not find 'password' key in secret '" +:+ SecretName (Provider k)
           +:+ "' in namespace '" +:+ Namespace (GroupSync_ k)]
    end in
  let k := setSecret (Some secret) k in
  (NewAggregate validationErrors, k).
End Validate.

Section Bind.
(** [gocloak.NewClient]. *)
Variable NewClient : string → GoCloak.

(** [Bind]: new caches, new client, one login attempt.  The TLS
    settings of the transport are outside the model, but reading
    [k.Secret.Data] for the CA certificate is not. *)
Definition Bind (k : KeycloakSyncer) (tr : list Event)
    : exec (option error * KeycloakSyncer * list Event) :=
  let k := setCachedGroupMembers ∅ k in
  let k := setCachedGroups ∅ k in
  let client := NewClient (URL_ (Provider k)) in
  let k := setGoCloak (Some client) k in
  secret ← deref (Secret_ k);
  match LoginAdmin client (default "" (Data secret !! secretUsernameKey))
                   (default "" (Data secret !! secretPasswordKey))
                   (LoginRealm (Provider k)) with
  | Err err => Ret (Some err, setToken None k, tr)
  | Ok token =>
      Ret (None, setToken (Some token) k,
           tr ++ [LogInfo "Successfully Authenticated with Keycloak Provider"])
  end.
End Bind.

(** The part of the receiver that the hierarchy walk writes:
    [k.CachedGroups], [k.CachedGroupMembers], and the requests it sends. *)
Record Walk : Type := mkWalk {
  wGroups : gmap string Group;
  wMembers : gmap string (list User);
  wTrace : list Event
}.

Definition setMembers (m : gmap string (list User)) (w : Walk) : Walk :=
  mkWalk (wGroups w) m (wTrace w).

Section Walker.
(** The receiver fields the walk only reads: [k.GoCloak],
    [k.Token] and [k.Provider.Realm]. *)
Variables (c : GoCloak) (tok : JWT) (realm : string).

(** [processGroupsAndMembers].  The callers drop the returned error;
    a panic unwinds through them. *)
Fixpoint processGroupsAndMembers (group : Group) (parentGroup : option Group)
    (scope : SyncScope) (w : Walk) {struct group} : exec (option error * Walk) :=
  gid ← deref (ID group);
  let w := mkWalk (<[gid := group]> (wGroups w)) (wMembers w)
                  (wTrace w ++ [MemberFetch gid]) in
  match GetGroupMembers c (AccessToken tok) realm gid with
  | Err err => Ret (Some err, w)
  | Ok groupMembers =>
      let w := setMembers (<[gid := groupMembers]> (wMembers w)) w in
      w ← match parentGroup with
          | None => Ret w
          | Some parent =>
              pid ← deref (ID parent);
              Ret (setMembers
                     (<[pid := default [] (wMembers w !! pid) ++ groupMembers]>
                        (wMembers w)) w)
          end;
      if decide (SubSyncScope = scope) then
        w ← (fix loop (subGroups : list Group) (w : Walk) {struct subGroups}
               : exec Walk :=
               match subGroups with
               | [] => Ret w
               | subGroup :: rest =>
                   sid ← deref (ID subGroup);
                   match wGroups w !! sid with
                   | Some _ => loop rest w
                   | None =>
                       '(_, w) ← processGroupsAndMembers subGroup (Some group) scope w;
                       loop rest w
                   end
               end) (SubGroups group) w;
        Ret (None, w)
      else Ret (None, w)
  end.

(** The sub-group loop of [processGroupsAndMembers], by name. *)
Definition processSubGroups (group : Group) (scope : SyncScope)
    : list Group → Walk → exec Walk :=
  fix loop (subGroups : list Group) (w : Walk) {struct subGroups} : exec Walk :=
    match subGroups with
    | [] => Ret w
    | subGroup :: rest =>
        sid ← deref (ID subGroup);
        match wGroups w !! sid with
        | Some _ => loop rest w
        | None =>
            '(_, w) ← processGroupsAndMembers subGroup (Some group) scope w;
            loop rest w
        end
    end.

(** The top-level loop of [Sync]. *)
Fixpoint processTopLevel (scope : SyncScope) (groups : list Group) (w : Walk)
    {struct groups} : exec Walk :=
  match groups with
  | [] => Ret w
  | group :: rest =>
      gid ← deref (ID group);
      match wGroups w !! gid with
      | Some _ => processTopLevel scope rest w
      | None =>
          '(_, w) ← processGroupsAndMembers group None scope w;
          processTopLevel scope rest w
      end
  end.
End Walker.

(** [ocpGroup.Users = append(ocpGroup.Users, *user.Username)] over the
    cached members. *)
Fixpoint usernames (members : list User) : exec (list string) :=
  match members with
  | [] => Ret []
  | user :: rest =>
      u ← deref (Username user);
      us ← usernames rest;
      Ret (u :: us)
  end.

Section Sync.
Context (net : NetURL).

(** One iteration of the loop over [k.CachedGroups] in [Sync]. *)
Definition toOcpGroup (k : KeycloakSyncer) (cachedGroup : Group)
    : exec (result OcpGroup) :=
  name ← deref (Name cachedGroup);
  match url_Parse net (URL_ (Provider k)) with
  | Err err => Ret (Err err)
  | Ok url =>
      gid ← deref (ID cachedGroup);
      users ← usernames (default [] (CachedGroupMembers k !! gid));
      Ret (Ok {| Kind := "Group";
                 APIVersion := GroupAPIVersion;
                 ObjectName := name;
                 Annotations := <[SyncSourceUID := gid]>
                                  (<[SyncSourceHost := Host url]> ∅);
                 Labels := ∅;
                 Users := users |})
  end.

Fixpoint toOcpGroups (k : KeycloakSyncer) (cached : list Group)
    (ocpGroups : list OcpGroup) : exec (result (list OcpGroup)) :=
  match cached with
  | [] => Ret (Ok ocpGroups)
  | cachedGroup :: rest =>
      r ← toOcpGroup k cachedGroup;
      match r with
      | Err err => Ret (Err err)
      | Ok ocpGroup => toOcpGroups k rest (ocpGroups ++ [ocpGroup])
      end
  end.

(** [Sync].  Go leaves the iteration order of [range k.CachedGroups]
    unspecified; the model walks the map in [map_to_list] order. *)
Definition Sync (k : KeycloakSyncer) (tr : list Event)
    : exec (result (list OcpGroup) * KeycloakSyncer * list Event) :=
  c ← deref (GoCloak_ k);
  tok ← deref (Token k);
  match GetGroups c (AccessToken tok) (Realm (Provider k)) with
  | Err err => Ret (Err err, k, tr ++ [LogError "Failed to get Groups"])
  | Ok groups =>
      w ← processTopLevel c tok (Realm (Provider k)) (Scope (Provider k)) groups
            (mkWalk (CachedGroups k) (CachedGroupMembers k) tr);
      let k := setCachedGroupMembers (wMembers w) (setCachedGroups (wGroups w) k) in
      r ← toOcpGroups k (map_to_list (CachedGroups k)).*2 [];
      Ret (r, k, wTrace w)
  end.
End Sync.

(** What [Sync] hands back to its caller: the Go return values. *)
Definition returned {A S T : Type} (r : exec (A * S * T)) : exec A :=
  '(a, _, _) ← r; Ret a.

(** *** Vocabulary for the properties of the walk *)

(** A group and every stub below it, parents first. *)
Fixpoint allGroups (g : Group) : list Group :=
  match g with
  | mkGroup _ _ subGroups => g :: flat_map allGroups subGroups
  end.

(** No stub lacks its identifier, so the walk dereferences no nil. *)
Definition wellFormed (g : Group) : Prop :=
  Forall (λ h, is_Some (ID h)) (allGroups g).

Definition groupIDs (g : Group) : list string := omap ID (allGroups g).

Definition forestIDs (groups : list Group) : list string :=
  omap ID (flat_map allGroups groups).

(** From [w] to [w'] the walk fetched the members of exactly [ids], in
    that order, and cached exactly those groups under their own
    identifiers. *)
Definition grows (w w' : Walk) (ids : list string) : Prop :=
  wTrace w' = wTrace w ++ map MemberFetch ids ∧
  NoDup ids ∧
  (∀ i, i ∈ ids → wGroups w !! i = None) ∧
  (∀ i, is_Some (wGroups w' !! i) ↔ is_Some (wGroups w !! i) ∨ i ∈ ids) ∧
  (∀ i g, wGroups w' !! i = Some g → wGroups w !! i = Some g ∨ ID g = Some i).

(** None of [ids] has been seen by the walk. *)
Definition fresh (ids : list string) (w : Walk) : Prop :=
  ∀ i, i ∈ ids → wGroups w !! i = None ∧ wMembers w !! i = None.

(** The shape shared by the loop over [groups] in [Sync] and the loop
    over [group.SubGroups]: visit what the cache does not hold. *)
Definition visitUnseen (visit : Group → Walk → exec (option error * Walk))
    : list Group → Walk → exec Walk :=
  fix loop (groups : list Group) (w : Walk) {struct groups} : exec Walk :=
    match groups with
    | [] => Ret w
    | group :: rest =>
        gid ← deref (ID group);
        match wGroups w !! gid with
        | Some _ => loop rest w
        | None => '(_, w) ← visit group w; loop rest w
        end
    end.

Section Directory.
Variables (c : GoCloak) (tok : JWT) (realm : string).

(** The provider's answer to a member listing. *)
Definition fetch (i : string) : result (list User) :=
  GetGroupMembers c (AccessToken tok) realm i.

(** The members the provider lists for [g] itself. *)
Definition direct (g : Group) : list User :=
  match ID g with
  | Some i => match fetch i with Ok l => l | Err _ => [] end
  | None => []
  end.

(** What the walk leaves in [CachedGroupMembers] for a group it
    reached, when identifiers are unique: the group's own members and
    then those of each immediate sub-group. *)
Definition resolved (g : Group) : option (list User) :=
  match ID g with
  | Some i =>
      match fetch i with
      | Ok l => Some (l ++ flat_map direct (SubGroups g))
      | Err _ => None
      end
  | None => None
  end.

(** The effect of walking the forest [groups] under the parent
    [parentID], identifiers being unique. *)
Definition bubbled (groups : list Group) (parentID : option string)
    (w w' : Walk) : Prop :=
  (∀ i, is_Some (wGroups w' !! i) → is_Some (wGroups w !! i) ∨ i ∈ forestIDs groups) ∧
  (∀ i, i ∉ forestIDs groups → parentID ≠ Some i →
        wMembers w' !! i = wMembers w !! i) ∧
  (∀ pid l, parentID = Some pid → wMembers w !! pid = Some l →
            wMembers w' !! pid = Some (l ++ flat_map direct groups)) ∧
  (∀ A a, A ∈ flat_map allGroups groups → ID A = Some a →
          is_Some (wGroups w' !! a) → wMembers w' !! a = resolved A).

(** The caches hold, for every cached group, just what the provider
    lists for it. *)
Definition directOnly (w : Walk) : Prop :=
  (∀ i, wMembers w !! i =
        match wGroups w !! i with
        | Some _ => match fetch i with Ok l => Some l | Err _ => None end
        | None => None
        end) ∧
  (∀ i g, wGroups w !! i = Some g → ID g = Some i).

(** Visiting an unseen [g] returns, having fetched [g] first and each
    further group at most once. *)
Definition visits (g : Group) : Prop :=
  ∀ parentGroup scope w gid,
    ID g = Some gid → wGroups w !! gid = None →
    (∀ parent, parentGroup = Some parent → is_Some (ID parent)) →
    ∃ e w' ids, processGroupsAndMembers c tok realm g parentGroup scope w = Ret (e, w')
                ∧ grows w w' (gid :: ids).

(** Visiting [g] with sub-groups in scope bubbles one level, when the
    identifiers below [g] are unique and unseen. *)
Definition bubbles (g : Group) : Prop :=
  wellFormed g → NoDup (groupIDs g) →
  ∀ parentGroup w,
    (∀ p, parentGroup = Some p → is_Some (ID p)) →
    (∀ pid, parentGroup ≫= ID = Some pid → pid ∉ groupIDs g) →
    fresh (groupIDs g) w →
    ∃ e w', processGroupsAndMembers c tok realm g parentGroup SubSyncScope w = Ret (e, w')
            ∧ bubbled [g] (parentGroup ≫= ID) w w'.
End Directory.

(** *** Further vocabulary *)

(** The two messages of [Validate] about a missing key. *)
Definition missingKeyMessage (key : string) (k : KeycloakSyncer) : error :=
  "Could not find '" +:+ key +:+ "' key in secret '" +:+ SecretName (Provider k)
  +:+ "' in namespace '" +:+ Namespace (GroupSync_ k).

(** The caches are coherent: every group is filed under its own
    identifier, and member lists are kept for cached groups only. *)
Definition coherent (groups : gmap string Group)
    (members : gmap string (list User)) : Prop :=
  (∀ i g, groups !! i = Some g → ID g = Some i) ∧
  (∀ i, is_Some (members !! i) → is_Some (groups !! i)).

Section Order.
Variables (c : GoCloak) (tok : JWT) (realm : string) (scope : SyncScope).

(** The identifiers the walk asks the members of when it visits [g]
    unseen: [g] first, then, if that listing succeeded and sub-groups
    are in scope, its sub-groups from left to right. *)
Fixpoint walkOrder (g : Group) : list string :=
  match g with
  | mkGroup i _ subGroups =>
      match i with
      | None => []
      | Some gid =>
          gid :: match GetGroupMembers c (AccessToken tok) realm gid with
                 | Ok _ =>
                     if decide (SubSyncScope = scope)
                     then flat_map walkOrder subGroups
                     else []
                 | Err _ => []
                 end
      end
  end.
End Order.

(** [visit] keeps the caches coherent and forgets no cached group, the
    parent it appends to being cached. *)
Definition keeps_coherent (visit : Walk → exec (option error * Walk))
    (parentID : option string) : Prop :=
  ∀ w e w', visit w = Ret (e, w') →
    coherent (wGroups w) (wMembers w) →
    (∀ pid, parentID = Some pid → is_Some (wGroups w !! pid)) →
    coherent (wGroups w') (wMembers w') ∧
    ∀ i, is_Some (wGroups w !! i) → is_Some (wGroups w' !! i).

(** *** The walk over groups as Go holds them

    [gocloak.Group.SubGroups] is a slice of pointers, and [Sync] hands
    pointers to the walk.  What the provider's JSON decodes to is a
    tree, but in memory a group can be reached again below itself, and
    the walk has no bound of its own on its recursion.  Here the groups
    are nodes of a heap, [k.CachedGroups] holds pointers as it does in
    Go, and the recursion runs on a fuel: a run that exhausts it has no
    result.  On a heap that holds a tree this walk does what the walk
    over the tree does ([walk_on_trees]). *)
Module Pointers.

Definition GroupRef := positive.

(** A [gocloak.Group] in memory. *)
Record Node : Type := mkNode {
  nodeID : option string;
  nodeName : option string;
  nodeSubGroups : list GroupRef
}.

(** The groups in memory; a reference the heap does not hold is a nil
    pointer. *)
Definition Heap := gmap GroupRef Node.

Record Walk : Type := mkWalk {
  wGroups : gmap string GroupRef;
  wMembers : gmap string (list User);
  wTrace : list Event
}.

Definition setMembers (m : gmap string (list User)) (w : Walk) : Walk :=
  mkWalk (wGroups w) m (wTrace w).

(** Sequencing of runs on fuel: [None] is a run cut short. *)
Definition andThen {A B : Type} (m : option (exec A)) (k : A → option (exec B))
    : option (exec B) :=
  match m with
  | None => None
  | Some Panic => Some Panic
  | Some (Ret a) => k a
  end.

Section Walker.
Variables (c : GoCloak) (tok : JWT) (realm : string) (heap : Heap).

(** [*group.ID] through the pointer [group]. *)
Definition idOf (group : GroupRef) : exec string :=
  node ← deref (heap !! group); deref (nodeID node).

(** The loop of [Sync] over [groups] and the loop of
    [processGroupsAndMembers] over [group.SubGroups]: visit what
    [k.CachedGroups] does not hold, dropping the error returned. *)
Definition visitUnseen (visit : GroupRef → Walk → option (exec (option error * Walk)))
    : list GroupRef → Walk → option (exec Walk) :=
  fix loop (groups : list GroupRef) (w : Walk) {struct groups} : option (exec Walk) :=
    match groups with
    | [] => Some (Ret w)
    | group :: rest =>
        andThen (Some (idOf group)) (λ gid,
          match wGroups w !! gid with
          | Some _ => loop rest w
          | None => andThen (visit group w) (λ '(_, w), loop rest w)
          end)
    end.

(** [processGroupsAndMembers]; each nested call takes one unit of
    fuel. *)
Fixpoint processGroupsAndMembers (fuel : nat) (group : GroupRef)
    (parentGroup : option GroupRef) (scope : SyncScope) (w : Walk) {struct fuel}
    : option (exec (option error * Walk)) :=
  match fuel with
  | 0 => None
  | S fuel =>
      andThen (Some (node ← deref (heap !! group);
                     gid ← deref (nodeID node);
                     Ret (node, gid))) (λ '(node, gid),
        let w := mkWalk (<[gid := group]> (wGroups w)) (wMembers w)
                        (wTrace w ++ [MemberFetch gid]) in
        match GetGroupMembers c (AccessToken tok) realm gid with
        | Err err => Some (Ret (Some err, w))
        | Ok groupMembers =>
            let w := setMembers (<[gid := groupMembers]> (wMembers w)) w in
            andThen (Some match parentGroup with
                          | None => Ret w
                          | Some parent =>
                              pid ← idOf parent;
                              Ret (setMembers
                                     (<[pid := default [] (wMembers w !! pid)
                                               ++ groupMembers]> (wMembers w)) w)
                          end) (λ w,
              if decide (SubSyncScope = scope) then
                andThen (visitUnseen
                           (λ subGroup w,
                              processGroupsAndMembers fuel subGroup (Some group) scope w)
                           (nodeSubGroups node) w)
                        (λ w, Some (Ret (None, w)))
              else Some (Ret (None, w)))
        end)
  end.

(** The top-level loop of [Sync]. *)
Definition processTopLevel (fuel : nat) (scope : SyncScope)
    : list GroupRef → Walk → option (exec Walk) :=
  visitUnseen (λ group w, processGroupsAndMembers fuel group None scope w).

(** *** Vocabulary *)

(** No group lacks its identifier and no sub-group pointer is nil, so
    the walk dereferences no nil. *)
Definition closed : Prop :=
  ∀ p node, heap !! p = Some node →
    is_Some (nodeID node) ∧ ∀ s, s ∈ nodeSubGroups node → is_Some (heap !! s).

(** An identifier names one group. *)
Definition distinctIDs : Prop :=
  ∀ p q i, idOf p = Ret i → idOf q = Ret i → p = q.

(** The groups the top-level set leads to through [SubGroups]. *)
Inductive reachable (groups : list GroupRef) : GroupRef → Prop :=
  | reachable_top p : p ∈ groups → reachable groups p
  | reachable_sub p node s :
      reachable groups p → heap !! p = Some node → s ∈ nodeSubGroups node →
      reachable groups s.

(** The walk has processed the identifier [i]: the cache holds under
    [i] a group reachable from the top-level set that bears it; if the
    provider listed members for [i], the member cache holds them under
    [i], first; and if moreover sub-groups are in scope, every
    sub-group of that group is cached too. *)
Definition processed (scope : SyncScope) (groups : list GroupRef) (w : Walk)
    (i : string) : Prop :=
  ∃ p node,
    wGroups w !! i = Some p ∧ reachable groups p ∧
    heap !! p = Some node ∧ nodeID node = Some i ∧
    (∀ ms, fetch c tok realm i = Ok ms →
           ∃ rest, wMembers w !! i = Some (ms ++ rest)) ∧
    (SubSyncScope = scope → (∃ ms, fetch c tok realm i = Ok ms) →
     ∀ s, s ∈ nodeSubGroups node →
          ∃ j, idOf s = Ret j ∧ is_Some (wGroups w !! j)).

(** From [w] to [w'] the walk asked for the members of exactly [ids],
    in that order and none twice; the cache gained exactly these and
    kept what it held, and the member lists of cached groups were only
    appended to. *)
Definition grows (w w' : Walk) (ids : list string) : Prop :=
  wTrace w' = wTrace w ++ map MemberFetch ids ∧
  NoDup ids ∧
  (∀ i, i ∈ ids → wGroups w !! i = None) ∧
  (∀ i p, wGroups w !! i = Some p → wGroups w' !! i = Some p) ∧
  (∀ i, is_Some (wGroups w' !! i) ↔ is_Some (wGroups w !! i) ∨ i ∈ ids) ∧
  (∀ i l, is_Some (wGroups w !! i) → wMembers w !! i = Some l →
          ∃ rest, wMembers w' !! i = Some (l ++ rest)).

(** The group behind [p] has not been cached. *)
Definition unseen (w : Walk) (p : GroupRef) : bool :=
  match idOf p with
  | Ret i => bool_decide (wGroups w !! i = None)
  | Panic => false
  end.

(** The groups in memory that the cache does not hold: what bounds the
    depth of the recursion. *)
Definition unvisited (w : Walk) : gset GroupRef :=
  filter (unseen w) (dom heap).

(** The parent handed to a visit, if any, is a cached group. *)
Definition parentCached (parentGroup : option GroupRef) (w : Walk) : Prop :=
  ∀ parent, parentGroup = Some parent →
    ∃ pid, idOf parent = Ret pid ∧ is_Some (wGroups w !! pid).

(** With at most [n] groups left to visit, a visit of an unseen group
    returns on any fuel above [n], with one result for all of them. *)
Definition visitsWithin (scope : SyncScope) (groups : list GroupRef) (n : nat) : Prop :=
  ∀ group parentGroup w gid,
    size (unvisited w) ≤ n →
    idOf group = Ret gid → wGroups w !! gid = None →
    reachable groups group → parentCached parentGroup w →
    ∃ e w' ids,
      (∀ fuel, n < fuel →
         processGroupsAndMembers fuel group parentGroup scope w = Some (Ret (e, w'))) ∧
      grows w w' (gid :: ids) ∧
      ∀ i, i ∈ gid :: ids → processed scope groups w' i.
End Walker.
End Pointers.

(** *** The two walks side by side *)

(** The heap holds at [p] the tree [g] that the provider's answer
    decodes to. *)
#[warnings="-register-all"] Inductive holds (heap : Pointers.Heap) : Pointers.GroupRef → Group → Prop :=
  | holds_node p node subGroups :
      heap !! p = Some node →
      Forall2 (holds heap) (Pointers.nodeSubGroups node) subGroups →
      holds heap p (mkGroup (Pointers.nodeID node) (Pointers.nodeName node) subGroups).

(** The two caches hold the same identifiers, the same members and the
    same requests. *)
Definition mirrors (pw : Pointers.Walk) (w : Walk) : Prop :=
  (∀ i, is_Some (Pointers.wGroups pw !! i) ↔ is_Some (wGroups w !! i)) ∧
  Pointers.wMembers pw = wMembers w ∧
  Pointers.wTrace pw = wTrace w.

(** Two runs end alike. *)
Definition agrees {A B : Type} (R : A → B → Prop) (r : exec A) (t : exec B) : Prop :=
  match r, t with
  | Panic, Panic => True
  | Ret a, Ret b => R a b
  | _, _ => False
  end.

(** The parent, if any, bears the same identifier on both sides. *)
Definition sameParent (heap : Pointers.Heap) (parentRef : option Pointers.GroupRef)
    (parentGroup : option Group) : Prop :=
  match parentRef, parentGroup with
  | None, None => True
  | Some p, Some g => Pointers.idOf heap p = deref (ID g)
  | _, _ => False
  end.

End Keycloak.

(** ** The Azure syncer *)
Module Azure.

Definition TenantID : string := "AZURE_TENANT_ID".
Definition ClientID : string := "AZURE_CLIENT_ID".
Definition ClientSecret : string := "AZURE_CLIENT_SECRET".
Definition GraphGroupType : string := "#microsoft.graph.group".
Definition GraphUserType : string := "#microsoft.graph.user".
Definition GraphOdataType : string := "@odata.type".
Definition GraphID : string := "id".
Definition GraphDisplayName : string := "displayName".
Definition GraphUserNameAttribute : string := "userPrincipalName".

(** [azidentity.AzurePublicCloud]. *)
Definition AzurePublicCloud : string := "https://login.microsoftonline.com/".

(** An [interface{}] stored in an additional-data map: a [*string]
    (possibly a nil one) or a value of some other type. *)
Inductive AnyValue : Type :=
  | StringPtr (p : option string)
  | OtherValue.

(** The checked assertion [v, ok := m[key]] to [*string]. *)
Definition assertStringPtr (v : option AnyValue) : option string * bool :=
  match v with
  | Some (StringPtr p) => (p, true)
  | _ => (None, false)
  end.

(** The same assertion without the [ok]: a failed assertion panics. *)
Definition mustStringPtr (v : option AnyValue) : exec (option string) :=
  match v with
  | Some (StringPtr p) => Ret p
  | _ => Panic
  end.

Record DirectoryObject : Type := mkDirectoryObject {
  Id : option string;
  AdditionalData : gmap string AnyValue
}.

(** [graph.Group] embeds a [DirectoryObject]. *)
Record Group : Type := mkGroup {
  DirectoryObject_ : DirectoryObject;
  DisplayName : option string
}.

Definition GetId (g : Group) : option string := Id (DirectoryObject_ g).

(** The requests of [msgraphsdk.GraphServiceClient] the syncer sends:
    [Groups().Get(options)] with the filter of [options],
    [GroupsById(id).Members().Get(options)] and
    [GroupsById(id).TransitiveMembers().Get(nil)]. *)
Record GraphServiceClient : Type := mkClient {
  GroupsGet : option string → result (list Group);
  MembersGet : string → option string → result (list DirectoryObject);
  TransitiveMembersGet : string → result (list DirectoryObject)
}.

Record SecretRef : Type := mkSecretRef { RefName : string; RefNamespace : string }.

(** Modelled from the spec: [redhatcopv1alpha1.AzureProvider] is
    declared in the API package; of the provider configuration the spec
    lists, these are the fields the syncer reads.  [UserNameAttributes]
    and [AuthorityHost] are pointers that may be nil. *)
Record AzureProvider : Type := mkProvider {
  BaseGroups : list string;
  Filter : string;
  Groups : list string;
  UserNameAttributes : option (list string);
  AuthorityHost : option string;
  CredentialsSecretRef : SecretRef;
  Prune : bool
}.

Inductive Context : Type := Background.

Record AzureSyncer : Type := mkSyncer {
  SyncerName : string;
  GroupSync_ : GroupSync;
  Provider : AzureProvider;
  Client : option GraphServiceClient;
  ReconcilerBase_ : ReconcilerBase;
  CredentialsSecret : option Secret;
  CachedGroups : gmap string Group;
  CachedGroupUsers : gmap string (list DirectoryObject);
  Context_ : option Context
}.

Definition setCredentialsSecret (s : option Secret) (a : AzureSyncer) : AzureSyncer :=
  mkSyncer (SyncerName a) (GroupSync_ a) (Provider a) (Client a) (ReconcilerBase_ a)
           s (CachedGroups a) (CachedGroupUsers a) (Context_ a).

Definition setCachedGroups (m : gmap string Group) (a : AzureSyncer) : AzureSyncer :=
  mkSyncer (SyncerName a) (GroupSync_ a) (Provider a) (Client a) (ReconcilerBase_ a)
           (CredentialsSecret a) m (CachedGroupUsers a) (Context_ a).

Definition setCachedGroupUsers (m : gmap string (list DirectoryObject)) (a : AzureSyncer)
    : AzureSyncer :=
  mkSyncer (SyncerName a) (GroupSync_ a) (Provider a) (Client a) (ReconcilerBase_ a)
           (CredentialsSecret a) (CachedGroups a) m (Context_ a).

Definition setContext (ctx : option Context) (a : AzureSyncer) : AzureSyncer :=
  mkSyncer (SyncerName a) (GroupSync_ a) (Provider a) (Client a) (ReconcilerBase_ a)
           (CredentialsSecret a) (CachedGroups a) (CachedGroupUsers a) ctx.

(** [Init]: new caches and a background context; nothing to default. *)
Definition Init (a : AzureSyncer) : bool * AzureSyncer :=
  let a := setCachedGroups ∅ a in
  let a := setCachedGroupUsers ∅ a in
  let a := setContext (Some Background) a in
  (false, a).

(** [Validate]: one error when the secret cannot be read, otherwise one
    error when any of the three keys is missing. *)
Definition Validate (a : AzureSyncer) : option (list error) * AzureSyncer :=
  let validationErrors : list error := [] in
  let ref := CredentialsSecretRef (Provider a) in
  match GetSecret (ReconcilerBase_ a) (RefName ref) (RefNamespace ref) with
  | Err err => (NewAggregate (validationErrors ++ [err]), a)
  | Ok credentialsSecret =>
      let tenantIDSecretFound := bool_decide (is_Some (Data credentialsSecret !! TenantID)) in
      let clientIDSecretFound := bool_decide (is_Some (Data credentialsSecret !! ClientID)) in
      let clientSecretSecretFound :=
        bool_decide (is_Some (Data credentialsSecret !! ClientSecret)) in
      let validationErrors :=
        if negb tenantIDSecretFound || negb clientIDSecretFound
           || negb clientSecretSecretFound
        then validationErrors ++
               ["Could not find `AZURE_TENANT_ID` or `AZURE_CLIENT_ID` or `AZURE_CLIENT_SECRET` key in secret '"
                +:+ RefName ref +:+ "' in namespace '" +:+ RefNamespace ref]
        else validationErrors in
      let a := setCredentialsSecret (Some credentialsSecret) a in
      (NewAggregate validationErrors, a)
  end.

Definition getAuthorityHost (authorityHost : option string) : string :=
  match authorityHost with
  | None => AzurePublicCloud
  | Some h => h
  end.

(** Modelled from the spec: [isGroupAllowed] is a helper of package
    [syncer] declared outside the two syncer files embedded here.  The spec
    has it as a predicate over the display name against the configured
    allow-list of names, where an empty or absent list allows every
    group. *)
Definition isGroupAllowed (groupName : string) (allowedGroups : list string) : bool :=
  match allowedGroups with
  | [] => true
  | _ :: _ => bool_decide (groupName ∈ allowedGroups)
  end.

Section Sync.
Context (net : NetURL).

(** [isUsernamePresent]: the value is dereferenced whether or not the
    assertion succeeded. *)
Definition isUsernamePresent (user : DirectoryObject) (field : string)
    : exec (string * bool) :=
  let '(value, ok) := assertStringPtr (AdditionalData user !! field) in
  v ← deref value;
  Ret (v, ok).

Fixpoint firstUsername (user : DirectoryObject) (attributes : list string)
    : exec (string * bool) :=
  match attributes with
  | [] => Ret ("", false)
  | usernameAttribute :: rest =>
      '(username, found) ← isUsernamePresent user usernameAttribute;
      if found : bool then Ret (username, true) else firstUsername user rest
  end.

Definition getUsernameForUser (p : AzureProvider) (user : DirectoryObject)
    : exec (string * bool) :=
  match UserNameAttributes p with
  | None => isUsernamePresent user GraphUserNameAttribute
  | Some attributes => firstUsername user attributes
  end.

Definition usernameWarning (groupID : string) : string :=
  "Warning: Username for user cannot be found in Group ID '" +:+ groupID +:+ "'".

(** The loop over [members] in [listGroupMembers]. *)
Fixpoint collectUsernames (p : AzureProvider) (groupID : string)
    (members : list DirectoryObject) (groupMembers : list string)
    (tr : list Event) : exec (list string * list Event) :=
  match members with
  | [] => Ret (groupMembers, tr)
  | member :: rest =>
      let '(memberODataType, _) :=
        assertStringPtr (AdditionalData member !! GraphOdataType) in
      ty ← deref memberODataType;
      if decide (ty = GraphUserType) then
        '(username, found) ← getUsernameForUser p member;
        if found : bool
        then collectUsernames p groupID rest (groupMembers ++ [username]) tr
        else collectUsernames p groupID rest groupMembers
               (tr ++ [LogInfo (usernameWarning groupID)])
      else collectUsernames p groupID rest groupMembers tr
  end.

Definition listGroupMembers (client : GraphServiceClient) (p : AzureProvider)
    (groupID : option string) (tr : list Event)
    : exec (result (list string) * list Event) :=
  gid ← deref groupID;
  let tr := tr ++ [MemberFetch gid] in
  match TransitiveMembersGet client gid with
  | Err err => Ret (Err err, tr)
  | Ok members =>
      '(groupMembers, tr) ← collectUsernames p gid members [] tr;
      Ret (Ok groupMembers, tr)
  end.

(** The loop over the members of one base group: group-typed members
    join [aadGroups]. *)
Fixpoint addBaseGroupMembers (members : list DirectoryObject)
    (aadGroups : list Group) : exec (list Group) :=
  match members with
  | [] => Ret aadGroups
  | baseGroupMember :: rest =>
      let '(baseGroupMemberODataType, _) :=
        assertStringPtr (AdditionalData baseGroupMember !! GraphOdataType) in
      ty ← deref baseGroupMemberODataType;
      if decide (GraphGroupType = ty) then
        baseGroupDisplayName ←
          mustStringPtr (AdditionalData baseGroupMember !! GraphDisplayName);
        addBaseGroupMembers rest
          (aadGroups ++ [mkGroup baseGroupMember baseGroupDisplayName])
      else addBaseGroupMembers rest aadGroups
  end.

(** The loop over [a.Provider.BaseGroups]. *)
Fixpoint expandBaseGroups (client : GraphServiceClient) (p : AzureProvider)
    (baseGroups : list string) (aadGroups : list Group) (tr : list Event)
    : exec (result (list Group) * list Event) :=
  match baseGroups with
  | [] => Ret (Ok aadGroups, tr)
  | baseGroup :: rest =>
      let filter := "displayName eq '" +:+ baseGroup +:+ "'" in
      match GroupsGet client (Some filter) with
      | Err err => Ret (Err err, tr ++ [LogError "Failed to get base group"])
      | Ok [found] =>
          let aadGroups := aadGroups ++ [found] in
          let baseGroupMemberOptions :=
            if decide (Filter p = "") then None else Some (Filter p) in
          foundID ← deref (GetId found);
          match MembersGet client foundID baseGroupMemberOptions with
          | Err err =>
              Ret (Err err, tr ++ [LogError "Failed to get base group members"])
          | Ok baseGroupMembersResult =>
              aadGroups ← addBaseGroupMembers baseGroupMembersResult aadGroups;
              expandBaseGroups client p rest aadGroups tr
          end
      | Ok _ =>
          expandBaseGroups client p rest aadGroups
            (tr ++ [LogInfo "Failed to find a single base group to search from"])
      end
  end.

(** The groups [Sync] collects before mapping them. *)
Definition collectGroups (client : GraphServiceClient) (p : AzureProvider)
    (tr : list Event) : exec (result (list Group) * list Event) :=
  match BaseGroups p with
  | _ :: _ => expandBaseGroups client p (BaseGroups p) [] tr
  | [] =>
      let groupOptions :=
        if decide (Filter p = "") then None else Some (Filter p) in
      match GroupsGet client groupOptions with
      | Err err => Ret (Err err, tr ++ [LogError "Failed to get groups"])
      | Ok groupResult => Ret (Ok ([] ++ groupResult), tr)
      end
  end.

Definition skipWarning : string :=
  "Warning: Skipping Group record with empty displayName".

(** The loop over [aadGroups] in [Sync]. *)
Fixpoint emitGroups (client : GraphServiceClient) (p : AzureProvider)
    (azureURL : URL) (aadGroups : list Group) (ocpGroups : list OcpGroup)
    (tr : list Event) : exec (result (list OcpGroup) * list Event) :=
  match aadGroups with
  | [] => Ret (Ok ocpGroups, tr)
  | group :: rest =>
      match DisplayName group with
      | None =>
          emitGroups client p azureURL rest ocpGroups (tr ++ [LogInfo skipWarning])
      | Some groupName =>
          if negb (isGroupAllowed groupName (Groups p))
          then emitGroups client p azureURL rest ocpGroups tr
          else
            gid ← deref (GetId group);
            '(fetched, tr) ← listGroupMembers client p (GetId group) tr;
            match fetched with
            | Err err =>
                Ret (Err err,
                     tr ++ [LogError "Failed to get Group members for Group"])
            | Ok groupMembers =>
                emitGroups client p azureURL rest
                  (ocpGroups ++
                     [{| Kind := "Group";
                         APIVersion := GroupAPIVersion;
                         ObjectName := groupName;
                         Annotations := <[SyncSourceUID := gid]>
                                          (<[SyncSourceHost := Host azureURL]> ∅);
                         Labels := ∅;
                         Users := [] ++ groupMembers |}])
                  tr
            end
      end
  end.

(** [Sync]; it writes no field of the receiver. *)
Definition Sync (a : AzureSyncer) (tr : list Event)
    : exec (result (list OcpGroup) * list Event) :=
  client ← deref (Client a);
  '(collected, tr) ← collectGroups client (Provider a) tr;
  match collected with
  | Err err => Ret (Err err, tr)
  | Ok aadGroups =>
      let authorityHost := getAuthorityHost (AuthorityHost (Provider a)) in
      match url_Parse net authorityHost with
      | Err err => Ret (Err err, tr ++ [LogError "Failed to parse Azure URL"])
      | Ok azureURL => emitGroups client (Provider a) azureURL aadGroups [] tr
      end
  end.
End Sync.

(** What a call hands back to its caller: the Go return values. *)
Definition returned {A T : Type} (r : exec (A * T)) : exec A :=
  '(a, _) ← r; Ret a.

(** *** Vocabulary for the properties of the Azure syncer *)

(** [r] with the trace [tr] in front of what [r] logged. *)
Definition appended {A : Type} (tr : list Event) (r : exec (A * list Event))
    : exec (A * list Event) :=
  '(a, more) ← r; Ret (a, tr ++ more).
Arguments appended {A} tr !r /.

(** The first attribute [getUsernameForUser] asks a user for. *)
Definition requestedAttribute (p : AzureProvider) : option string :=
  match UserNameAttributes p with
  | None => Some GraphUserNameAttribute
  | Some attributes => head attributes
  end.

Definition named (g : Group) : Prop := is_Some (DisplayName g).

#[global] Instance named_dec g : Decision (named g) := _.

(** The names [Sync] emits for the collected groups: those present and
    allowed, in order. *)
Definition expectedNames (p : AzureProvider) (aadGroups : list Group) : list string :=
  omap (λ g, n ← DisplayName g;
             if isGroupAllowed n (Groups p) then Some n else None) aadGroups.

(** *** [Bind] *)

(** The constructors of the Azure SDK that [Bind] calls, in the order
    it calls them; the first takes the tenant, the client, the client
    secret and the authority host. *)
Record AzureSDK (Credential AuthProvider Adapter : Type) : Type := mkSDK {
  NewClientSecretCredential : string → string → string → string → result Credential;
  NewAzureIdentityAuthenticationProvider : Credential → result AuthProvider;
  NewGraphRequestAdapter : AuthProvider → result Adapter;
  NewGraphServiceClient : Adapter → GraphServiceClient
}.
Arguments NewClientSecretCredential {_ _ _} _ _ _ _ _.
Arguments NewAzureIdentityAuthenticationProvider {_ _ _} _ _.
Arguments NewGraphRequestAdapter {_ _ _} _ _.
Arguments NewGraphServiceClient {_ _ _} _ _.

Definition setClient (client : option GraphServiceClient) (a : AzureSyncer) : AzureSyncer :=
  mkSyncer (SyncerName a) (GroupSync_ a) (Provider a) client (ReconcilerBase_ a)
           (CredentialsSecret a) (CachedGroups a) (CachedGroupUsers a) (Context_ a).

Section Bind.
Context {Credential AuthProvider Adapter : Type}
        (sdk : AzureSDK Credential AuthProvider Adapter).

(** [Bind]: three constructors that may fail, then the client. *)
Definition Bind (a : AzureSyncer) : exec (option error * AzureSyncer) :=
  let authorityHost := getAuthorityHost (AuthorityHost (Provider a)) in
  secret ← deref (CredentialsSecret a);
  match NewClientSecretCredential sdk
          (default "" (Data secret !! TenantID)) (default "" (Data secret !! ClientID))
          (default "" (Data secret !! ClientSecret)) authorityHost with
  | Err err => Ret (Some err, a)
  | Ok cred =>
      match NewAzureIdentityAuthenticationProvider sdk cred with
      | Err err => Ret (Some err, a)
      | Ok auth =>
          match NewGraphRequestAdapter sdk auth with
          | Err err => Ret (Some err, a)
          | Ok adapter =>
              Ret (None, setClient (Some (NewGraphServiceClient sdk adapter)) a)
          end
      end
  end.
End Bind.

(** *** Unpacking the answers of the client *)

(** An element of a collection response: a [*graph.Group], a
    [*graph.DirectoryObject] (either may be a nil pointer) or a value of
    another type. *)
Inductive Parsable : Type :=
  | GroupPtr (p : option Group)
  | DirectoryObjectPtr (p : option DirectoryObject)
  | OtherParsable.

(** [getGroupsFromResults]: the assertion to [*graph.Group] is unchecked
    and its result is dereferenced. *)
Fixpoint getGroupsFromResults (values : list Parsable) : exec (list Group) :=
  match values with
  | [] => Ret []
  | g :: rest =>
      group ← match g with GroupPtr p => deref p | _ => Panic end;
      groups ← getGroupsFromResults rest;
      Ret (group :: groups)
  end.

(** [getDirectoryObjectsFromResults], likewise. *)
Fixpoint getDirectoryObjectsFromResults (values : list Parsable)
    : exec (list DirectoryObject) :=
  match values with
  | [] => Ret []
  | d :: rest =>
      directoryObject ← match d with DirectoryObjectPtr p => deref p | _ => Panic end;
      directoryObjects ← getDirectoryObjectsFromResults rest;
      Ret (directoryObject :: directoryObjects)
  end.

(** *** Further vocabulary *)

(** The string behind a non-nil [*string] stored under [field]. *)
Definition stringAt (m : DirectoryObject) (field : string) : option string :=
  match AdditionalData m !! field with
  | Some (StringPtr (Some v)) => Some v
  | _ => None
  end.

(** A member [listGroupMembers] can get past: it has a type, and if it
    is a user it has the attribute asked for. *)
Definition listable (field : string) (m : DirectoryObject) : bool :=
  match stringAt m GraphOdataType with
  | Some ty =>
      if decide (ty = GraphUserType) then bool_decide (is_Some (stringAt m field))
      else true
  | None => false
  end.

(** The user name a member contributes, if it is a user. *)
Definition userNameOf (field : string) (m : DirectoryObject) : option string :=
  match stringAt m GraphOdataType with
  | Some ty => if decide (ty = GraphUserType) then stringAt m field else None
  | None => None
  end.

(** A collected group that [Sync] maps to a canonical one. *)
Definition emitted (p : AzureProvider) (g : Group) : bool :=
  match DisplayName g with
  | Some name => isGroupAllowed name (Groups p)
  | None => false
  end.

(** The filter [Sync] looks a base group up with. *)
Definition baseGroupFilter (baseGroup : string) : string :=
  "displayName eq '" +:+ baseGroup +:+ "'".

(** The options of the member request for a base group. *)
Definition memberOptions (p : AzureProvider) : option string :=
  if decide (Filter p = "") then None else Some (Filter p).

(** The group a member of a base group is collected as, if its type is
    the group type. *)
Definition groupOf (m : DirectoryObject) : option Group :=
  match stringAt m GraphOdataType with
  | Some ty =>
      if decide (GraphGroupType = ty) then
        match AdditionalData m !! GraphDisplayName with
        | Some (StringPtr name) => Some (mkGroup m name)
        | _ => None
        end
      else None
  | None => None
  end.

(** What one base group name adds to the collected groups: nothing
    unless exactly one group bears the name, else that group followed
    by its group-typed members. *)
Definition expansion (client : GraphServiceClient) (p : AzureProvider)
    (baseGroup : string) : list Group :=
  match GroupsGet client (Some (baseGroupFilter baseGroup)) with
  | Ok [found] =>
      found :: match GetId found with
               | Some foundID =>
                   match MembersGet client foundID (memberOptions p) with
                   | Ok members => omap groupOf members
                   | Err _ => []
                   end
               | None => []
               end
  | _ => []
  end.

(** A member whose type [listGroupMembers] can read. *)
Definition typed (m : DirectoryObject) : bool :=
  bool_decide (is_Some (stringAt m GraphOdataType)).

(** A member of the user type. *)
Definition userTyped (m : DirectoryObject) : Prop :=
  stringAt m GraphOdataType = Some GraphUserType.

End Azure.

(** The canonical record both syncers build for a group. *)
Definition canonicalGroup (name host uid : string) (users : list string) : OcpGroup :=
  {| Kind := "Group";
     APIVersion := GroupAPIVersion;
     ObjectName := name;
     Annotations := <[SyncSourceUID := uid]> (<[SyncSourceHost := host]> ∅);
     Labels := ∅;
     Users := users |}.

(** The names of the groups a run returned, if it returned any. *)
Definition emittedNames (r : exec (result (list OcpGroup))) : option (list string) :=
  match r with
  | Ret (Ok out) => Some (ObjectName <$> out)
  | _ => None
  end.

(** The users of the returned group that carries the source identifier
    [uid]. *)
Definition emittedUsers (uid : string) (r : exec (result (list OcpGroup)))
    : option (list string) :=
  match r with
  | Ret (Ok out) =>
      Users <$> head (filter (λ og, Annotations og !! SyncSourceUID = Some uid) out)
  | _ => None
  end.

(** ** Sample directories

    Small concrete providers on which the model is run. *)
Module Samples.

(** A stand-in for [net/url]: a string is its own host, and only the
    empty string is no request URI. *)
Definition plainURL : NetURL :=
  mkNetURL (λ s, Ok (mkURL s))
           (λ s, if decide (s = "") then Err "empty url" else Ok (mkURL s)).

Definition user (n : string) : Keycloak.User := Keycloak.mkUser (Some n).

Definition token : Keycloak.JWT := Keycloak.mkJWT "token".

Definition noSecrets : ReconcilerBase := mkReconcilerBase (λ _ _, Err "secret not found").

(** A bound Keycloak syncer with empty caches, as [Bind] leaves it. *)
Definition syncerOf (scope : SyncScope) (dir : Keycloak.GoCloak) : Keycloak.KeycloakSyncer :=
  Keycloak.mkSyncer "keycloak" (mkGroupSync "group-sync")
    (Keycloak.mkProvider "sso.example.com" "master" "realm" scope "keycloak-secret" false)
    (Some dir) (Some token) ∅ ∅ noSecrets None.

Definition directoryOf (groups : list Keycloak.Group)
    (members : string → result (list Keycloak.User)) : Keycloak.GoCloak :=
  Keycloak.mkGoCloak (λ _ _ _, Ok token) (λ _ _, Ok groups) (λ _ _ i, members i).

(** A ⊃ B ⊃ C with one member each. *)
Definition teamC : Keycloak.Group := Keycloak.mkGroup (Some "c") (Some "C") [].
Definition teamB : Keycloak.Group := Keycloak.mkGroup (Some "b") (Some "B") [teamC].
Definition teamA : Keycloak.Group := Keycloak.mkGroup (Some "a") (Some "A") [teamB].

Definition chainMembers (i : string) : result (list Keycloak.User) :=
  if decide (i = "a") then Ok [user "alice"]
  else if decide (i = "b") then Ok [user "bob"]
  else if decide (i = "c") then Ok [user "carol"]
  else Err "no such group".

Definition chainDir : Keycloak.GoCloak := directoryOf [teamA] chainMembers.

(** The same groups after everybody has left them. *)
Definition desertedDir : Keycloak.GoCloak := directoryOf [teamA] (λ _, Ok []).

(** What [Sync] leaves behind on [chainDir] with sub-groups in scope. *)
Definition chainAfter : Keycloak.KeycloakSyncer :=
  Keycloak.setCachedGroupMembers
    {[ "a" := [user "alice"; user "bob"]; "b" := [user "bob"; user "carol"];
       "c" := [user "carol"] ]}
    (Keycloak.setCachedGroups {[ "a" := teamA; "b" := teamB; "c" := teamC ]}
       (syncerOf SubSyncScope chainDir)).

Definition chainOut : list OcpGroup :=
  [canonicalGroup "C" "sso.example.com" "c" ["carol"];
   canonicalGroup "A" "sso.example.com" "a" ["alice"; "bob"];
   canonicalGroup "B" "sso.example.com" "b" ["bob"; "carol"]].

(** A ⊃ B where the listing of B fails. *)
Definition pairB : Keycloak.Group := Keycloak.mkGroup (Some "b") (Some "B") [].
Definition pairA : Keycloak.Group := Keycloak.mkGroup (Some "a") (Some "A") [pairB].

Definition brokenMembers (i : string) : result (list Keycloak.User) :=
  if decide (i = "a") then Ok [user "alice"] else Err "connection reset".

Definition brokenDir : Keycloak.GoCloak := directoryOf [pairA] brokenMembers.

(** A ⊃ B where bob is listed under both. *)
Definition sharedMembers (i : string) : result (list Keycloak.User) :=
  if decide (i = "a") then Ok [user "alice"; user "bob"]
  else if decide (i = "b") then Ok [user "bob"]
  else Err "no such group".

Definition sharedDir : Keycloak.GoCloak := directoryOf [pairA] sharedMembers.

(** What [Sync] leaves behind on [sharedDir] without sub-groups in scope. *)
Definition sharedAfter : Keycloak.KeycloakSyncer :=
  Keycloak.setCachedGroupMembers {[ "a" := [user "alice"; user "bob"] ]}
    (Keycloak.setCachedGroups {[ "a" := pairA ]} (syncerOf OneSyncScope sharedDir)).

(** A → B → A: the stub under B carries A's identifier. *)
Definition loopA : Keycloak.Group :=
  Keycloak.mkGroup (Some "a") (Some "A")
    [Keycloak.mkGroup (Some "b") (Some "B") [Keycloak.mkGroup (Some "a") (Some "A") []]].

Definition loopDir : Keycloak.GoCloak := directoryOf [loopA] chainMembers.

(** A group whose name is the empty string. *)
Definition blankGroup : Keycloak.Group := Keycloak.mkGroup (Some "e") (Some "") [].

Definition blankDir : Keycloak.GoCloak := directoryOf [blankGroup] (λ _, Ok [user "alice"]).

(** A syncer whose secret holds the user name but no password. *)
Definition halfSecret : Secret := mkSecret {[ "username" := "admin" ]}.

Definition halfSecretSyncer : Keycloak.KeycloakSyncer :=
  Keycloak.mkSyncer "keycloak" (mkGroupSync "group-sync")
    (Keycloak.mkProvider "https://sso.example.com" "master" "realm" SubSyncScope
       "keycloak-secret" false)
    None None ∅ ∅ (mkReconcilerBase (λ _ _, Ok halfSecret)) None.

(** Azure directory objects. *)
Definition groupObject (id name : string) : Azure.DirectoryObject :=
  Azure.mkDirectoryObject (Some id)
    {[ Azure.GraphOdataType := Azure.StringPtr (Some Azure.GraphGroupType);
       Azure.GraphDisplayName := Azure.StringPtr (Some name) ]}.

Definition userObject (id upn : string) : Azure.DirectoryObject :=
  Azure.mkDirectoryObject (Some id)
    {[ Azure.GraphOdataType := Azure.StringPtr (Some Azure.GraphUserType);
       Azure.GraphUserNameAttribute := Azure.StringPtr (Some upn) ]}.

(** A user object without [userPrincipalName]. *)
Definition anonymousObject (id : string) : Azure.DirectoryObject :=
  Azure.mkDirectoryObject (Some id)
    {[ Azure.GraphOdataType := Azure.StringPtr (Some Azure.GraphUserType) ]}.

Definition azureGroup (id : string) (name : option string) : Azure.Group :=
  Azure.mkGroup (Azure.mkDirectoryObject (Some id) ∅) name.

Definition azureSyncerOf (client : Azure.GraphServiceClient)
    (baseGroups allowed : list string) : Azure.AzureSyncer :=
  Azure.mkSyncer "azure" (mkGroupSync "group-sync")
    (Azure.mkProvider baseGroups "" allowed None None
       (Azure.mkSecretRef "azure-secret" "group-sync") false)
    (Some client) noSecrets None ∅ ∅ (Some Azure.Background).

(** A tenant whose base group "base" has the groups "eng" and "ops" as
    members. *)
Definition baseClient : Azure.GraphServiceClient :=
  Azure.mkClient
    (λ filter, if decide (filter = Some "displayName eq 'base'")
               then Ok [azureGroup "g0" (Some "base")] else Ok [])
    (λ _ _, Ok [groupObject "g1" "eng"; groupObject "g2" "ops"])
    (λ _, Ok [userObject "u1" "alice@example.com"]).

(** A tenant with a group named by the empty string, a group without a
    name, and the group "eng". *)
Definition flatGroups : list Azure.Group :=
  [azureGroup "g1" (Some ""); azureGroup "g2" None; azureGroup "g3" (Some "eng")].

Definition flatClient : Azure.GraphServiceClient :=
  Azure.mkClient (λ _, Ok flatGroups) (λ _ _, Ok [])
    (λ _, Ok [userObject "u1" "alice@example.com"]).

(** A tenant whose only user has no [userPrincipalName]. *)
Definition anonymousClient : Azure.GraphServiceClient :=
  Azure.mkClient (λ _, Ok [azureGroup "g1" (Some "eng")]) (λ _ _, Ok [])
    (λ _, Ok [anonymousObject "u1"]).

(** A Keycloak syncer that can read no secret and has no URL. *)
Definition unconfiguredSyncer : Keycloak.KeycloakSyncer :=
  Keycloak.mkSyncer "keycloak" (mkGroupSync "group-sync")
    (Keycloak.mkProvider "" "" "realm" "" "keycloak-secret" false)
    None None ∅ ∅ noSecrets None.

(** A server that refuses every login. *)
Definition lockedDir : Keycloak.GoCloak :=
  Keycloak.mkGoCloak (λ _ _ _, Err "invalid credentials") (λ _ _, Ok [teamA])
    (λ _ _ i, chainMembers i).

(** A validated syncer, with caches left over from an earlier run. *)
Definition validatedSyncer : Keycloak.KeycloakSyncer :=
  Keycloak.setSecret (Some halfSecret) chainAfter.

(** A server that cannot list its groups. *)
Definition downDir : Keycloak.GoCloak :=
  Keycloak.mkGoCloak (λ _ _ _, Ok token) (λ _ _, Err "keycloak unavailable")
    (λ _ _ i, chainMembers i).

(** A ⊃ B ⊃ C where the listing of B fails. *)
Definition prunedMembers (i : string) : result (list Keycloak.User) :=
  if decide (i = "b") then Err "connection reset" else chainMembers i.

Definition prunedDir : Keycloak.GoCloak := directoryOf [teamA] prunedMembers.

(** A provider that asks for the mail address before the principal
    name. *)
Definition mailFirst : Azure.AzureProvider :=
  Azure.mkProvider [] "" [] (Some ["mail"; Azure.GraphUserNameAttribute]) None
    (Azure.mkSecretRef "azure-secret" "group-sync") false.

(** A tenant whose group "eng" has a user, a nested group and a second
    user as transitive members. *)
Definition mixedClient : Azure.GraphServiceClient :=
  Azure.mkClient (λ _, Ok [azureGroup "g1" (Some "eng")]) (λ _ _, Ok [])
    (λ _, Ok [userObject "u1" "alice@example.com"; groupObject "g9" "nested";
              userObject "u2" "bob@example.com"]).

(** A tenant whose member listings fail. *)
Definition failingClient : Azure.GraphServiceClient :=
  Azure.mkClient (λ _, Ok [azureGroup "g1" (Some "eng")]) (λ _ _, Ok [])
    (λ _, Err "graph unavailable").

(** An SDK whose constructors all succeed and hand out [flatClient]. *)
Definition obligingSDK : Azure.AzureSDK unit unit unit :=
  Azure.mkSDK unit unit unit (λ _ _ _ _, Ok ()) (λ _, Ok ()) (λ _, Ok ()) (λ _, flatClient).

(** Two groups in memory that are each other's sub-group: A→B→A. *)
Definition cycleHeap : Keycloak.Pointers.Heap :=
  {[ 1%positive := Keycloak.Pointers.mkNode (Some "a") (Some "A") [2%positive];
     2%positive := Keycloak.Pointers.mkNode (Some "b") (Some "B") [1%positive] ]}.

End Samples.

(** * Properties of the Keycloak syncer *)
Module KeycloakFacts.
Import Keycloak.

Lemma Group_nested_ind (P : Group → Prop) :
  (∀ i n subs, Forall P subs → P (mkGroup i n subs)) → ∀ g, P g.
Proof.
  intros H. fix IH 1. intros [i n subs]. apply H.
  induction subs as [|s subs IHs]; constructor; [apply IH | exact IHs].
Qed.

Lemma allGroups_unfold g : allGroups g = g :: flat_map allGroups (SubGroups g).
Proof. by destruct g. Qed.

Lemma wellFormed_inv g :
  wellFormed g → is_Some (ID g) ∧ Forall wellFormed (SubGroups g).
Proof.
  unfold wellFormed. rewrite allGroups_unfold. intros H.
  apply Forall_cons in H as [H1 H2]. split; [done|].
  induction (SubGroups g) as [|s l IH]; [constructor|].
  simpl in H2. apply Forall_app in H2 as [H2 H3]. constructor; auto.
Qed.

Lemma grows_refl w : grows w w [].
Proof.
  repeat split; simpl.
  - by rewrite app_nil_r.
  - constructor.
  - intros i Hi. by apply elem_of_nil in Hi.
  - auto.
  - intros [?|Hi]; [done|]. by apply elem_of_nil in Hi.
  - auto.
Qed.

Lemma grows_trans w1 w2 w3 ids ids' :
  grows w1 w2 ids → grows w2 w3 ids' → grows w1 w3 (ids ++ ids').
Proof.
  intros (Ht & Hn & Hf & Hd & Hk) (Ht' & Hn' & Hf' & Hd' & Hk').
  repeat split.
  - by rewrite Ht', Ht, map_app, app_assoc.
  - apply NoDup_app. split; [done|]. split; [|done].
    intros i Hi Hi'. specialize (Hf' i Hi').
    assert (is_Some (wGroups w2 !! i)) as [? ?] by (apply Hd; by right).
    congruence.
  - intros i [Hi|Hi]%elem_of_app; [by apply Hf|].
    specialize (Hf' i Hi). destruct (wGroups w1 !! i) eqn:E; [|done].
    assert (is_Some (wGroups w2 !! i)) as [? ?] by (apply Hd; left; eauto).
    congruence.
  - intros H. apply Hd' in H as [H|H].
    + apply Hd in H as [H|H]; [by left|]. right. apply elem_of_app. by left.
    + right. apply elem_of_app. by right.
  - intros [H|[H|H]%elem_of_app].
    + apply Hd'. left. apply Hd. by left.
    + apply Hd'. left. apply Hd. by right.
    + apply Hd'. by right.
  - intros i g [H|H]%Hk'; [|by right]. by apply Hk.
Qed.

Lemma grows_visit w gid g :
  ID g = Some gid → wGroups w !! gid = None →
  grows w (mkWalk (<[gid := g]> (wGroups w)) (wMembers w) (wTrace w ++ [MemberFetch gid])) [gid].
Proof.
  intros Hid Hf. repeat split; simpl.
  - apply NoDup_singleton.
  - intros i ->%list_elem_of_singleton. done.
  - rewrite lookup_insert. case_decide; subst.
    + intros _. right. by apply list_elem_of_singleton.
    + by left.
  - rewrite lookup_insert. case_decide; subst; [eauto|].
    intros [H'|H'%list_elem_of_singleton]; [done|congruence].
  - intros i h. rewrite lookup_insert. case_decide; subst; [|by left].
    intros [= <-]. by right.
Qed.

Lemma forestIDs_cons g groups : forestIDs (g :: groups) = groupIDs g ++ forestIDs groups.
Proof. unfold forestIDs, groupIDs. simpl. by rewrite omap_app. Qed.

Lemma groupIDs_unfold g gid :
  ID g = Some gid → groupIDs g = gid :: forestIDs (SubGroups g).
Proof. intros H. unfold groupIDs. rewrite allGroups_unfold. simpl. by rewrite H. Qed.

Lemma groupIDs_forestIDs s subs i : s ∈ subs → i ∈ groupIDs s → i ∈ forestIDs subs.
Proof.
  intros Hs (A & HA & Hi)%list_elem_of_omap. apply list_elem_of_omap.
  exists A. split; [|done]. apply list_elem_of_In, in_flat_map.
  exists s. split; by apply list_elem_of_In.
Qed.

Lemma NoDup_forestIDs_group s subs : NoDup (forestIDs subs) → s ∈ subs → NoDup (groupIDs s).
Proof.
  induction subs as [|t subs IH]; intros Hnd Hs; [by apply elem_of_nil in Hs|].
  rewrite forestIDs_cons in Hnd. apply NoDup_app in Hnd as (H1 & _ & H2).
  apply elem_of_cons in Hs as [->|Hs]; auto.
Qed.

Section WalkerFacts.
Variables (c : GoCloak) (tok : JWT) (realm : string).
#[local] Abbreviation fetch := (fetch c tok realm).
#[local] Abbreviation direct := (direct c tok realm).
#[local] Abbreviation resolved := (resolved c tok realm).
#[local] Abbreviation bubbled := (bubbled c tok realm).
#[local] Abbreviation directOnly := (directOnly c tok realm).
#[local] Abbreviation visits := (visits c tok realm).
#[local] Abbreviation bubbles := (bubbles c tok realm).

Lemma processGroupsAndMembers_eq group parentGroup scope w :
  processGroupsAndMembers c tok realm group parentGroup scope w =
  (gid ← deref (ID group);
   let w := mkWalk (<[gid := group]> (wGroups w)) (wMembers w)
                   (wTrace w ++ [MemberFetch gid]) in
   match GetGroupMembers c (AccessToken tok) realm gid with
   | Err err => Ret (Some err, w)
   | Ok groupMembers =>
       let w := setMembers (<[gid := groupMembers]> (wMembers w)) w in
       w ← match parentGroup with
           | None => Ret w
           | Some parent =>
               pid ← deref (ID parent);
               Ret (setMembers
                      (<[pid := default [] (wMembers w !! pid) ++ groupMembers]>
                         (wMembers w)) w)
           end;
       if decide (SubSyncScope = scope) then
         w ← processSubGroups c tok realm group scope (SubGroups group) w;
         Ret (None, w)
       else Ret (None, w)
   end).
Proof. destruct group. reflexivity. Qed.

Lemma processSubGroups_cons group scope subGroup rest w :
  processSubGroups c tok realm group scope (subGroup :: rest) w =
  (sid ← deref (ID subGroup);
   match wGroups w !! sid with
   | Some _ => processSubGroups c tok realm group scope rest w
   | None =>
       '(_, w) ← processGroupsAndMembers c tok realm subGroup (Some group) scope w;
       processSubGroups c tok realm group scope rest w
   end).
Proof. reflexivity. Qed.

Lemma processSubGroups_grows group scope subs :
  is_Some (ID group) → Forall wellFormed subs → Forall (λ s, wellFormed s → visits s) subs →
  ∀ w, ∃ w' ids, processSubGroups c tok realm group scope subs w = Ret w' ∧ grows w w' ids.
Proof.
  intros Hg Hwf IH. induction subs as [|s subs IHs]; intros w.
  - exists w, []. split; [done|apply grows_refl].
  - apply Forall_cons in Hwf as [Hs Hwf]. apply Forall_cons in IH as [IH1 IH].
    rewrite processSubGroups_cons.
    destruct (wellFormed_inv _ Hs) as [[sid Hsid] _]. rewrite Hsid. simpl.
    destruct (wGroups w !! sid) eqn:E.
    + by apply IHs.
    + destruct (IH1 Hs (Some group) scope w sid Hsid E) as (e & w1 & ids1 & -> & G1).
      { by intros ? [= <-]. }
      simpl. destruct (IHs Hwf IH w1) as (w2 & ids2 & -> & G2).
      eexists _, _. split; [done|]. eapply grows_trans; eauto.
Qed.

Lemma processGroupsAndMembers_grows g : wellFormed g → visits g.
Proof.
  induction g as [i n subs IH] using Group_nested_ind.
  intros Hwf parentGroup scope w gid Hid Hfresh Hparent.
  rewrite processGroupsAndMembers_eq, Hid. simpl.
  pose proof (grows_visit w gid (mkGroup i n subs) Hid Hfresh) as G0.
  destruct (GetGroupMembers c (AccessToken tok) realm gid) as [ms|err].
  2:{ eexists _, _, []. split; [done|exact G0]. }
  assert (∀ w2, grows w w2 [gid] →
            ∃ e w' ids,
              (if decide (SubSyncScope = scope)
               then w3 ← processSubGroups c tok realm (mkGroup i n subs) scope subs w2;
                    Ret (@None error, w3)
               else Ret (None, w2)) = Ret (e, w') ∧ grows w w' (gid :: ids)) as Htail.
  { intros w2 G2. destruct (decide (SubSyncScope = scope)); [|by eexists _, _, []].
    destruct (wellFormed_inv _ Hwf) as [_ Hsubs]. simpl in Hsubs.
    destruct (processSubGroups_grows (mkGroup i n subs) scope subs
                (mk_is_Some _ _ Hid) Hsubs IH w2) as (w3 & ids & -> & G3).
    simpl. eexists _, _, ids. split; [done|].
    by apply (grows_trans _ _ _ [gid] ids G2 G3). }
  destruct parentGroup as [parent|]; simpl.
  - destruct (Hparent parent eq_refl) as [pid ->]. simpl. by apply Htail.
  - by apply Htail.
Qed.

Lemma processTopLevel_grows scope groups :
  Forall wellFormed groups →
  ∀ w, ∃ w' ids, processTopLevel c tok realm scope groups w = Ret w' ∧ grows w w' ids
       ∧ ∀ g i, g ∈ groups → ID g = Some i → is_Some (wGroups w' !! i).
Proof.
  induction groups as [|g groups IHg]; intros Hwf w.
  - exists w, []. split; [done|]. split; [apply grows_refl|]. intros ?? H. by apply elem_of_nil in H.
  - apply Forall_cons in Hwf as [Hg Hwf]. simpl.
    destruct (wellFormed_inv _ Hg) as [[gid Hgid] _]. rewrite Hgid. simpl.
    destruct (wGroups w !! gid) eqn:E.
    + destruct (IHg Hwf w) as (w' & ids & -> & G & Htop).
      exists w', ids. split; [done|]. split; [done|].
      intros h i [->|Hh]%elem_of_cons Hi; [|by eapply Htop].
      apply G. left. rewrite Hgid in Hi. injection Hi as <-. eauto.
    + destruct (processGroupsAndMembers_grows g Hg None scope w gid Hgid E)
        as (e & w1 & ids1 & -> & G1); [done|].
      simpl. destruct (IHg Hwf w1) as (w' & ids & -> & G & Htop).
      eexists _, _. split; [done|]. split; [by eapply grows_trans|].
      intros h i [->|Hh]%elem_of_cons Hi; [|by eapply Htop].
      apply G. left. apply G1. right. rewrite Hgid in Hi. injection Hi as <-.
      apply elem_of_cons. by left.
Qed.
Lemma processSubGroups_visitUnseen group scope :
  processSubGroups c tok realm group scope =
  visitUnseen (λ s, processGroupsAndMembers c tok realm s (Some group) scope).
Proof. reflexivity. Qed.

Lemma processTopLevel_visitUnseen scope groups w :
  processTopLevel c tok realm scope groups w =
  visitUnseen (λ g, processGroupsAndMembers c tok realm g None scope) groups w.
Proof.
  revert w. induction groups as [|g groups IH]; intros w; [done|]. simpl.
  destruct (deref (ID g)) as [gid|]; [|done]. simpl.
  destruct (wGroups w !! gid); [done|].
  destruct (processGroupsAndMembers _ _ _ _ _ _ _) as [[e w1]|]; [|done]. simpl. apply IH.
Qed.

Lemma visitUnseen_bubbled visit parentID groups :
  Forall (λ g, ∀ w, fresh (groupIDs g) w →
               ∃ e w', visit g w = Ret (e, w') ∧ bubbled [g] parentID w w') groups →
  Forall wellFormed groups →
  NoDup (forestIDs groups) →
  (∀ pid, parentID = Some pid → pid ∉ forestIDs groups) →
  ∀ w, fresh (forestIDs groups) w →
       ∃ w', visitUnseen visit groups w = Ret w' ∧ bubbled groups parentID w w'.
Proof.
  induction groups as [|s rest IH]; intros Hvisit Hwf Hnd Hpar w Hfresh.
  - exists w. split; [done|]. repeat split; simpl; auto.
    + intros pid l _ ->. by rewrite app_nil_r.
    + intros A a HA. by apply elem_of_nil in HA.
  - apply Forall_cons in Hvisit as [Hs Hvisit]. apply Forall_cons in Hwf as [Hwfs Hwf].
    rewrite forestIDs_cons in Hnd, Hpar, Hfresh.
    apply NoDup_app in Hnd as (Hnd1 & Hdisj & Hnd2).
    destruct (wellFormed_inv _ Hwfs) as [[sid Hsid] _].
    assert (sid ∈ groupIDs s) as Hsin.
    { rewrite (groupIDs_unfold _ _ Hsid). apply elem_of_cons. by left. }
    simpl. rewrite Hsid. simpl.
    destruct (Hfresh sid) as [-> _]; [apply elem_of_app; by left|].
    destruct (Hs w) as (e & w1 & -> & G1 & F1 & P1 & D1).
    { intros i Hi. apply Hfresh, elem_of_app. by left. }
    simpl.
    assert (forestIDs [s] = groupIDs s) as Hone.
    { by rewrite forestIDs_cons, app_nil_r. }
    rewrite Hone in G1, F1.
    destruct (IH Hvisit Hwf Hnd2) with (w := w1) as (w' & -> & G2 & F2 & P2 & D2).
    { intros pid Hp Hin. eapply Hpar; [done|]. apply elem_of_app. by right. }
    { intros i Hi. split.
      - destruct (wGroups w1 !! i) eqn:E; [|done].
        destruct (G1 i) as [[? Hw]|Hin]; [eauto| |].
        + destruct (Hfresh i) as [Hn _]; [apply elem_of_app; by right|]. congruence.
        + by destruct (Hdisj i Hin).
      - rewrite F1.
        + apply Hfresh, elem_of_app. by right.
        + intros Hin. by destruct (Hdisj i Hin).
        + intros ->. eapply Hpar; [done|]. apply elem_of_app. by right. }
    exists w'. split; [done|]. repeat split.
    + intros i Hi. rewrite forestIDs_cons. destruct (G2 i Hi) as [Hi1|Hi2].
      * destruct (G1 i Hi1); [by left|]. right. apply elem_of_app. by left.
      * right. apply elem_of_app. by right.
    + intros i Hi Hp. rewrite forestIDs_cons in Hi.
      rewrite F2, F1; auto.
      * intros ?. apply Hi, elem_of_app. by left.
      * intros ?. apply Hi, elem_of_app. by right.
    + intros pid l Hp Hl. simpl. rewrite app_assoc.
      apply P2; [done|]. specialize (P1 pid l Hp Hl). simpl in P1.
      by rewrite app_nil_r in P1.
    + intros A a HA Ha Hsome. simpl in HA. apply elem_of_app in HA as [HA|HA].
      * assert (a ∈ groupIDs s) as Hain.
        { apply list_elem_of_omap. eauto. }
        rewrite F2.
        -- apply D1; [simpl; by rewrite app_nil_r|done|].
           destruct (G2 a Hsome) as [?|Hin]; [done|]. by destruct (Hdisj a Hain).
        -- intros Hin. by destruct (Hdisj a Hain).
        -- intros ->. eapply Hpar; [done|]. apply elem_of_app. by left.
      * by apply D2.
Qed.
Lemma bubbled_single g parentID w w' :
  bubbled [g] parentID w w' ↔
  (∀ i, is_Some (wGroups w' !! i) → is_Some (wGroups w !! i) ∨ i ∈ groupIDs g) ∧
  (∀ i, i ∉ groupIDs g → parentID ≠ Some i → wMembers w' !! i = wMembers w !! i) ∧
  (∀ pid l, parentID = Some pid → wMembers w !! pid = Some l →
            wMembers w' !! pid = Some (l ++ direct g)) ∧
  (∀ A a, A ∈ allGroups g → ID A = Some a →
          is_Some (wGroups w' !! a) → wMembers w' !! a = resolved A).
Proof.
  unfold bubbled. rewrite forestIDs_cons. unfold forestIDs at 1 2. simpl.
  rewrite !app_nil_r. done.
Qed.

Lemma processGroupsAndMembers_bubbles g : bubbles g.
Proof.
  induction g as [i n subs IH] using Group_nested_ind.
  intros Hwf Hnd parentGroup w Hpsome Hpar Hfresh.
  destruct (wellFormed_inv _ Hwf) as [[gid Hid] Hsubs]. simpl in Hsubs, Hid. subst i.
  set (g := mkGroup (Some gid) n subs) in *.
  assert (ID g = Some gid) as Hid by done.
  rewrite (groupIDs_unfold _ _ Hid) in Hnd, Hpar, Hfresh. simpl in Hnd, Hpar, Hfresh.
  apply NoDup_cons in Hnd as [Hgid Hnd].
  destruct (Hfresh gid) as [Hg0 Hm0]; [apply elem_of_cons; by left|].
  rewrite processGroupsAndMembers_eq, Hid. simpl.
  setoid_rewrite bubbled_single. rewrite (groupIDs_unfold _ _ Hid). simpl.
  fold (fetch gid).
  assert (resolved g = match fetch gid with
                       | Ok l => Some (l ++ flat_map direct subs) | Err _ => None end) as Hres.
  { unfold resolved. by rewrite Hid. }
  assert (direct g = match fetch gid with Ok l => l | Err _ => [] end) as Hdir.
  { unfold direct. by rewrite Hid. }
  destruct (fetch gid) as [ms|err] eqn:Hfetch.
  2:{ eexists _, _. split; [done|]. simpl. repeat split.
      - intros j. rewrite lookup_insert. case_decide; subst.
        + intros _. right. apply elem_of_cons. by left.
        + by left.
      - intros pid l _ ->. by rewrite Hdir, app_nil_r.
      - intros A a HA Ha. try rewrite allGroups_unfold in HA.
        apply elem_of_cons in HA as [->|HA].
        + assert (a = gid) as -> by (unfold g in Hid; simpl in *; congruence).
          fold g. by rewrite Hres, Hm0.
        + rewrite lookup_insert. case_decide as Hag; subst.
          * destruct Hgid. apply list_elem_of_omap. eauto.
          * intros [? Hw]. destruct (Hfresh a) as [Hn _]; [|congruence].
            apply elem_of_cons. right. apply list_elem_of_omap. eauto. }
  assert (∀ w2,
    wGroups w2 = <[gid:=g]> (wGroups w) →
    wMembers w2 !! gid = Some ms →
    (∀ j, j ≠ gid → parentGroup ≫= ID ≠ Some j → wMembers w2 !! j = wMembers w !! j) →
    (∀ pid l, parentGroup ≫= ID = Some pid → wMembers w !! pid = Some l →
              wMembers w2 !! pid = Some (l ++ ms)) →
    ∃ e w',
      (if decide (SubSyncScope = SubSyncScope)
       then w3 ← processSubGroups c tok realm g SubSyncScope subs w2; Ret (@None error, w3)
       else Ret (None, w2)) = Ret (e, w') ∧
      (∀ j, is_Some (wGroups w' !! j) → is_Some (wGroups w !! j) ∨ j ∈ gid :: forestIDs subs) ∧
      (∀ j, j ∉ gid :: forestIDs subs → parentGroup ≫= ID ≠ Some j →
            wMembers w' !! j = wMembers w !! j) ∧
      (∀ pid l, parentGroup ≫= ID = Some pid → wMembers w !! pid = Some l →
                wMembers w' !! pid = Some (l ++ direct g)) ∧
      (∀ A a, A ∈ allGroups g → ID A = Some a →
              is_Some (wGroups w' !! a) → wMembers w' !! a = resolved A)) as Htail.
  { intros w2 Hg2 Hm2 Hf2 Hp2.
    rewrite decide_True by done.
    rewrite processSubGroups_visitUnseen.
    destruct (visitUnseen_bubbled
                (λ s, processGroupsAndMembers c tok realm s (Some g) SubSyncScope)
                (Some gid) subs) with (w := w2) as (w' & -> & G & F & P & D).
    { apply Forall_forall. intros s Hs w0 Hw0.
      rewrite Forall_forall in IH. rewrite Forall_forall in Hsubs.
      apply (IH s Hs (Hsubs s Hs) (NoDup_forestIDs_group _ _ Hnd Hs) (Some g) w0).
      - intros ? [= <-]. eauto.
      - simpl. intros ? [= <-] Hin. apply Hgid. by eapply groupIDs_forestIDs.
      - done. }
    { done. }
    { done. }
    { by intros ? [= <-]. }
    { intros j Hj. assert (j ≠ gid) by (by intros ->). split.
      - rewrite Hg2, lookup_insert_ne by done. apply Hfresh, elem_of_cons. by right.
      - rewrite Hf2; [apply Hfresh, elem_of_cons; by right|done|].
        intros Hp. eapply Hpar; [done|]. apply elem_of_cons. by right. }
    simpl. eexists _, _. split; [done|]. repeat split.
    - intros j Hj. destruct (G j Hj) as [Hj2|Hj2].
      + rewrite Hg2, lookup_insert in Hj2. case_decide; subst.
        * right. apply elem_of_cons. by left.
        * by left.
      + right. apply elem_of_cons. by right.
    - intros j Hj Hpj. rewrite F.
      + apply Hf2; [|done]. intros ->. apply Hj, elem_of_cons. by left.
      + intros ?. apply Hj, elem_of_cons. by right.
      + intros [= ->]. apply Hj, elem_of_cons. by left.
    - intros pid l Hp Hl. rewrite Hdir. rewrite F.
      + by apply Hp2.
      + intros ?. eapply Hpar; [done|]. apply elem_of_cons. by right.
      + intros [= ->]. eapply Hpar; [done|]. apply elem_of_cons. by left.
    - intros A a HA Ha Hsome. try rewrite allGroups_unfold in HA.
      apply elem_of_cons in HA as [->|HA].
      + assert (a = gid) as -> by (simpl in Ha; congruence).
        fold g. rewrite Hres. by apply P.
      + by apply D. }
  destruct parentGroup as [parent|]; simpl.
  - destruct (Hpsome parent eq_refl) as [pid Hpid]. rewrite Hpid. simpl.
    simpl in Htail, Hpar. rewrite Hpid in Htail, Hpar.
    assert (pid ≠ gid) as Hne.
    { intros ->. eapply (Hpar gid); [done|]. apply elem_of_cons. by left. }
    apply Htail; simpl.
    + done.
    + rewrite lookup_insert_ne by done. apply lookup_insert_eq.
    + intros j Hj Hpj. rewrite !lookup_insert_ne; [done|done|congruence].
    + intros ? l [= <-] Hl. rewrite lookup_insert_eq.
      by rewrite lookup_insert_ne, Hl by done.
  - apply Htail; simpl.
    + done.
    + apply lookup_insert_eq.
    + intros j Hj _. by rewrite lookup_insert_ne.
    + done.
Qed.
Lemma processTopLevel_group_only scope groups w w' :
  scope ≠ SubSyncScope →
  processTopLevel c tok realm scope groups w = Ret w' →
  directOnly w →
  directOnly w' ∧
  ∃ ids, wTrace w' = wTrace w ++ map MemberFetch ids ∧
         ∀ i, i ∈ ids → ∃ g, g ∈ groups ∧ ID g = Some i.
Proof.
  intros Hscope. revert w. induction groups as [|g groups IH]; intros w; simpl.
  - intros [= <-] HJ. split; [done|]. exists []. split; [by rewrite app_nil_r|].
    intros i Hi. by apply elem_of_nil in Hi.
  - destruct (ID g) as [gid|] eqn:Hgid; [|done]. simpl.
    destruct (wGroups w !! gid) eqn:Hcached.
    + intros Hw HJ. destruct (IH w Hw HJ) as (HJ' & ids & Ht & Hids).
      split; [done|]. exists ids. split; [done|].
      intros i Hi. destruct (Hids i Hi) as (h & ? & ?). exists h.
      split; [apply elem_of_cons; by right|done].
    + rewrite processGroupsAndMembers_eq, Hgid. simpl.
      fold (fetch gid).
      destruct (fetch gid) as [ms|err] eqn:Hf; simpl.
      * rewrite decide_False by done. simpl. intros Hw HJ.
        destruct (IH _ Hw) as (HJ' & ids & Ht & Hids).
        { split.
          - intros i. simpl. rewrite !lookup_insert.
            case_decide; subst; [by rewrite Hf|apply HJ].
          - intros i h. simpl. rewrite lookup_insert.
            case_decide; subst; [by intros [= <-]|apply HJ]. }
        split; [done|]. exists (gid :: ids). simpl in Ht. split.
        { by rewrite Ht, <- app_assoc. }
        intros i [->|Hi]%elem_of_cons.
        -- exists g. split; [apply elem_of_cons; by left|done].
        -- destruct (Hids i Hi) as (h & ? & ?). exists h.
           split; [apply elem_of_cons; by right|done].
      * intros Hw HJ.
        destruct (IH _ Hw) as (HJ' & ids & Ht & Hids).
        { split.
          - intros i. simpl. rewrite lookup_insert. case_decide; subst.
            + rewrite Hf. destruct HJ as [HJ _]. by rewrite (HJ i), Hcached.
            + apply HJ.
          - intros i h. simpl. rewrite lookup_insert.
            case_decide; subst; [by intros [= <-]|apply HJ]. }
        split; [done|]. exists (gid :: ids). simpl in Ht. split.
        { by rewrite Ht, <- app_assoc. }
        intros i [->|Hi]%elem_of_cons.
        -- exists g. split; [apply elem_of_cons; by left|done].
        -- destruct (Hids i Hi) as (h & ? & ?). exists h.
           split; [apply elem_of_cons; by right|done].
Qed.
End WalkerFacts.

Lemma usernames_fmap members us :
  usernames members = Ret us ↔ Username <$> members = Some <$> us.
Proof.
  revert us. induction members as [|u members IH]; intros us; simpl.
  - split; [by intros [= <-]|]. intros H. symmetry in H. by apply fmap_nil_inv in H as ->.
  - destruct (Username u) as [n|] eqn:E; simpl.
    + destruct (usernames members) as [us'|] eqn:E'; simpl.
      * split.
        -- intros [= <-]. simpl. f_equal. by apply IH.
        -- destruct us as [|n' us]; [done|]. simpl. intros [= -> H].
           apply IH in H. by injection H as ->.
      * split; [done|]. destruct us as [|n' us]; [done|]. simpl. intros [= -> H].
        by apply IH in H.
    + split; [done|]. by destruct us.
Qed.

Lemma usernames_elem members us n :
  usernames members = Ret us → n ∈ us ↔ ∃ u, u ∈ members ∧ Username u = Some n.
Proof.
  intros H%usernames_fmap. split.
  - intros Hn. assert (Some n ∈ Username <$> members) as Hin.
    { rewrite H. apply list_elem_of_fmap. eauto. }
    apply list_elem_of_fmap in Hin as (u & ? & ?). eauto.
  - intros (u & Hu & Hn). assert (Some n ∈ Some <$> us) as Hin.
    { rewrite <- H. apply list_elem_of_fmap. eauto. }
    apply list_elem_of_fmap in Hin as (n' & [= ->] & ?). done.
Qed.

Section SyncFacts.
Context (net : NetURL).

Lemma toOcpGroup_inv k G og :
  toOcpGroup net k G = Ret (Ok og) →
  ∃ gid, ID G = Some gid ∧ Name G = Some (ObjectName og) ∧
         Annotations og !! SyncSourceUID = Some gid ∧
         usernames (default [] (CachedGroupMembers k !! gid)) = Ret (Users og).
Proof.
  unfold toOcpGroup. destruct (Name G) as [name|]; [|done]. simpl.
  destruct (url_Parse net _) as [url|]; [|done].
  destruct (ID G) as [gid|]; [|done]. simpl.
  destruct (usernames _) as [users|] eqn:Hu; [|done]. simpl.
  intros [= <-]. exists gid. cbn [ObjectName Annotations Users].
  repeat split; done.
Qed.

Lemma toOcpGroups_inv k cached acc out :
  toOcpGroups net k cached acc = Ret (Ok out) →
  ∃ new, out = acc ++ new ∧
         Forall2 (λ G og, toOcpGroup net k G = Ret (Ok og)) cached new.
Proof.
  revert acc. induction cached as [|G cached IH]; intros acc; simpl.
  - intros [= <-]. exists []. by rewrite app_nil_r.
  - destruct (toOcpGroup net k G) as [[og|err]|] eqn:E; [|done|done]. simpl.
    intros (new & -> & HF)%IH. exists (og :: new).
    split; [by rewrite <- app_assoc|]. by constructor.
Qed.

Lemma Sync_walked k tr c tok groups w :
  GoCloak_ k = Some c → Token k = Some tok →
  GetGroups c (AccessToken tok) (Realm (Provider k)) = Ok groups →
  processTopLevel c tok (Realm (Provider k)) (Scope (Provider k)) groups
    (mkWalk (CachedGroups k) (CachedGroupMembers k) tr) = Ret w →
  Sync net k tr =
    (let k' := setCachedGroupMembers (wMembers w) (setCachedGroups (wGroups w) k) in
     r ← toOcpGroups net k' (map_to_list (wGroups w)).*2 [];
     Ret (r, k', wTrace w)).
Proof. intros Hc Ht Hg Hw. unfold Sync. rewrite Hc, Ht. simpl. rewrite Hg, Hw. done. Qed.

(** Every canonical group comes from one cache entry. *)
Lemma Sync_output k tr c tok groups w out k' tr' og :
  GoCloak_ k = Some c → Token k = Some tok →
  GetGroups c (AccessToken tok) (Realm (Provider k)) = Ok groups →
  processTopLevel c tok (Realm (Provider k)) (Scope (Provider k)) groups
    (mkWalk (CachedGroups k) (CachedGroupMembers k) tr) = Ret w →
  Sync net k tr = Ret (Ok out, k', tr') →
  og ∈ out →
  ∃ key G gid, wGroups w !! key = Some G ∧ ID G = Some gid ∧
               Name G = Some (ObjectName og) ∧
               Annotations og !! SyncSourceUID = Some gid ∧
               usernames (default [] (wMembers w !! gid)) = Ret (Users og).
Proof.
  intros Hc Ht Hg Hw HS Hog. rewrite (Sync_walked _ _ _ _ _ _ Hc Ht Hg Hw) in HS.
  simpl in HS. destruct (toOcpGroups _ _ _ _) as [[out'|]|] eqn:E; simpl in HS; [|done|done].
  injection HS as -> <- <-.
  apply toOcpGroups_inv in E as (new & -> & HF). simpl in Hog.
  apply list_elem_of_lookup in Hog as [j Hj].
  destruct (Forall2_lookup_r _ _ _ _ _ HF Hj) as (G & HG & HGog).
  apply list_lookup_fmap_Some in HG as ([key G'] & -> & HkG). simpl in *.
  apply list_elem_of_lookup_2 in HkG. apply elem_of_map_to_list in HkG.
  apply toOcpGroup_inv in HGog as (gid & ? & ? & ? & ?). simpl in *.
  exists key, G', gid. done.
Qed.
End SyncFacts.

Lemma grows_keyed w w' ids i g :
  grows w w' ids → wGroups w = ∅ → wGroups w' !! i = Some g → ID g = Some i.
Proof.
  intros (_ & _ & _ & _ & Hk) He Hg. destruct (Hk i g Hg) as [H|H]; [|done].
  by rewrite He, lookup_empty in H.
Qed.

(** C2, amended: under the include-subgroups scope and with unique
    identifiers, the canonical users of a group A whose own listing
    succeeded are A's direct members followed by the direct members of
    each immediate sub-group, so they include every direct member of a
    sub-group B; what was bubbled into B from below is not passed on. *)
Theorem bubbling_is_one_level net k c tok tr groups out k' tr' A B a la og :
  GoCloak_ k = Some c → Token k = Some tok →
  CachedGroups k = ∅ → CachedGroupMembers k = ∅ →
  Scope (Provider k) = SubSyncScope →
  GetGroups c (AccessToken tok) (Realm (Provider k)) = Ok groups →
  Forall wellFormed groups → NoDup (forestIDs groups) →
  Sync net k tr = Ret (Ok out, k', tr') →
  A ∈ flat_map allGroups groups → B ∈ SubGroups A →
  ID A = Some a → fetch c tok (Realm (Provider k)) a = Ok la →
  og ∈ out → Annotations og !! SyncSourceUID = Some a →
  usernames (la ++ flat_map (direct c tok (Realm (Provider k))) (SubGroups A))
    = Ret (Users og) ∧
  ∀ u n, u ∈ direct c tok (Realm (Provider k)) B → Username u = Some n → n ∈ Users og.
Proof.
  intros Hc Ht Hcg Hcm Hscope Hgroups Hwf Hnd HS HA HB Ha Hla Hog Huid.
  set (realm := Realm (Provider k)) in *.
  set (w0 := mkWalk (CachedGroups k) (CachedGroupMembers k) tr).
  destruct (processTopLevel_grows c tok realm (Scope (Provider k)) groups Hwf w0)
    as (w & ids & Hw & Hgrow & _).
  pose proof Hw as Hw'. rewrite Hscope, processTopLevel_visitUnseen in Hw'.
  destruct (visitUnseen_bubbled c tok realm
              (λ g, processGroupsAndMembers c tok realm g None SubSyncScope) None groups)
    with (w := w0) as (w2 & Hw2 & _ & _ & _ & D).
  { apply Forall_forall. intros g Hg w1 Hfresh. rewrite Forall_forall in Hwf.
    apply (processGroupsAndMembers_bubbles c tok realm g (Hwf g Hg)
             (NoDup_forestIDs_group _ _ Hnd Hg) None w1); done. }
  { done. }
  { done. }
  { done. }
  { intros i _. unfold w0. simpl. by rewrite Hcg, Hcm, !lookup_empty. }
  rewrite Hw' in Hw2. injection Hw2 as <-.
  destruct (Sync_output net k tr c tok groups w out k' tr' og Hc Ht Hgroups Hw HS Hog)
    as (key & G & gid & HG & HidG & _ & Huid' & Hus).
  rewrite Huid in Huid'. injection Huid' as <-.
  assert (key = a) as ->.
  { pose proof (grows_keyed _ _ _ _ _ Hgrow Hcg HG). congruence. }
  rewrite (D A a HA Ha (mk_is_Some _ _ HG)) in Hus.
  unfold resolved in Hus. rewrite Ha, Hla in Hus. simpl in Hus.
  split; [done|].
  intros u n Hu Hn. apply (usernames_elem _ _ n Hus). exists u. split; [|done].
  apply elem_of_app. right. apply list_elem_of_In, in_flat_map.
  exists B. split; by apply list_elem_of_In.
Qed.

(** C3, amended: under the group-only scope the canonical users of a
    group A are exactly the members the provider lists for A itself, so
    a member of a sub-group B appears only if it is a direct member of A
    too; and no member listing is requested for B unless B is itself a
    top-level group. *)
Theorem group_only_keeps_direct_members net k c tok tr groups out k' tr' A B a og :
  GoCloak_ k = Some c → Token k = Some tok →
  CachedGroups k = ∅ → CachedGroupMembers k = ∅ →
  Scope (Provider k) ≠ SubSyncScope →
  GetGroups c (AccessToken tok) (Realm (Provider k)) = Ok groups →
  Sync net k tr = Ret (Ok out, k', tr') →
  B ∈ SubGroups A → ID A = Some a →
  og ∈ out → Annotations og !! SyncSourceUID = Some a →
  usernames (direct c tok (Realm (Provider k)) A) = Ret (Users og) ∧
  (∀ u n, u ∈ direct c tok (Realm (Provider k)) B → Username u = Some n →
          (∀ u', u' ∈ direct c tok (Realm (Provider k)) A → Username u' ≠ Some n) →
          n ∉ Users og) ∧
  (∀ b, ID B = Some b → MemberFetch b ∈ tr' →
        MemberFetch b ∈ tr ∨ ∃ g, g ∈ groups ∧ ID g = Some b).
Proof.
  intros Hc Ht Hcg Hcm Hscope Hgroups HS HB Ha Hog Huid.
  set (realm := Realm (Provider k)) in *.
  set (w0 := mkWalk (CachedGroups k) (CachedGroupMembers k) tr).
  destruct (processTopLevel c tok realm (Scope (Provider k)) groups w0) as [w|] eqn:Hw.
  2:{ subst realm w0. unfold Sync in HS. rewrite Hc, Ht in HS. simpl in HS.
      by rewrite Hgroups, Hw in HS. }
  destruct (processTopLevel_group_only c tok realm _ groups w0 w Hscope Hw)
    as (HJ & ids & Htr & Hids).
  { unfold w0. split; simpl; intros i.
    - by rewrite Hcg, Hcm, !lookup_empty.
    - intros h. by rewrite Hcg, lookup_empty. }
  destruct HJ as [HJ Hkeyed].
  destruct (Sync_output net k tr c tok groups w out k' tr' og Hc Ht Hgroups Hw HS Hog)
    as (key & G & gid & HG & HidG & _ & Huid' & Hus).
  rewrite Huid in Huid'. injection Huid' as <-.
  assert (key = a) as -> by (specialize (Hkeyed _ _ HG); congruence).
  assert (tr' = wTrace w) as ->.
  { rewrite (Sync_walked net k tr c tok groups w Hc Ht Hgroups Hw) in HS. simpl in HS.
    destruct (toOcpGroups _ _ _ _); simpl in HS; [|done]. by injection HS. }
  assert (usernames (direct c tok realm A) = Ret (Users og)) as Hdirect.
  { unfold direct. rewrite Ha. rewrite (HJ a), HG in Hus.
    by destruct (fetch c tok realm a). }
  split; [done|]. split.
  - intros u n _ _ Hnot Hn. apply (usernames_elem _ _ n Hdirect) in Hn as (u' & Hu' & Hn').
    by apply (Hnot u').
  - intros b Hb Hin. rewrite Htr in Hin. simpl in Hin.
    apply elem_of_app in Hin as [Hin|Hin]; [by left|]. right.
    apply list_elem_of_fmap in Hin as (i & [= ->] & Hi). by apply Hids.
Qed.


(** ** The claims about the Keycloak syncer, on the sample directories *)
Section OnSamples.
Import Samples.

(** C1, at the failing input: the listing of sub-group B fails, and
    [Sync] still returns both groups and no error. *)
Theorem sync_swallows_member_fetch_error :
  fetch brokenDir token "realm" "b" = Err "connection reset" ∧
  ∃ out,
    returned (Sync plainURL (syncerOf SubSyncScope brokenDir) []) = Ret (Ok out) ∧
    length out = 2 ∧
    canonicalGroup "A" "sso.example.com" "a" ["alice"] ∈ out ∧
    canonicalGroup "B" "sso.example.com" "b" [] ∈ out.
Proof.
  split; [reflexivity|].
  exists [canonicalGroup "A" "sso.example.com" "a" ["alice"];
          canonicalGroup "B" "sso.example.com" "b" []].
  split; [reflexivity|]. split; [reflexivity|]. split; repeat constructor.
Qed.

(** C2 fails as stated: carol, a member bubbled into B from its
    sub-group C, is in B's canonical output and not in A's. *)
Lemma grandchild_members_do_not_bubble :
  teamB ∈ SubGroups teamA ∧
  ∃ usersA usersB,
    emittedUsers "a" (returned (Sync plainURL (syncerOf SubSyncScope chainDir) []))
      = Some usersA ∧
    emittedUsers "b" (returned (Sync plainURL (syncerOf SubSyncScope chainDir) []))
      = Some usersB ∧
    "carol" ∈ usersB ∧ "carol" ∉ usersA.
Proof.
  split; [repeat constructor|].
  exists ["alice"; "bob"], ["bob"; "carol"].
  split; [reflexivity|]. split; [reflexivity|]. split; compute_done.
Qed.

Lemma bubbling_is_one_level_witness :
  usernames ([user "alice"] ++ flat_map (direct chainDir token "realm") (SubGroups teamA))
    = Ret ["alice"; "bob"] ∧
  ∀ u n, u ∈ direct chainDir token "realm" teamB → Username u = Some n →
         n ∈ ["alice"; "bob"].
Proof.
  apply (bubbling_is_one_level plainURL (syncerOf SubSyncScope chainDir) chainDir token []
           [teamA] chainOut chainAfter [MemberFetch "a"; MemberFetch "b"; MemberFetch "c"]
           teamA teamB "a" [user "alice"]
           (canonicalGroup "A" "sso.example.com" "a" ["alice"; "bob"])).
  - reflexivity.
  - reflexivity.
  - reflexivity.
  - reflexivity.
  - reflexivity.
  - reflexivity.
  - repeat constructor; eexists; reflexivity.
  - compute_done.
  - reflexivity.
  - simpl. repeat constructor.
  - simpl. repeat constructor.
  - reflexivity.
  - reflexivity.
  - unfold chainOut. repeat constructor.
  - reflexivity.
Defined.

(** C3 fails as stated: bob is a member of sub-group B and appears in
    A's canonical output under the group-only scope, being a direct
    member of A as well. *)
Lemma shared_member_appears_under_group_only :
  pairB ∈ SubGroups pairA ∧
  OneSyncScope ≠ SubSyncScope ∧
  fetch sharedDir token "realm" "b" = Ok [user "bob"] ∧
  ∃ usersA,
    emittedUsers "a" (returned (Sync plainURL (syncerOf OneSyncScope sharedDir) []))
      = Some usersA ∧
    "bob" ∈ usersA.
Proof.
  split; [repeat constructor|]. split; [done|]. split; [reflexivity|].
  exists ["alice"; "bob"]. split; [reflexivity|compute_done].
Qed.

Lemma group_only_keeps_direct_members_witness :
  usernames (direct sharedDir token "realm" pairA) = Ret ["alice"; "bob"] ∧
  (∀ u n, u ∈ direct sharedDir token "realm" pairB → Username u = Some n →
          (∀ u', u' ∈ direct sharedDir token "realm" pairA → Username u' ≠ Some n) →
          n ∉ ["alice"; "bob"]) ∧
  (∀ b, ID pairB = Some b → MemberFetch b ∈ [MemberFetch "a"] →
        MemberFetch b ∈ [] ∨ ∃ g, g ∈ [pairA] ∧ ID g = Some b).
Proof.
  apply (group_only_keeps_direct_members plainURL (syncerOf OneSyncScope sharedDir)
           sharedDir token [] [pairA]
           [canonicalGroup "A" "sso.example.com" "a" ["alice"; "bob"]]
           sharedAfter [MemberFetch "a"] pairA pairB "a"
           (canonicalGroup "A" "sso.example.com" "a" ["alice"; "bob"])).
  - reflexivity.
  - reflexivity.
  - reflexivity.
  - reflexivity.
  - discriminate.
  - reflexivity.
  - reflexivity.
  - simpl. repeat constructor.
  - reflexivity.
  - repeat constructor.
  - reflexivity.
Defined.

End OnSamples.

End KeycloakFacts.

(** * Properties of the walk over groups in memory *)
Module PointerFacts.
Import Keycloak Keycloak.Pointers.

Section PointerWalk.
Variables (c : GoCloak) (tok : JWT) (realm : string) (heap : Heap).
Variables (scope : SyncScope) (groups : list GroupRef).
#[local] Abbreviation fetch := (fetch c tok realm).
#[local] Abbreviation idOf := (idOf heap).
#[local] Abbreviation visit := (processGroupsAndMembers c tok realm heap).
#[local] Abbreviation processed := (processed c tok realm heap scope groups).
#[local] Abbreviation unvisited := (unvisited heap).
#[local] Abbreviation parentCached := (parentCached heap).
#[local] Abbreviation reachable := (reachable heap groups).

Lemma idOf_Ret p i :
  idOf p = Ret i ↔ ∃ node, heap !! p = Some node ∧ nodeID node = Some i.
Proof.
  unfold Pointers.idOf. destruct (heap !! p) as [node|]; simpl.
  - destruct (nodeID node) as [j|] eqn:Hj; simpl.
    + split; [intros [= <-]; by exists node|by intros (? & [= <-] & ?); simplify_eq].
    + split; [done|intros (? & [= <-] & ?); congruence].
  - split; [done|by intros (? & ? & _)].
Qed.

Lemma closed_idOf p : closed heap → is_Some (heap !! p) → ∃ i, idOf p = Ret i.
Proof.
  intros Hc [node Hp]. destruct (Hc p node Hp) as [[i Hi] _].
  exists i. apply idOf_Ret. by exists node.
Qed.

Lemma elem_of_unvisited w p :
  p ∈ unvisited w ↔ ∃ i, idOf p = Ret i ∧ wGroups w !! i = None.
Proof.
  unfold Pointers.unvisited. rewrite elem_of_filter.
  rewrite (elem_of_dom (D := gset GroupRef) (heap : gmap GroupRef Node)). unfold unseen.
  split.
  - intros [Hu _]. destruct (idOf p) as [i|]; [|done].
    exists i. split; [done|]. by apply bool_decide_unpack in Hu.
  - intros (i & Hi & Hn). rewrite Hi. split; [by apply bool_decide_pack|].
    apply idOf_Ret in Hi as (node & Hnode & _). exists node. exact Hnode.
Qed.

Lemma unvisited_size w : size (unvisited w) ≤ size heap.
Proof.
  rewrite <- (size_dom (D := gset GroupRef) (heap : gmap GroupRef Node)). apply subseteq_size.
  unfold Pointers.unvisited. intros p. rewrite elem_of_filter. tauto.
Qed.

Lemma unvisited_mono w w' :
  (∀ i, is_Some (wGroups w !! i) → is_Some (wGroups w' !! i)) →
  unvisited w' ⊆ unvisited w.
Proof.
  intros Hk p. rewrite !elem_of_unvisited. intros (i & Hi & Hn).
  exists i. split; [done|]. destruct (wGroups w !! i) eqn:E; [|done].
  destruct (Hk i) as [? ?]; [done|congruence].
Qed.

Lemma unvisited_visit w w' p i :
  (∀ j, is_Some (wGroups w !! j) → is_Some (wGroups w' !! j)) →
  idOf p = Ret i → wGroups w !! i = None → is_Some (wGroups w' !! i) →
  size (unvisited w') < size (unvisited w).
Proof.
  intros Hk Hi Hn Hs. apply subset_size. split; [by apply unvisited_mono|].
  intros Hsub. assert (p ∈ unvisited w') as Hp.
  { apply Hsub, elem_of_unvisited. by exists i. }
  apply elem_of_unvisited in Hp as (j & Hj & Hnone).
  rewrite Hi in Hj. injection Hj as <-. rewrite Hnone in Hs. by destruct Hs.
Qed.

Lemma walk_grows_refl w : grows w w [].
Proof.
  repeat split; simpl.
  - by rewrite app_nil_r.
  - constructor.
  - by intros ? ?%elem_of_nil.
  - done.
  - by left.
  - intros [?|?%elem_of_nil]; done.
  - intros i l _ H. exists []. by rewrite app_nil_r.
Qed.

Lemma grows_cached w w' ids i :
  grows w w' ids → is_Some (wGroups w !! i) → is_Some (wGroups w' !! i).
Proof. intros (_ & _ & _ & _ & Hd & _) H. apply Hd. by left. Qed.

Lemma walk_grows_trans w w1 w2 ids1 ids2 :
  grows w w1 ids1 → grows w1 w2 ids2 → grows w w2 (ids1 ++ ids2).
Proof.
  intros (Ht1 & Hn1 & Hf1 & Hk1 & Hd1 & Hm1) (Ht2 & Hn2 & Hf2 & Hk2 & Hd2 & Hm2).
  repeat split.
  - by rewrite Ht2, Ht1, map_app, app_assoc.
  - apply NoDup_app. repeat split; [done| |done].
    intros i Hi1 Hi2. specialize (Hf2 i Hi2).
    destruct (proj2 (Hd1 i)) as [? ?]; [by right|congruence].
  - intros i [Hi|Hi]%elem_of_app; [by apply Hf1|].
    specialize (Hf2 i Hi). destruct (wGroups w !! i) as [p|] eqn:E; [|done].
    apply Hk1 in E. congruence.
  - intros i p H. by apply Hk2, Hk1.
  - rewrite Hd2, Hd1, elem_of_app. tauto.
  - rewrite Hd2, Hd1, elem_of_app. tauto.
  - intros i l Hs Hl. destruct (Hm1 i l Hs Hl) as [r1 H1].
    destruct (Hm2 i (l ++ r1)) as [r2 H2]; [|done|].
    + apply Hd1. by left.
    + exists (r1 ++ r2). by rewrite app_assoc.
Qed.

Lemma processed_stable w w' ids i :
  processed w i → grows w w' ids → processed w' i.
Proof.
  intros (p & node & Hp & Hr & Hn & Hi & Hms & Hsub) Hg.
  pose proof Hg as (_ & _ & _ & Hk & _ & Hm).
  exists p, node. repeat split; try done.
  - by apply Hk.
  - intros ms Hf. destruct (Hms ms Hf) as [rest Hrest].
    destruct (Hm i (ms ++ rest)) as [more Hmore]; [by rewrite Hp|done|].
    exists (rest ++ more). by rewrite app_assoc.
  - intros Hs Hf s Hin. destruct (Hsub Hs Hf s Hin) as (j & Hj & Hc).
    exists j. split; [done|]. by eapply grows_cached.
Qed.

(** The loop, given that visits return. *)
Lemma visitUnseen_within n parentGroup :
  closed heap → visitsWithin c tok realm heap scope groups n →
  ∀ subGroups w,
    size (unvisited w) ≤ n →
    (∀ s, s ∈ subGroups → reachable s ∧ is_Some (heap !! s)) →
    parentCached parentGroup w →
    ∃ w' ids,
      (∀ fuel, n < fuel →
         visitUnseen heap (λ subGroup w, visit fuel subGroup parentGroup scope w)
           subGroups w = Some (Ret w')) ∧
      grows w w' ids ∧
      (∀ i, i ∈ ids → processed w' i) ∧
      ∀ s, s ∈ subGroups → ∃ j, idOf s = Ret j ∧ is_Some (wGroups w' !! j).
Proof.
  intros Hclosed Hvisit. induction subGroups as [|s rest IH]; intros w Hsize Hsubs Hparent.
  - exists w, []. split; [done|]. split; [apply walk_grows_refl|].
    split; by intros ? ?%elem_of_nil.
  - destruct (Hsubs s) as [Hreach Hheap]; [by left|].
    destruct (closed_idOf s Hclosed Hheap) as [j Hj].
    assert (Hrest : ∀ t, t ∈ rest → reachable t ∧ is_Some (heap !! t)).
    { intros t Ht. apply Hsubs. by right. }
    destruct (wGroups w !! j) as [q|] eqn:Hcached.
    + destruct (IH w Hsize Hrest Hparent) as (w' & ids & Hrun & Hg & Hp & Hall).
      exists w', ids. split; [|split; [done|split; [done|]]].
      * intros fuel Hfuel. simpl. rewrite Hj. simpl. rewrite Hcached. by apply Hrun.
      * intros t [->|Ht]%elem_of_cons; [|by apply Hall].
        exists j. split; [done|]. eapply grows_cached; [done|]. by rewrite Hcached.
    + destruct (Hvisit s parentGroup w j Hsize Hj Hcached Hreach Hparent)
        as (e & w1 & ids1 & Hrun1 & Hg1 & Hp1).
      destruct (IH w1) as (w' & ids2 & Hrun2 & Hg2 & Hp2 & Hall).
      * etrans; [|exact Hsize]. apply subseteq_size, unvisited_mono.
        intros i. by apply grows_cached with (ids := j :: ids1).
      * done.
      * intros parent Hpar. destruct (Hparent parent Hpar) as (pid & Hpid & Hc).
        exists pid. split; [done|]. by eapply grows_cached.
      * exists w', ((j :: ids1) ++ ids2). split; [|split; [|split]].
        -- intros fuel Hfuel. simpl. rewrite Hj. simpl. rewrite Hcached.
           rewrite (Hrun1 fuel Hfuel). simpl. by apply Hrun2.
        -- by eapply walk_grows_trans.
        -- intros i [Hi|Hi]%elem_of_app; [|by apply Hp2].
           eapply processed_stable; [by apply Hp1|done].
        -- intros t [->|Ht]%elem_of_cons; [|by apply Hall].
           exists j. split; [done|]. eapply grows_cached; [done|].
           destruct Hg1 as (_ & _ & _ & _ & Hd & _). apply Hd. right. by left.
Qed.

(** The first steps of a visit: the group is cached, its members are
    stored and appended to the parent's. *)
Lemma visit_enters group parentGroup w gid ms :
  idOf group = Ret gid → wGroups w !! gid = None → parentCached parentGroup w →
  ∃ w2,
    match parentGroup with
    | None =>
        Ret (setMembers (<[gid := ms]> (wMembers w))
               (mkWalk (<[gid := group]> (wGroups w)) (wMembers w)
                  (wTrace w ++ [MemberFetch gid])))
    | Some parent =>
        pid ← idOf parent;
        Ret (setMembers
               (<[pid := default [] (<[gid := ms]> (wMembers w) !! pid) ++ ms]>
                  (<[gid := ms]> (wMembers w)))
               (setMembers (<[gid := ms]> (wMembers w))
                  (mkWalk (<[gid := group]> (wGroups w)) (wMembers w)
                     (wTrace w ++ [MemberFetch gid]))))
    end = Ret w2 ∧
    wGroups w2 = <[gid := group]> (wGroups w) ∧
    wTrace w2 = wTrace w ++ [MemberFetch gid] ∧
    wMembers w2 !! gid = Some ms ∧
    ∀ i l, is_Some (wGroups w !! i) → wMembers w !! i = Some l →
           ∃ rest, wMembers w2 !! i = Some (l ++ rest).
Proof.
  intros Hid Hfresh Hparent. destruct parentGroup as [parent|].
  - destruct (Hparent parent eq_refl) as (pid & Hpid & Hc). rewrite Hpid. simpl.
    assert (pid ≠ gid) as Hne by (intros ->; rewrite Hfresh in Hc; by destruct Hc).
    eexists. split; [done|]. simpl. split; [done|]. split; [done|]. split.
    + by rewrite lookup_insert_ne, lookup_insert_eq.
    + intros i l Hi Hl. assert (i ≠ gid) as Hig.
      { intros ->. rewrite Hfresh in Hi. by destruct Hi. }
      destruct (decide (i = pid)) as [->|Hip].
      * rewrite lookup_insert_eq, lookup_insert_ne, Hl by done. by exists ms.
      * rewrite !lookup_insert_ne, Hl by done. exists []. by rewrite app_nil_r.
  - eexists. split; [done|]. simpl. split; [done|]. split; [done|]. split.
    + by rewrite lookup_insert_eq.
    + intros i l Hi Hl. assert (i ≠ gid) as Hig.
      { intros ->. rewrite Hfresh in Hi. by destruct Hi. }
      rewrite lookup_insert_ne, Hl by done. exists []. by rewrite app_nil_r.
Qed.

Lemma grows_enter w w2 group gid :
  wGroups w !! gid = None →
  wGroups w2 = <[gid := group]> (wGroups w) →
  wTrace w2 = wTrace w ++ [MemberFetch gid] →
  (∀ i l, is_Some (wGroups w !! i) → wMembers w !! i = Some l →
          ∃ rest, wMembers w2 !! i = Some (l ++ rest)) →
  grows w w2 [gid].
Proof.
  intros Hfresh HG HT HM. repeat split; try done.
  - apply NoDup_singleton.
  - by intros i ->%list_elem_of_singleton.
  - intros i p Hp. rewrite HG, lookup_insert_ne; [done|]. congruence.
  - rewrite HG. destruct (decide (i = gid)) as [->|Hne].
    + intros _. right. by apply list_elem_of_singleton.
    + rewrite lookup_insert_ne by done. by left.
  - rewrite HG. intros [Hi| ->%list_elem_of_singleton].
    + rewrite lookup_insert_ne; [done|]. intros <-. rewrite Hfresh in Hi. by destruct Hi.
    + by rewrite lookup_insert_eq.
Qed.

(** Every visit returns: the groups left to visit bound the depth of
    the recursion. *)
Lemma visits_within_any n : closed heap → visitsWithin c tok realm heap scope groups n.
Proof.
  intros Hclosed. induction n as [|n IH];
    intros group parentGroup w gid Hsize Hid Hfresh Hreach Hparent.
  { assert (group ∈ unvisited w) as Hin by (apply elem_of_unvisited; by exists gid).
    assert (unvisited w ≡ ∅) as Hempty by (apply size_empty_inv; lia).
    by apply Hempty in Hin. }
  pose proof Hid as (node & Hnode & Hnid)%idOf_Ret.
  destruct (fetch gid) as [ms|err] eqn:Hf.
  - destruct (visit_enters group parentGroup w gid ms Hid Hfresh Hparent)
      as (w2 & Hstep & HG & HT & HMg & HM).
    pose proof (grows_enter w w2 group gid Hfresh HG HT HM) as Hg2.
    assert (wGroups w2 !! gid = Some group) as Hcached by (by rewrite HG, lookup_insert_eq).
    destruct (decide (SubSyncScope = scope)) as [Hscope|Hscope].
    + destruct (visitUnseen_within n (Some group) Hclosed IH (nodeSubGroups node) w2)
        as (w' & ids & Hrun & Hg & Hp & Hall).
      * assert (size (unvisited w2) < size (unvisited w)); [|lia].
        apply (unvisited_visit w w2 group gid); [|done|done|by rewrite Hcached].
        intros j. by apply grows_cached with (ids := [gid]).
      * intros s Hs. split; [by eapply reachable_sub|].
        by apply (Hclosed group node Hnode).
      * intros parent [= <-]. exists gid. split; [done|]. by rewrite Hcached.
      * exists None, w', ids. split; [|split].
        -- intros [|fuel] Hfuel; [lia|]. simpl. rewrite Hnode. simpl. rewrite Hnid. simpl.
           unfold Keycloak.fetch in Hf. rewrite Hf. rewrite Hstep. simpl.
           rewrite decide_True by done. rewrite Hrun by lia. done.
        -- by apply (walk_grows_trans w w2 w' [gid] ids).
        -- intros i [->|Hi]%elem_of_cons; [|by apply Hp].
           pose proof Hg as (_ & _ & _ & Hk & _ & Hm).
           exists group, node. repeat split; try done.
           ++ by apply Hk.
           ++ intros ms' Hms'. rewrite Hf in Hms'. injection Hms' as <-.
              apply (Hm gid ms); [by rewrite Hcached|done].
    + exists None, w2, []. split; [|split].
      * intros [|fuel] Hfuel; [lia|]. simpl. rewrite Hnode. simpl. rewrite Hnid. simpl.
        unfold Keycloak.fetch in Hf. rewrite Hf. rewrite Hstep. simpl.
        by rewrite decide_False.
      * done.
      * intros i ->%list_elem_of_singleton. exists group, node. repeat split; try done.
        intros ms' Hms'. rewrite Hf in Hms'. injection Hms' as <-.
        exists []. by rewrite app_nil_r.
  - exists (Some err), (mkWalk (<[gid := group]> (wGroups w)) (wMembers w)
                          (wTrace w ++ [MemberFetch gid])), [].
    split; [|split].
    + intros [|fuel] Hfuel; [lia|]. simpl. rewrite Hnode. simpl. rewrite Hnid. simpl.
      unfold Keycloak.fetch in Hf. by rewrite Hf.
    + apply (grows_enter w _ group gid); try done.
      intros i l _ Hl. exists []. by rewrite app_nil_r.
    + intros i ->%list_elem_of_singleton. exists group, node. simpl.
      repeat split; try done.
      * by rewrite lookup_insert_eq.
      * intros ms Hms. congruence.
      * intros _ [ms Hms]. congruence.
Qed.

(** The run on two groups that are each other's sub-group. *)
Lemma cyclic_walk k pa pb a b nA nB w w' :
  heap !! pa = Some (mkNode (Some a) nA [pb]) →
  heap !! pb = Some (mkNode (Some b) nB [pa]) →
  a ≠ b → SubSyncScope = scope → wGroups w = ∅ → (∃ ms, fetch a = Ok ms) →
  processTopLevel c tok realm heap (S (S k)) scope [pa] w = Some (Ret w') →
  wTrace w' = wTrace w ++ [MemberFetch a; MemberFetch b] ∧
  wGroups w' = {[a := pa; b := pb]}.
Proof.
  intros Hpa Hpb Hab Hscope Hempty [ms Hms]. unfold Keycloak.fetch in Hms.
  assert (idOf pa = Ret a) as Ha by (apply idOf_Ret; eauto).
  assert (idOf pb = Ret b) as Hb by (apply idOf_Ret; eauto).
  assert (<[b:=pb]> (<[a:=pa]> (∅ : gmap string GroupRef)) = {[a := pa; b := pb]}) as Hmap.
  { by rewrite insert_insert_ne. }
  unfold processTopLevel, visitUnseen. rewrite Ha. simpl.
  rewrite Hpa, Hempty, lookup_empty. simpl. rewrite Hms. simpl.
  rewrite decide_True by done. rewrite Hb. simpl.
  rewrite lookup_insert_ne, lookup_empty by done. simpl. rewrite Hpb. simpl.
  destruct (GetGroupMembers c (AccessToken tok) realm b) as [msb|err]; simpl.
  - rewrite ?Ha. simpl. rewrite decide_True by done. rewrite ?Ha. simpl.
    rewrite lookup_insert_ne, lookup_insert_eq by done. simpl.
    intros [= <-]. simpl. split; [by rewrite <- app_assoc|done].
  - intros [= <-]. simpl. split; [by rewrite <- app_assoc|done].
Qed.

(** C6: for every set of top-level groups in memory, whatever pointers
    lead back from a sub-group to a group above it, the walk returns on
    any fuel above the number of groups, with one result.  It asks for
    the members of pairwise distinct identifiers, those the cache did
    not hold and holds afterwards; the cache keeps what it held and
    gains one entry for each of them.  Each of them is processed: it is
    cached with a group reachable from the top-level set, the members
    listed for it come first in its member list, and with sub-groups
    in scope the sub-groups of a group whose listing succeeded are
    cached in turn; every top-level group is cached.  So when an
    identifier names one group, sub-groups are in scope, the cache was
    empty and the listings succeed, every reachable group is processed,
    once.  On A→B→A the walk asks for A and then B, and the cache holds
    A and B, one entry each. *)
Theorem walk_visits_each_group_once w :
  closed heap → (∀ g, g ∈ groups → is_Some (heap !! g)) →
  ∃ w' ids,
    (∀ fuel, size heap < fuel →
       processTopLevel c tok realm heap fuel scope groups w = Some (Ret w')) ∧
    wTrace w' = wTrace w ++ map MemberFetch ids ∧
    NoDup ids ∧
    (∀ i, i ∈ ids ↔ wGroups w !! i = None ∧ is_Some (wGroups w' !! i)) ∧
    (∀ i p, wGroups w !! i = Some p → wGroups w' !! i = Some p) ∧
    size (wGroups w') = size (wGroups w) + length ids ∧
    (∀ i, i ∈ ids → processed w' i) ∧
    (∀ g, g ∈ groups → ∃ i, idOf g = Ret i ∧ is_Some (wGroups w' !! i)) ∧
    (distinctIDs heap → SubSyncScope = scope → wGroups w = ∅ →
     (∀ i, i ∈ ids → ∃ ms, fetch i = Ok ms) →
     ∀ p, reachable p → ∃ i, idOf p = Ret i ∧ i ∈ ids) ∧
    (∀ pa pb a b nA nB,
       groups = [pa] →
       heap !! pa = Some (mkNode (Some a) nA [pb]) →
       heap !! pb = Some (mkNode (Some b) nB [pa]) →
       a ≠ b → SubSyncScope = scope → wGroups w = ∅ → (∃ ms, fetch a = Ok ms) →
       ids = [a; b] ∧ wGroups w' = {[a := pa; b := pb]}).
Proof.
  intros Hclosed Htop.
  destruct (visitUnseen_within (size heap) None Hclosed
              (visits_within_any (size heap) Hclosed) groups w)
    as (w' & ids & Hrun & Hg & Hp & Hall).
  { apply unvisited_size. }
  { intros g Hg. split; [by apply reachable_top|by apply Htop]. }
  { by intros parent. }
  pose proof Hg as (Ht & Hn & Hf & Hk & Hd & _).
  assert (Hids : ∀ i, i ∈ ids ↔ wGroups w !! i = None ∧ is_Some (wGroups w' !! i)).
  { intros i. split.
    - intros Hi. split; [by apply Hf|]. apply Hd. by right.
    - intros [Hnone [Hi|Hi]%Hd]; [|done]. rewrite Hnone in Hi. by destruct Hi. }
  exists w', ids. split; [exact Hrun|]. split; [exact Ht|]. split; [exact Hn|].
  split; [exact Hids|]. split; [exact Hk|]. split; [|split; [exact Hp|split; [exact Hall|split]]].
  - assert (dom (wGroups w') ≡@{gset string} dom (wGroups w) ∪ list_to_set ids) as Hdom.
    { intros i. rewrite elem_of_union, !elem_of_dom, elem_of_list_to_set. apply Hd. }
    rewrite <- !(size_dom (D := gset string)), Hdom, size_union, size_list_to_set; [done..|].
    intros i Hi1%elem_of_dom Hi2%elem_of_list_to_set.
    rewrite (Hf i Hi2) in Hi1. by destruct Hi1.
  - intros Hdistinct Hscope Hempty Hok p Hreach.
    induction Hreach as [p Hin|p node s Hreach IH Hnode Hs].
    + destruct (Hall p Hin) as (i & Hi & Hc). exists i. split; [done|].
      apply Hids. split; [by rewrite Hempty, lookup_empty|done].
    + destruct IH as (i & Hi & Hin).
      destruct (Hp i Hin) as (q & node' & Hq & _ & Hnode' & Hid' & _ & Hsub).
      assert (q = p) as ->.
      { apply (Hdistinct q p i); [|done]. apply idOf_Ret. by exists node'. }
      assert (node' = node) as -> by congruence.
      destruct (Hsub Hscope (Hok i Hin) s Hs) as (j & Hj & Hc).
      exists j. split; [done|]. apply Hids. split; [by rewrite Hempty, lookup_empty|done].
  - intros pa pb a b nA nB -> Hpa Hpb Hab Hscope Hempty Hms.
    specialize (Hrun (S (S (size heap))) ltac:(lia)).
    destruct (cyclic_walk _ pa pb a b nA nB w w' Hpa Hpb Hab Hscope Hempty Hms Hrun)
      as [Htrace Hcache].
    split; [|done]. rewrite Ht in Htrace. apply app_inv_head in Htrace.
    change [MemberFetch a; MemberFetch b] with (map MemberFetch [a; b]) in Htrace.
    revert Htrace. generalize [a; b]. clear.
    induction ids as [|i ids IH]; intros [|j l]; simpl; try done.
    intros [= -> H]. f_equal. by apply IH.
Qed.

End PointerWalk.
Lemma walk_visits_each_group_once_witness :
  ∃ w' ids,
    (∀ fuel, 2 < fuel →
       processTopLevel Samples.loopDir Samples.token "realm" Samples.cycleHeap fuel
         SubSyncScope [1%positive] (mkWalk ∅ ∅ []) = Some (Ret w')) ∧
    ids = ["a"; "b"] ∧
    wTrace w' = map MemberFetch ids ∧
    wGroups w' = {[ "a" := 1%positive; "b" := 2%positive ]} ∧
    size (wGroups w') = 2 ∧
    wMembers w' = {[ "a" := [Samples.user "alice"; Samples.user "bob"];
                     "b" := [Samples.user "bob"] ]}.
Proof.
  destruct (walk_visits_each_group_once Samples.loopDir Samples.token "realm"
              Samples.cycleHeap SubSyncScope [1%positive] (mkWalk ∅ ∅ []))
    as (w' & ids & Hrun & Htrace & _ & _ & _ & Hsize & _ & _ & _ & Hcycle).
  { intros p node Hp. unfold Samples.cycleHeap in Hp.
    apply lookup_insert_Some in Hp as [[<- <-]|[_ Hp]].
    - split; [by eexists|]. intros s ->%list_elem_of_singleton. by eexists.
    - apply lookup_singleton_Some in Hp as [<- <-].
      split; [by eexists|]. intros s ->%list_elem_of_singleton. by eexists. }
  { intros g ->%list_elem_of_singleton. by eexists. }
  destruct (Hcycle 1%positive 2%positive "a" "b" (Some "A") (Some "B")) as [Hids Hcache];
    [reflexivity|reflexivity|reflexivity|discriminate|reflexivity|reflexivity| |].
  { exists [Samples.user "alice"]. reflexivity. }
  exists w', ids.
  split; [|split; [exact Hids|split; [exact Htrace|split; [exact Hcache|split]]]].
  - intros fuel Hfuel. apply Hrun. exact Hfuel.
  - rewrite Hsize, Hids. reflexivity.
  - pose proof (Hrun 3 (le_n 3)) as Hthree. simpl in Hthree.
    injection Hthree as <-. reflexivity.
Defined.

(** ** On a heap that holds a tree, the walk is the walk over the tree *)
Section OnTrees.
Variables (c : GoCloak) (tok : JWT) (realm : string) (heap : Heap).
#[local] Abbreviation idOf := (idOf heap).

Lemma holds_idOf p g : holds heap p g → idOf p = deref (ID g).
Proof. intros [q node subs Hq _]. unfold Pointers.idOf. by rewrite Hq. Qed.

Lemma mirrors_enter pw w gid p g :
  mirrors pw w →
  mirrors (mkWalk (<[gid := p]> (wGroups pw)) (wMembers pw) (wTrace pw ++ [MemberFetch gid]))
          (Keycloak.mkWalk (<[gid := g]> (Keycloak.wGroups w)) (Keycloak.wMembers w)
             (Keycloak.wTrace w ++ [MemberFetch gid])).
Proof.
  intros (Hd & Hm & Ht). split; [|split]; simpl; [|done|by rewrite Ht].
  intros i. destruct (decide (i = gid)) as [->|Hne].
  - by rewrite !lookup_insert_eq.
  - rewrite !lookup_insert_ne by done. apply Hd.
Qed.

Lemma visitUnseen_on_trees fuel scope parentRef parentGroup refs subGroups :
  Forall2 (holds heap) refs subGroups →
  Forall (λ g, ∀ p parentRef parentGroup pw w r,
            holds heap p g → mirrors pw w → sameParent heap parentRef parentGroup →
            processGroupsAndMembers c tok realm heap fuel p parentRef scope pw = Some r →
            agrees (λ '(e, pw') '(e', w'), e = e' ∧ mirrors pw' w') r
              (Keycloak.processGroupsAndMembers c tok realm g parentGroup scope w))
         subGroups →
  sameParent heap parentRef parentGroup →
  ∀ pw w r,
    mirrors pw w →
    visitUnseen heap (λ s w, processGroupsAndMembers c tok realm heap fuel s parentRef scope w)
      refs pw = Some r →
    agrees mirrors r
      (Keycloak.visitUnseen
         (λ g, Keycloak.processGroupsAndMembers c tok realm g parentGroup scope)
         subGroups w).
Proof.
  intros Hholds. induction Hholds as [|s g refs subGroups Hs _ IH];
    intros Hall Hparent pw w r Hm; simpl.
  - by intros [= <-].
  - apply Forall_cons in Hall as [Hg Hall]. rewrite (holds_idOf s g Hs).
    destruct (ID g) as [sid|]; simpl; [|by intros [= <-]].
    pose proof Hm as (Hd & _).
    destruct (wGroups pw !! sid) as [q|] eqn:Hq;
      destruct (Keycloak.wGroups w !! sid) as [g'|] eqn:Hg'.
    + by apply IH.
    + destruct (proj1 (Hd sid)) as [? ?]; [by rewrite Hq|congruence].
    + destruct (proj2 (Hd sid)) as [? ?]; [by rewrite Hg'|congruence].
    + destruct (processGroupsAndMembers c tok realm heap fuel s parentRef scope pw)
        as [r1|] eqn:Hrun; [|done].
      specialize (Hg s parentRef parentGroup pw w r1 Hs Hm Hparent Hrun).
      destruct r1 as [[e pw1]|];
        destruct (Keycloak.processGroupsAndMembers c tok realm g parentGroup scope w)
          as [[e' w1]|]; simpl in *; try done.
      * destruct Hg as [_ Hm1]. by apply IH.
      * by intros [= <-].
Qed.

Lemma visit_on_trees fuel scope g :
  ∀ p parentRef parentGroup pw w r,
    holds heap p g → mirrors pw w → sameParent heap parentRef parentGroup →
    processGroupsAndMembers c tok realm heap fuel p parentRef scope pw = Some r →
    agrees (λ '(e, pw') '(e', w'), e = e' ∧ mirrors pw' w') r
      (Keycloak.processGroupsAndMembers c tok realm g parentGroup scope w).
Proof.
  revert g. induction fuel as [|fuel IHfuel]; [done|].
  intros [i n subGroups] p parentRef parentGroup pw w r Hholds Hm Hparent.
  inversion Hholds as [q node subs Hq Hsubs Heq1 [Hi Hn Heq2]]. subst.
  rewrite KeycloakFacts.processGroupsAndMembers_eq. simpl. rewrite Hq. simpl.
  destruct (nodeID node) as [gid|]; simpl; [|by intros [= <-]].
  pose proof Hm as (_ & Hmem & _).
  pose proof (mirrors_enter pw w gid p
                (mkGroup (Some gid) (nodeName node) subGroups) Hm) as Hm0.
  destruct (GetGroupMembers c (AccessToken tok) realm gid) as [ms|err]; simpl.
  2:{ by intros [= <-]. }
  set (pw1 := setMembers _ _). set (w1 := Keycloak.setMembers _ _).
  assert (mirrors pw1 w1) as Hm1.
  { destruct Hm0 as (Hd0 & _ & Ht0). split; [exact Hd0|split; [|exact Ht0]].
    simpl. by rewrite Hmem. }
  assert (Htail : ∀ pw2 w2, mirrors pw2 w2 →
    (if decide (SubSyncScope = scope)
     then andThen
            (visitUnseen heap
               (λ subGroup w0,
                  processGroupsAndMembers c tok realm heap fuel subGroup (Some p) scope w0)
               (nodeSubGroups node) pw2)
            (λ w0, Some (Ret (None, w0)))
     else Some (Ret (None, pw2))) = Some r →
    agrees (λ '(e, pw') '(e', w'), e = e' ∧ mirrors pw' w') r
      (if decide (SubSyncScope = scope)
       then w3 ← processSubGroups c tok realm
                   (mkGroup (Some gid) (nodeName node) subGroups) scope subGroups w2;
            Ret (None, w3)
       else Ret (None, w2))).
  { intros pw2 w2 Hm2.
    destruct (decide (SubSyncScope = scope)) as [Hscope|Hscope]; [|by intros [= <-]].
    rewrite KeycloakFacts.processSubGroups_visitUnseen.
    destruct (visitUnseen heap _ (nodeSubGroups node) pw2) as [r1|] eqn:Hloop; [|done].
    eapply (visitUnseen_on_trees fuel scope (Some p)
              (Some (mkGroup (Some gid) (nodeName node) subGroups))) in Hloop;
      [|exact Hsubs| |exact (holds_idOf p _ Hholds)|exact Hm2].
    2:{ apply Forall_forall. intros g _. apply IHfuel. }
    destruct r1 as [pw3|];
      destruct (Keycloak.visitUnseen _ subGroups w2) as [w3|]; simpl in *; try done;
      by intros [= <-]. }
  destruct parentRef as [pp|], parentGroup as [pg|]; simpl in Hparent; try done.
  - rewrite Hparent. destruct (ID pg) as [pid|]; simpl; [|by intros [= <-]].
    apply Htail. destruct Hm1 as (Hd1 & Hmem1 & Ht1).
    split; [exact Hd1|split; [|exact Ht1]]. simpl. by rewrite Hmem.
  - simpl. by apply Htail.
Qed.

(** On a heap that holds the listed trees, a run of the walk that has
    a result has the result of the walk over the trees: the same
    requests, the same members, the same identifiers cached. *)
Lemma walk_on_trees fuel scope refs groups pw w r :
  Forall2 (holds heap) refs groups → mirrors pw w →
  processTopLevel c tok realm heap fuel scope refs pw = Some r →
  agrees mirrors r (Keycloak.processTopLevel c tok realm scope groups w).
Proof.
  intros Hholds Hm Hrun. rewrite KeycloakFacts.processTopLevel_visitUnseen.
  eapply (visitUnseen_on_trees fuel scope None None); [exact Hholds| |done|exact Hm|exact Hrun].
  apply Forall_forall. intros g _. apply visit_on_trees.
Qed.
End OnTrees.

End PointerFacts.

(** * Properties of the Azure syncer *)
Module AzureFacts.
Import Azure.

Lemma isUsernamePresent_ok user field s ok :
  isUsernamePresent user field = Ret (s, ok) → ok = true.
Proof.
  unfold isUsernamePresent, assertStringPtr.
  destruct (AdditionalData user !! field) as [[[v|]|]|]; simpl; try done.
  by intros [= _ <-].
Qed.

Lemma isUsernamePresent_missing user field :
  AdditionalData user !! field = None → isUsernamePresent user field = Panic.
Proof. unfold isUsernamePresent. by intros ->. Qed.

Lemma getUsernameForUser_not_found p user s :
  getUsernameForUser p user = Ret (s, false) → UserNameAttributes p = Some [].
Proof.
  unfold getUsernameForUser. destruct (UserNameAttributes p) as [[|attribute rest]|].
  - done.
  - simpl. destruct (isUsernamePresent user attribute) as [[s' ok]|] eqn:E; [|done].
    apply isUsernamePresent_ok in E as ->. done.
  - by intros ?%isUsernamePresent_ok.
Qed.

Lemma getUsernameForUser_missing p user field :
  requestedAttribute p = Some field →
  AdditionalData user !! field = None →
  getUsernameForUser p user = Panic.
Proof.
  unfold requestedAttribute, getUsernameForUser.
  destruct (UserNameAttributes p) as [[|attribute rest]|]; simpl; try done.
  - intros [= ->] Hm. by rewrite (isUsernamePresent_missing _ _ Hm).
  - intros [= <-] Hm. by apply isUsernamePresent_missing.
Qed.

Lemma collectUsernames_silent p gid members acc tr r tr' :
  UserNameAttributes p ≠ Some [] →
  collectUsernames p gid members acc tr = Ret (r, tr') → tr' = tr.
Proof.
  intros Hattrs. revert acc tr. induction members as [|m members IH]; intros acc tr; simpl.
  - by intros [= _ <-].
  - destruct (assertStringPtr (AdditionalData m !! GraphOdataType)) as [[ty|] ok]; [|done].
    simpl. case_decide; [|apply IH].
    destruct (getUsernameForUser p m) as [[s [|]]|] eqn:E; simpl; [apply IH| |done].
    by apply getUsernameForUser_not_found in E.
Qed.

Lemma collectUsernames_missing p gid members acc tr m field :
  requestedAttribute p = Some field →
  m ∈ members →
  AdditionalData m !! GraphOdataType = Some (StringPtr (Some GraphUserType)) →
  AdditionalData m !! field = None →
  collectUsernames p gid members acc tr = Panic.
Proof.
  intros Hreq Hin Hty Hmiss. revert acc tr.
  induction members as [|m' members IH]; intros acc tr; [by apply elem_of_nil in Hin|].
  simpl. apply elem_of_cons in Hin as [<-|Hin].
  - rewrite Hty. simpl.
    by rewrite (getUsernameForUser_missing _ _ _ Hreq Hmiss).
  - destruct (assertStringPtr (AdditionalData m' !! GraphOdataType)) as [[ty|] ok]; [|done].
    simpl. case_decide; [|by apply IH].
    destruct (getUsernameForUser p m') as [[s [|]]|]; simpl; [by apply IH|by apply IH|done].
Qed.

(** C10: when a user-typed member lacks the attribute that
    [getUsernameForUser] asks for first, [isUsernamePresent] dereferences
    the nil pointer of the failed assertion: it panics, and so does
    [listGroupMembers]; and no run of the member loop that returns has
    logged the "username cannot be found" warning. *)
Theorem missing_username_attribute_panics client p gid members tr m field :
  requestedAttribute p = Some field →
  TransitiveMembersGet client gid = Ok members →
  m ∈ members →
  AdditionalData m !! GraphOdataType = Some (StringPtr (Some GraphUserType)) →
  AdditionalData m !! field = None →
  isUsernamePresent m field = Panic ∧
  listGroupMembers client p (Some gid) tr = Panic ∧
  (∀ others acc tr0 r tr1,
     collectUsernames p gid others acc tr0 = Ret (r, tr1) →
     LogInfo (usernameWarning gid) ∈ tr1 → LogInfo (usernameWarning gid) ∈ tr0).
Proof.
  intros Hreq Hget Hin Hty Hmiss. split; [by apply isUsernamePresent_missing|]. split.
  - unfold listGroupMembers. simpl. rewrite Hget.
    by rewrite (collectUsernames_missing _ _ _ _ _ _ _ Hreq Hin Hty Hmiss).
  - intros others acc tr0 r tr1 Hrun. 
    rewrite (collectUsernames_silent p gid others acc tr0 r tr1); [done| |done].
    intros Hnil. unfold requestedAttribute in Hreq. by rewrite Hnil in Hreq.
Qed.

Lemma appended_appended {A} tr1 tr2 (r : exec (A * list Event)) :
  appended tr1 (appended tr2 r) = appended (tr1 ++ tr2) r.
Proof. destruct r as [[a more]|]; [|done]. simpl. by rewrite app_assoc. Qed.

Lemma returned_appended {A} tr (r : exec (A * list Event)) :
  returned (appended tr r) = returned r.
Proof. by destruct r as [[a more]|]. Qed.

Lemma collectUsernames_appends p gid members acc tr :
  collectUsernames p gid members acc tr =
  appended tr (collectUsernames p gid members acc []).
Proof.
  revert acc tr. induction members as [|m members IH]; intros acc tr; simpl.
  - by rewrite app_nil_r.
  - destruct (assertStringPtr (AdditionalData m !! GraphOdataType)) as [[ty|] ok]; [|done].
    simpl. case_decide; [|apply IH].
    destruct (getUsernameForUser p m) as [[s [|]]|]; simpl; [apply IH| |done].
    rewrite (IH acc (tr ++ _)), (IH acc [_]), appended_appended. done.
Qed.

Lemma listGroupMembers_appends client p groupID tr :
  listGroupMembers client p groupID tr =
  appended tr (listGroupMembers client p groupID []).
Proof.
  unfold listGroupMembers. destruct groupID as [gid|]; [|done]. simpl.
  destruct (TransitiveMembersGet client gid) as [members|err]; [|done].
  rewrite (collectUsernames_appends _ _ _ _ (tr ++ _)).
  rewrite (collectUsernames_appends _ _ _ _ [_]).
  destruct (collectUsernames p gid members [] []) as [[r more]|]; [|done].
  simpl. by rewrite <- app_assoc.
Qed.

Lemma emitGroups_appends client p url aad ocp tr :
  emitGroups client p url aad ocp tr =
  appended tr (emitGroups client p url aad ocp []).
Proof.
  revert ocp tr. induction aad as [|g aad IH]; intros ocp tr; simpl.
  - by rewrite app_nil_r.
  - destruct (DisplayName g) as [name|].
    + destruct (isGroupAllowed name (Groups p)); simpl; [|apply IH].
      destruct (GetId g) as [gid|]; [|done]. simpl.
      rewrite (listGroupMembers_appends _ _ _ tr).
      destruct (listGroupMembers client p (Some gid) []) as [[[ms|err] more]|]; simpl; [| |done].
      * rewrite (IH _ (tr ++ more)), (IH _ more), appended_appended. done.
      * by rewrite app_assoc.
    + rewrite (IH _ (tr ++ _)), (IH _ [_]), appended_appended. done.
Qed.

Lemma emitGroups_result client p url aad ocp tr tr2 :
  returned (emitGroups client p url aad ocp tr) =
  returned (emitGroups client p url aad ocp tr2).
Proof.
  rewrite (emitGroups_appends _ _ _ _ _ tr), (emitGroups_appends _ _ _ _ _ tr2).
  by rewrite !returned_appended.
Qed.

Lemma emitGroups_extends client p url aad ocp tr r tr' :
  emitGroups client p url aad ocp tr = Ret (r, tr') → ∃ more, tr' = tr ++ more.
Proof.
  rewrite emitGroups_appends.
  destruct (emitGroups client p url aad ocp []) as [[r' more]|]; [|done].
  simpl. intros [= _ <-]. eauto.
Qed.

(** Dropping the groups without a display name changes nothing in what
    the loop returns. *)
Lemma emitGroups_filter client p url aad ocp tr :
  returned (emitGroups client p url aad ocp tr) =
  returned (emitGroups client p url (filter named aad) ocp tr).
Proof.
  revert ocp tr. induction aad as [|g aad IH]; intros ocp tr; [done|].
  rewrite filter_cons. destruct (decide (named g)) as [[name Hn]|Hn]; simpl.
  - rewrite Hn. destruct (isGroupAllowed name (Groups p)); simpl; [|apply IH].
    destruct (GetId g) as [gid|]; [|done]. simpl.
    destruct (listGroupMembers client p (Some gid) tr) as [[[ms|err] tr1]|]; simpl; [|done|done].
    apply IH.
  - destruct (DisplayName g) eqn:E; [destruct Hn; by eexists|].
    rewrite <- IH. apply emitGroups_result.
Qed.

Lemma emitGroups_names client p url aad ocp tr out tr' :
  emitGroups client p url aad ocp tr = Ret (Ok out, tr') →
  ObjectName <$> out = (ObjectName <$> ocp) ++ expectedNames p aad.
Proof.
  revert ocp tr. induction aad as [|g aad IH]; intros ocp tr; simpl.
  - intros [= <- _]. by rewrite app_nil_r.
  - destruct (DisplayName g) as [name|]; simpl; [|apply IH].
    destruct (isGroupAllowed name (Groups p)); simpl; [|apply IH].
    destruct (GetId g) as [gid|]; [|done]. simpl.
    destruct (listGroupMembers client p (Some gid) tr) as [[[ms|err] tr1]|]; simpl; [|done|done].
    intros H%IH. rewrite H, fmap_app. simpl. by rewrite <- app_assoc.
Qed.

Lemma emitGroups_warns client p url aad ocp tr out tr' g :
  emitGroups client p url aad ocp tr = Ret (Ok out, tr') →
  g ∈ aad → DisplayName g = None → LogInfo skipWarning ∈ tr'.
Proof.
  revert ocp tr. induction aad as [|h aad IH]; intros ocp tr Hrun Hin Hg;
    [by apply elem_of_nil in Hin|].
  simpl in Hrun. apply elem_of_cons in Hin as [<-|Hin].
  - rewrite Hg in Hrun. apply emitGroups_extends in Hrun as [more ->].
    apply elem_of_app. left. apply elem_of_app. right. by apply list_elem_of_singleton.
  - destruct (DisplayName h) as [name|]; [|by eapply IH].
    destruct (isGroupAllowed name (Groups p)); simpl in Hrun; [|by eapply IH].
    destruct (GetId h) as [gid|]; [|done]. simpl in Hrun.
    destruct (listGroupMembers client p (Some gid) tr) as [[[ms|err] tr1]|];
      simpl in Hrun; [|done|done].
    by eapply IH.
Qed.

Section SyncFacts.
Context (net : NetURL).

Lemma Sync_collected a client tr aad tr1 url :
  Client a = Some client →
  collectGroups client (Provider a) tr = Ret (Ok aad, tr1) →
  url_Parse net (getAuthorityHost (AuthorityHost (Provider a))) = Ok url →
  Sync net a tr = emitGroups client (Provider a) url aad [] tr1.
Proof. intros Hc Hg Hu. unfold Sync. rewrite Hc. simpl. rewrite Hg. simpl. by rewrite Hu. Qed.

Lemma Sync_names a client tr aad tr1 out tr' :
  Client a = Some client →
  collectGroups client (Provider a) tr = Ret (Ok aad, tr1) →
  Sync net a tr = Ret (Ok out, tr') →
  ObjectName <$> out = expectedNames (Provider a) aad.
Proof.
  intros Hc Hg. unfold Sync. rewrite Hc. simpl. rewrite Hg. simpl.
  destruct (url_Parse net _) as [url|]; [|done].
  intros H%emitGroups_names. done.
Qed.

(** The sibling of the Keycloak walk: a failed member listing ends
    [Sync] with that error and no groups. *)
Lemma emitGroups_member_fetch_error client p url g rest ocp tr name gid err :
  DisplayName g = Some name → isGroupAllowed name (Groups p) = true →
  GetId g = Some gid → TransitiveMembersGet client gid = Err err →
  returned (emitGroups client p url (g :: rest) ocp tr) = Ret (Err err).
Proof.
  intros Hn Ha Hid Hf. simpl. rewrite Hn, Ha, Hid. simpl.
  unfold listGroupMembers. simpl. by rewrite Hf.
Qed.

(** C4, amended: in the Azure syncer a collected group whose display
    name is absent (nil) is skipped: what [Sync] returns is what it
    returns without these groups, each one met on a successful run
    leaves the skip warning in the log, and the run emits exactly the
    groups with a present and allowed name.  A name that is present
    but empty is a name like any other. *)
Theorem absent_display_name_is_skipped a client tr aad tr1 url :
  Client a = Some client →
  collectGroups client (Provider a) tr = Ret (Ok aad, tr1) →
  url_Parse net (getAuthorityHost (AuthorityHost (Provider a))) = Ok url →
  returned (Sync net a tr) =
    returned (emitGroups client (Provider a) url (filter named aad) [] tr1) ∧
  ∀ out tr', Sync net a tr = Ret (Ok out, tr') →
    ObjectName <$> out = expectedNames (Provider a) aad ∧
    ∀ g, g ∈ aad → DisplayName g = None → LogInfo skipWarning ∈ tr'.
Proof.
  intros Hc Hg Hu. rewrite (Sync_collected _ _ _ _ _ _ Hc Hg Hu). split.
  - apply emitGroups_filter.
  - intros out tr' Hrun. split.
    + by apply emitGroups_names in Hrun.
    + intros g Hin Hnil. by eapply emitGroups_warns.
Qed.
End SyncFacts.

Section OnSamples.
Import Samples.

Lemma absent_display_name_is_skipped_witness :
  returned (Sync plainURL (azureSyncerOf flatClient [] []) []) =
    returned (emitGroups flatClient (Provider (azureSyncerOf flatClient [] []))
                (mkURL AzurePublicCloud)
                [azureGroup "g1" (Some ""); azureGroup "g3" (Some "eng")] [] []) ∧
  ∀ out tr',
    Sync plainURL (azureSyncerOf flatClient [] []) [] = Ret (Ok out, tr') →
    ObjectName <$> out = [""; "eng"] ∧
    ∀ g, g ∈ flatGroups → DisplayName g = None → LogInfo skipWarning ∈ tr'.
Proof.
  apply (absent_display_name_is_skipped plainURL (azureSyncerOf flatClient [] [])
           flatClient [] flatGroups [] (mkURL AzurePublicCloud));
    reflexivity.
Defined.

Lemma missing_username_attribute_panics_witness :
  isUsernamePresent (anonymousObject "u1") GraphUserNameAttribute = Panic ∧
  listGroupMembers anonymousClient (Provider (azureSyncerOf anonymousClient [] []))
    (Some "g1") [] = Panic ∧
  Sync plainURL (azureSyncerOf anonymousClient [] []) [] = Panic.
Proof.
  destruct (missing_username_attribute_panics anonymousClient
              (Provider (azureSyncerOf anonymousClient [] [])) "g1"
              [anonymousObject "u1"] [] (anonymousObject "u1") GraphUserNameAttribute)
    as (H1 & H2 & _).
  - reflexivity.
  - reflexivity.
  - repeat constructor.
  - reflexivity.
  - reflexivity.
  - split; [exact H1|]. split; [exact H2|reflexivity].
Defined.
End OnSamples.

End AzureFacts.

(** * Properties that span both syncers *)
Module SyncerFacts.
Import Samples.

(** The only errors the Keycloak [Sync] can return are those of
    [GetGroups] and of [url.Parse]: none comes from a member listing. *)
Lemma keycloak_sync_error_sources net k tr err k' tr' :
  Keycloak.Sync net k tr = Ret (Err err, k', tr') →
  (∃ c tok, Keycloak.GoCloak_ k = Some c ∧ Keycloak.Token k = Some tok ∧
            Keycloak.GetGroups c (Keycloak.AccessToken tok)
              (Keycloak.Realm (Keycloak.Provider k)) = Err err) ∨
  url_Parse net (Keycloak.URL_ (Keycloak.Provider k)) = Err err.
Proof.
  unfold Keycloak.Sync.
  destruct (Keycloak.GoCloak_ k) as [c|]; [|done]. simpl.
  destruct (Keycloak.Token k) as [tok|]; [|done]. simpl.
  destruct (Keycloak.GetGroups c _ _) as [groups|e] eqn:Hgroups.
  2:{ intros [= <- _ _]. left. eauto. }
  destruct (Keycloak.processTopLevel _ _ _ _ _ _) as [w|]; [|done]. simpl.
  set (k1 := Keycloak.setCachedGroupMembers _ _).
  assert (∀ cached acc e,
            Keycloak.toOcpGroups net k1 cached acc = Ret (Err e) →
            url_Parse net (Keycloak.URL_ (Keycloak.Provider k)) = Err e) as Hloop.
  { induction cached as [|G cached IH]; intros acc e; simpl; [done|].
    unfold Keycloak.toOcpGroup at 1.
    destruct (Keycloak.Name G); [|done]. simpl.
    change (Keycloak.URL_ (Keycloak.Provider k1))
      with (Keycloak.URL_ (Keycloak.Provider k)).
    destruct (url_Parse net _) as [url|e']; simpl; [|by intros [= <-]].
    destruct (Keycloak.ID G); [|done]. simpl.
    destruct (Keycloak.usernames _); [|done]. simpl. apply IH. }
  destruct (Keycloak.toOcpGroups _ _ _ _) as [[out|e]|] eqn:E; simpl; [done| |done].
  intros [= <- _ _]. right. by eapply Hloop.
Qed.

(** With the user name in the secret and a well-formed URL, the
    Keycloak [Validate] finds nothing to report, with or without a
    password. *)
Lemma keycloak_validate_ignores_password net k found url :
  GetSecret (Keycloak.ReconcilerBase_ k) (Keycloak.SecretName (Keycloak.Provider k))
    (Namespace (Keycloak.GroupSync_ k)) = Ok found →
  url_ParseRequestURI net (Keycloak.URL_ (Keycloak.Provider k)) = Ok url →
  is_Some (Data found !! Keycloak.secretUsernameKey) →
  (Keycloak.Validate net k).1 = None.
Proof.
  intros Hget Hurl [v Hv]. unfold Keycloak.Validate. rewrite Hget, Hurl. simpl.
  by rewrite Hv.
Qed.

(** What a returned [Sync] of the Keycloak syncer emits: one record per
    cache entry, whatever its name. *)
Lemma keycloak_sync_emits_cache net k tr out k' tr' :
  Keycloak.Sync net k tr = Ret (Ok out, k', tr') →
  Forall2 (λ G og, Keycloak.toOcpGroup net k' G = Ret (Ok og))
          (map_to_list (Keycloak.CachedGroups k')).*2 out.
Proof.
  unfold Keycloak.Sync.
  destruct (Keycloak.GoCloak_ k) as [c|]; [|done]. simpl.
  destruct (Keycloak.Token k) as [tok|]; [|done]. simpl.
  destruct (Keycloak.GetGroups c _ _) as [groups|]; [|done].
  destruct (Keycloak.processTopLevel _ _ _ _ _ _) as [w|]; [|done]. simpl.
  destruct (Keycloak.toOcpGroups _ _ _ _) as [[out'|]|] eqn:E; [|done|done]. simpl.
  intros [= <- <- _].
  apply KeycloakFacts.toOcpGroups_inv in E as (new & -> & HF). done.
Qed.

(** C4 fails as stated: a group whose display name is the empty string
    is emitted by both syncers. *)
Lemma empty_display_name_is_emitted :
  Keycloak.Name blankGroup = Some "" ∧
  emittedNames
    (Keycloak.returned (Keycloak.Sync plainURL (syncerOf SubSyncScope blankDir) []))
    = Some [""] ∧
  Azure.DisplayName (azureGroup "g1" (Some "")) = Some "" ∧
  emittedNames (Azure.returned (Azure.Sync plainURL (azureSyncerOf flatClient [] []) []))
    = Some [""; "eng"].
Proof. repeat split; reflexivity. Qed.

(** C5, at the failing input: the secret has no password key, and
    [Validate] of the Keycloak syncer reports nothing. *)
Theorem validate_misses_absent_password :
  Data halfSecret !! Keycloak.secretPasswordKey = None ∧
  Keycloak.Validate plainURL halfSecretSyncer
    = (None, Keycloak.setSecret (Some halfSecret) halfSecretSyncer).
Proof. split; reflexivity. Qed.

(** C7 fails as stated: "ops" is reached through the expansion of the
    base group "base", the allow-list is ["eng"], and "ops" is filtered
    out like the base group itself. *)
Lemma allow_list_filters_base_group_members :
  (Azure.returned
     (Azure.collectGroups baseClient (Azure.Provider (azureSyncerOf baseClient ["base"] ["eng"])) []))
    = Ret (Ok [azureGroup "g0" (Some "base");
               Azure.mkGroup (groupObject "g1" "eng") (Some "eng");
               Azure.mkGroup (groupObject "g2" "ops") (Some "ops")]) ∧
  emittedNames
    (Azure.returned (Azure.Sync plainURL (azureSyncerOf baseClient ["base"] ["eng"]) []))
    = Some ["eng"].
Proof. split; reflexivity. Qed.

(** C7, amended: the allow-list is applied to every group the Azure
    syncer collects, whether listed at the top level or reached through
    a base group: a run emits exactly the present names that the
    allow-list accepts, all of them when the list is empty and only
    listed ones otherwise; the Keycloak syncer has no allow-list and
    emits every cached group. *)
Theorem allow_list_filters_every_collected_group
    net a client tr aad tr1 out tr' k ktr kout k' ktr' :
  Azure.Client a = Some client →
  Azure.collectGroups client (Azure.Provider a) tr = Ret (Ok aad, tr1) →
  Azure.Sync net a tr = Ret (Ok out, tr') →
  Keycloak.Sync net k ktr = Ret (Ok kout, k', ktr') →
  ObjectName <$> out = Azure.expectedNames (Azure.Provider a) aad ∧
  (∀ og, og ∈ out →
         Azure.isGroupAllowed (ObjectName og) (Azure.Groups (Azure.Provider a)) = true) ∧
  (Azure.Groups (Azure.Provider a) ≠ [] →
   ∀ og, og ∈ out → ObjectName og ∈ Azure.Groups (Azure.Provider a)) ∧
  (Azure.Groups (Azure.Provider a) = [] →
   ObjectName <$> out = omap Azure.DisplayName aad) ∧
  Forall2 (λ G og, Keycloak.Name G = Some (ObjectName og))
          (map_to_list (Keycloak.CachedGroups k')).*2 kout.
Proof.
  intros Hc Hg Hrun Hkrun.
  pose proof (AzureFacts.Sync_names net a client tr aad tr1 out tr' Hc Hg Hrun) as Hnames.
  assert (∀ og, og ∈ out →
            Azure.isGroupAllowed (ObjectName og) (Azure.Groups (Azure.Provider a)) = true)
    as Hallowed.
  { intros og Hog.
    assert (ObjectName og ∈ Azure.expectedNames (Azure.Provider a) aad) as Hin.
    { rewrite <- Hnames. apply list_elem_of_fmap. eauto. }
    apply list_elem_of_omap in Hin as (g & _ & Hn).
    destruct (Azure.DisplayName g) as [n|]; [|done]. simpl in Hn.
    destruct (Azure.isGroupAllowed n _) eqn:E; [|done]. by injection Hn as <-. }
  split; [done|]. split; [done|]. split; [|split].
  - intros Hne og Hog. specialize (Hallowed og Hog). unfold Azure.isGroupAllowed in Hallowed.
    destruct (Azure.Groups (Azure.Provider a)); [done|].
    by apply bool_decide_eq_true in Hallowed.
  - intros Hnil. rewrite Hnames. unfold Azure.expectedNames. rewrite Hnil.
    apply list_omap_ext, Forall2_same_length_lookup_2; [done|].
    intros i g g' Hg1 Hg2. assert (g' = g) as -> by congruence.
    by destruct (Azure.DisplayName g).
  - eapply Forall2_impl; [exact (keycloak_sync_emits_cache _ _ _ _ _ _ Hkrun)|].
    intros G og HG. simpl in HG.
    by apply KeycloakFacts.toOcpGroup_inv in HG as (gid & _ & ? & _).
Qed.

Lemma allow_list_filters_every_collected_group_witness :
  ObjectName <$> [canonicalGroup "eng" Azure.AzurePublicCloud "g1" ["alice@example.com"]]
    = ["eng"] ∧
  Forall2 (λ G og, Keycloak.Name G = Some (ObjectName og))
          (map_to_list (Keycloak.CachedGroups chainAfter)).*2 chainOut.
Proof.
  destruct (allow_list_filters_every_collected_group plainURL
              (azureSyncerOf baseClient ["base"] ["eng"]) baseClient []
              [azureGroup "g0" (Some "base");
               Azure.mkGroup (groupObject "g1" "eng") (Some "eng");
               Azure.mkGroup (groupObject "g2" "ops") (Some "ops")] []
              [canonicalGroup "eng" Azure.AzurePublicCloud "g1" ["alice@example.com"]]
              [MemberFetch "g1"]
              (syncerOf SubSyncScope chainDir) [] chainOut chainAfter
              [MemberFetch "a"; MemberFetch "b"; MemberFetch "c"])
    as (H1 & _ & _ & _ & H2);
    [reflexivity|reflexivity|reflexivity|reflexivity|].
  split; [reflexivity|exact H2].
Defined.

(** C8 fails as stated: [Validate] of the Keycloak syncer stores the
    secret it read in the syncer. *)
Lemma validate_stores_the_secret :
  Keycloak.Secret_ halfSecretSyncer = None ∧
  Keycloak.Secret_ (Keycloak.Validate plainURL halfSecretSyncer).2 = Some halfSecret.
Proof. split; reflexivity. Qed.

(** C8, amended: [Validate] changes no field of the syncer but the
    stored secret: the Keycloak syncer always stores the secret it read
    (the empty secret when reading failed), the Azure syncer stores it
    when reading succeeded. *)
Theorem validate_writes_only_the_secret net (k : Keycloak.KeycloakSyncer)
    (a : Azure.AzureSyncer) :
  (Keycloak.Validate net k).2 =
    Keycloak.setSecret
      (Some match GetSecret (Keycloak.ReconcilerBase_ k)
                    (Keycloak.SecretName (Keycloak.Provider k))
                    (Namespace (Keycloak.GroupSync_ k)) with
            | Ok found => found
            | Err _ => mkSecret ∅
            end) k ∧
  (Azure.Validate a).2 =
    match GetSecret (Azure.ReconcilerBase_ a)
            (Azure.RefName (Azure.CredentialsSecretRef (Azure.Provider a)))
            (Azure.RefNamespace (Azure.CredentialsSecretRef (Azure.Provider a))) with
    | Ok found => Azure.setCredentialsSecret (Some found) a
    | Err _ => a
    end.
Proof.
  split.
  - unfold Keycloak.Validate. by destruct (GetSecret _ _ _).
  - unfold Azure.Validate. by destruct (GetSecret _ _ _).
Qed.

(** C9 fails as stated: a second [Sync] of the Keycloak syncer starts
    from the cache the first one filled; it requests no member listing
    and returns the first run's members, even when the directory has
    since lost them. *)
Lemma second_sync_reuses_the_cache :
  Keycloak.Sync plainURL (syncerOf SubSyncScope chainDir) []
    = Ret (Ok chainOut, chainAfter, [MemberFetch "a"; MemberFetch "b"; MemberFetch "c"]) ∧
  Keycloak.CachedGroups chainAfter !! "a" = Some teamA ∧
  Keycloak.Sync plainURL chainAfter [] = Ret (Ok chainOut, chainAfter, []) ∧
  Keycloak.Sync plainURL (Keycloak.setGoCloak (Some desertedDir) chainAfter) []
    = Ret (Ok chainOut, Keycloak.setGoCloak (Some desertedDir) chainAfter, []).
Proof. repeat split; reflexivity. Qed.

(** C9, amended: the caches are re-created empty by [Bind] (Keycloak)
    and by [Init] (Azure), not by [Sync]: whatever an earlier run left
    in them, [Bind] behaves the same and returns with both caches
    empty, [Init] leaves both caches empty, and [Sync] of the Azure
    syncer does not read them. *)
Theorem caches_are_recreated_by_bind_and_init
    (NewClient : string → Keycloak.GoCloak) net k tr groupsLeft membersLeft
    a atr azureGroupsLeft azureUsersLeft :
  Keycloak.Bind NewClient
    (Keycloak.setCachedGroupMembers membersLeft (Keycloak.setCachedGroups groupsLeft k)) tr
    = Keycloak.Bind NewClient k tr ∧
  match Keycloak.Bind NewClient k tr with
  | Ret (_, k', _) => Keycloak.CachedGroups k' = ∅ ∧ Keycloak.CachedGroupMembers k' = ∅
  | Panic => True
  end ∧
  Azure.CachedGroups (Azure.Init a).2 = ∅ ∧
  Azure.CachedGroupUsers (Azure.Init a).2 = ∅ ∧
  Azure.Sync net
    (Azure.setCachedGroupUsers azureUsersLeft (Azure.setCachedGroups azureGroupsLeft a)) atr
    = Azure.Sync net a atr.
Proof.
  split; [done|]. split; [|done].
  unfold Keycloak.Bind. simpl. destruct (Keycloak.Secret_ k); [|done]. simpl.
  by destruct (Keycloak.LoginAdmin _ _ _ _).
Qed.

End SyncerFacts.

(** * Further properties of the Keycloak syncer *)
Module KeycloakMore.
Import Keycloak KeycloakFacts.

(** X1: [Init] reports a change exactly when the login realm or the
    scope was unset; afterwards neither is unset, nothing but these two
    settings has changed, and a second [Init] changes nothing. *)
Theorem init_fills_defaults_once (k : KeycloakSyncer) :
  ((Init k).1 = true ↔ LoginRealm (Provider k) = "" ∨ Scope (Provider k) = "") ∧
  LoginRealm (Provider (Init k).2) ≠ "" ∧
  Scope (Provider (Init k).2) ≠ "" ∧
  (LoginRealm (Provider k) ≠ "" → LoginRealm (Provider (Init k).2) = LoginRealm (Provider k)) ∧
  (Scope (Provider k) ≠ "" → Scope (Provider (Init k).2) = Scope (Provider k)) ∧
  (Init k).2 =
    setProvider (setScope (Scope (Provider (Init k).2))
                   (setLoginRealm (LoginRealm (Provider (Init k).2)) (Provider k))) k ∧
  Init (Init k).2 = (false, (Init k).2).
Proof.
  destruct k as [n gs [url lr r sc sn ins] gc t cg cm rb s]. unfold Init. simpl.
  destruct (decide (lr = "")) as [->|Hlr]; simpl;
    destruct (decide (sc = "")) as [->|Hsc]; simpl;
    repeat split; try done; try (intros _; by (left + right)); try (by intros [?|?]);
    try (rewrite decide_False by done; simpl); try (rewrite decide_False by done; simpl);
    done.
Qed.

Lemma bind_token_after_error (NewClient : string → GoCloak) k tr err k' tr' :
  Bind NewClient k tr = Ret (Some err, k', tr') →
  GoCloak_ k' = Some (NewClient (URL_ (Provider k))) ∧ Token k' = None.
Proof.
  unfold Bind. simpl. destruct (Secret_ k) as [secret|]; [|done]. simpl.
  destruct (LoginAdmin _ _ _ _) as [t|e]; [done|]. by intros [= _ <- _].
Qed.

(** X2: [Validate] finds nothing to report exactly when the secret can
    be read, holds the user name key, and the URL is a request URI. *)
Theorem validate_passes_iff net (k : KeycloakSyncer) :
  (Validate net k).1 = None ↔
  (∃ secret, GetSecret (ReconcilerBase_ k) (SecretName (Provider k))
               (Namespace (GroupSync_ k)) = Ok secret ∧
             is_Some (Data secret !! secretUsernameKey)) ∧
  (∃ url, url_ParseRequestURI net (URL_ (Provider k)) = Ok url).
Proof.
  unfold Validate.
  destruct (GetSecret _ _ _) as [secret|e]; simpl;
    destruct (url_ParseRequestURI net _) as [url|e2]; simpl.
  - destruct (Data secret !! secretUsernameKey) as [v|] eqn:E; simpl.
    + split; [|done]. intros _. split; eauto.
    + split; [done|]. intros [(s & [= <-] & [v Hv]) _]. congruence.
  - split.
    + by destruct (Data secret !! secretUsernameKey).
    + by intros [_ [? ?]].
  - rewrite lookup_empty. simpl. split; [done|]. by intros [(? & ? & _) _].
  - rewrite lookup_empty. simpl. split; [done|]. by intros [(? & ? & _) _].
Qed.

(** X3: when the secret cannot be read, [Validate] goes on: it reports
    the read error first, then the URL error if there is one, and then
    both missing-key messages, the secret it looks into being empty. *)
Theorem validate_reports_every_failed_check net (k : KeycloakSyncer) e :
  GetSecret (ReconcilerBase_ k) (SecretName (Provider k)) (Namespace (GroupSync_ k))
    = Err e →
  (Validate net k).1 =
    Some ([e] ++ match url_ParseRequestURI net (URL_ (Provider k)) with
                 | Err e2 => [e2]
                 | Ok _ => []
                 end
              ++ [missingKeyMessage secretUsernameKey k;
                  missingKeyMessage secretPasswordKey k]) ∧
  Secret_ (Validate net k).2 = Some (mkSecret ∅).
Proof.
  intros Hget. unfold Validate. rewrite Hget. simpl.
  by destruct (url_ParseRequestURI net _).
Qed.

Lemma validate_reports_every_failed_check_witness :
  (Validate Samples.plainURL Samples.unconfiguredSyncer).1 =
    Some ["secret not found"; "empty url";
          "Could not find 'username' key in secret 'keycloak-secret' in namespace 'group-sync";
          "Could not find 'password' key in secret 'keycloak-secret' in namespace 'group-sync"] ∧
  Secret_ (Validate Samples.plainURL Samples.unconfiguredSyncer).2 = Some (mkSecret ∅).
Proof.
  apply (validate_reports_every_failed_check Samples.plainURL Samples.unconfiguredSyncer
           "secret not found").
  reflexivity.
Defined.

(** X4: [Bind] panics exactly when no secret is stored; when it
    returns, it returns an error exactly when it leaves the token nil,
    the error being that of the login and nothing being logged; the
    client is the new one for the provider URL, both caches are empty,
    and no other field has changed. *)
Theorem bind_outcome (NewClient : string → GoCloak) (k : KeycloakSyncer) tr :
  (Bind NewClient k tr = Panic ↔ Secret_ k = None) ∧
  ∀ e k' tr', Bind NewClient k tr = Ret (e, k', tr') →
    (e = None ↔ is_Some (Token k')) ∧
    (∀ err, e = Some err →
       tr' = tr ∧
       ∃ secret, Secret_ k = Some secret ∧
         LoginAdmin (NewClient (URL_ (Provider k)))
           (default "" (Data secret !! secretUsernameKey))
           (default "" (Data secret !! secretPasswordKey))
           (LoginRealm (Provider k)) = Err err) ∧
    k' = setToken (Token k')
           (setGoCloak (Some (NewClient (URL_ (Provider k))))
              (setCachedGroups ∅ (setCachedGroupMembers ∅ k))).
Proof.
  unfold Bind. simpl. destruct (Secret_ k) as [secret|] eqn:Hs; simpl.
  - destruct (LoginAdmin _ _ _ _) as [t|err] eqn:Hl.
    + split; [done|]. intros e k' tr' [= <- <- <-]. simpl.
      split; [split; eauto|]. split; [done|]. done.
    + split; [done|]. intros e k' tr' [= <- <- <-]. simpl.
      split; [split; [done|by intros [? ?]]|]. split; [|done].
      intros ? [= <-]. split; [done|]. eauto.
  - split; [done|]. done.
Qed.

(** X5: after a [Bind] that returned an error, [Sync] panics on the nil
    token, before it sends any request. *)
Theorem sync_after_failed_bind_panics (NewClient : string → GoCloak) net k tr err k' tr' :
  Bind NewClient k tr = Ret (Some err, k', tr') →
  Sync net k' tr' = Panic.
Proof.
  intros Hbind. destruct (bind_token_after_error NewClient k tr err k' tr' Hbind) as [Hc Ht].
  unfold Sync. by rewrite Hc, Ht.
Qed.

Lemma sync_after_failed_bind_panics_witness :
  Bind (λ _, Samples.lockedDir) Samples.validatedSyncer [] =
    Ret (Some "invalid credentials",
         setToken None
           (setGoCloak (Some Samples.lockedDir)
              (setCachedGroups ∅ (setCachedGroupMembers ∅ Samples.validatedSyncer))),
         []) ∧
  Sync Samples.plainURL
    (setToken None
       (setGoCloak (Some Samples.lockedDir)
          (setCachedGroups ∅ (setCachedGroupMembers ∅ Samples.validatedSyncer)))) []
    = Panic.
Proof.
  split; [reflexivity|].
  apply (sync_after_failed_bind_panics (λ _, Samples.lockedDir) Samples.plainURL
           Samples.validatedSyncer [] "invalid credentials").
  reflexivity.
Defined.

(** X6: an error returned by the Keycloak [Sync] is the error of the
    group listing or of parsing the provider URL: no failed member
    listing ever surfaces as the error of [Sync]. *)
Theorem sync_errors_come_from_listing_or_url net k tr err k' tr' :
  Sync net k tr = Ret (Err err, k', tr') →
  ((∃ c tok, GoCloak_ k = Some c ∧ Token k = Some tok ∧
             GetGroups c (AccessToken tok) (Realm (Provider k)) = Err err) ∨
   url_Parse net (URL_ (Provider k)) = Err err).
Proof. apply SyncerFacts.keycloak_sync_error_sources. Qed.

Lemma sync_errors_come_from_listing_or_url_witness :
  (∃ c tok,
     GoCloak_ (Samples.syncerOf SubSyncScope Samples.downDir) = Some c ∧
     Token (Samples.syncerOf SubSyncScope Samples.downDir) = Some tok ∧
     GetGroups c (AccessToken tok)
       (Realm (Provider (Samples.syncerOf SubSyncScope Samples.downDir)))
       = Err "keycloak unavailable") ∨
  url_Parse Samples.plainURL
    (URL_ (Provider (Samples.syncerOf SubSyncScope Samples.downDir)))
    = Err "keycloak unavailable".
Proof.
  apply (sync_errors_come_from_listing_or_url Samples.plainURL
           (Samples.syncerOf SubSyncScope Samples.downDir) [] "keycloak unavailable"
           (Samples.syncerOf SubSyncScope Samples.downDir)
           [LogError "Failed to get Groups"]).
  reflexivity.
Defined.

Lemma toOcpGroup_canonical net k G og :
  toOcpGroup net k G = Ret (Ok og) →
  ∃ name url gid users,
    Name G = Some name ∧ ID G = Some gid ∧
    url_Parse net (URL_ (Provider k)) = Ok url ∧
    usernames (default [] (CachedGroupMembers k !! gid)) = Ret users ∧
    og = canonicalGroup name (Host url) gid users.
Proof.
  unfold toOcpGroup. destruct (Name G) as [name|]; [|done]. simpl.
  destruct (url_Parse net _) as [url|]; [|done].
  destruct (ID G) as [gid|]; [|done]. simpl.
  destruct (usernames _) as [users|] eqn:Hu; [|done]. simpl.
  intros [= <-]. by exists name, url, gid, users.
Qed.

(** X7: when [Sync] returns groups, it returns one canonical record
    per cache entry: named by the cached group, annotated with the host
    of the parsed provider URL and with the group's identifier, and
    carrying the user names of the members cached under that
    identifier, in their cached order. *)
Theorem sync_output_mirrors_cache net k tr out k' tr' :
  Sync net k tr = Ret (Ok out, k', tr') →
  length out = size (CachedGroups k') ∧
  Forall2 (λ G og, ∃ name url gid users,
             Name G = Some name ∧ ID G = Some gid ∧
             url_Parse net (URL_ (Provider k)) = Ok url ∧
             usernames (default [] (CachedGroupMembers k' !! gid)) = Ret users ∧
             og = canonicalGroup name (Host url) gid users)
          (map_to_list (CachedGroups k')).*2 out.
Proof.
  intros Hrun.
  assert (Provider k' = Provider k) as Hp.
  { revert Hrun. unfold Sync.
    destruct (GoCloak_ k); [|done]. simpl. destruct (Token k); [|done]. simpl.
    destruct (GetGroups _ _ _); [|done].
    destruct (processTopLevel _ _ _ _ _ _); [|done]. simpl.
    destruct (toOcpGroups _ _ _ _); [|done]. simpl. by intros [= _ <- _]. }
  pose proof (SyncerFacts.keycloak_sync_emits_cache _ _ _ _ _ _ Hrun) as HF. split.
  - apply Forall2_length in HF. by rewrite <- HF, length_fmap, length_map_to_list.
  - eapply Forall2_impl; [exact HF|]. intros G og HG. rewrite <- Hp.
    by apply toOcpGroup_canonical.
Qed.

Lemma sync_output_mirrors_cache_witness :
  length Samples.chainOut = size (CachedGroups Samples.chainAfter) ∧
  Forall2 (λ G og, ∃ name url gid users,
             Name G = Some name ∧ ID G = Some gid ∧
             url_Parse Samples.plainURL
               (URL_ (Provider (Samples.syncerOf SubSyncScope Samples.chainDir))) = Ok url ∧
             usernames (default [] (CachedGroupMembers Samples.chainAfter !! gid))
               = Ret users ∧
             og = canonicalGroup name (Host url) gid users)
          (map_to_list (CachedGroups Samples.chainAfter)).*2 Samples.chainOut.
Proof.
  apply (sync_output_mirrors_cache Samples.plainURL
           (Samples.syncerOf SubSyncScope Samples.chainDir) [] Samples.chainOut
           Samples.chainAfter [MemberFetch "a"; MemberFetch "b"; MemberFetch "c"]).
  reflexivity.
Defined.

Section WalkInvariants.
Variables (c : GoCloak) (tok : JWT) (realm : string).

Lemma visitUnseen_coherent visit parentID groups :
  Forall (λ g, keeps_coherent (visit g) parentID) groups →
  ∀ w w', visitUnseen visit groups w = Ret w' →
    coherent (wGroups w) (wMembers w) →
    (∀ pid, parentID = Some pid → is_Some (wGroups w !! pid)) →
    coherent (wGroups w') (wMembers w') ∧
    ∀ i, is_Some (wGroups w !! i) → is_Some (wGroups w' !! i).
Proof.
  induction groups as [|g groups IH]; intros Hvisit w w'; simpl.
  - by intros [= <-].
  - apply Forall_cons in Hvisit as [Hg Hvisit].
    destruct (ID g) as [gid|]; [|done]. simpl.
    destruct (wGroups w !! gid); [by apply IH|].
    destruct (visit g w) as [[e w1]|] eqn:E; [|done]. simpl.
    intros Hrest Hco Hpar. destruct (Hg w e w1 E Hco Hpar) as [Hco1 Hmono1].
    destruct (IH Hvisit w1 w' Hrest Hco1) as [Hco' Hmono'].
    { intros pid Hp. by apply Hmono1, Hpar. }
    split; [done|]. intros i Hi. by apply Hmono', Hmono1.
Qed.

Lemma processGroupsAndMembers_coherent g parentGroup scope :
  keeps_coherent (processGroupsAndMembers c tok realm g parentGroup scope)
    (parentGroup ≫= ID).
Proof.
  revert parentGroup. induction g as [i n subs IH] using Group_nested_ind.
  intros parentGroup w e w'. rewrite processGroupsAndMembers_eq.
  destruct i as [gid|]; [|done]. simpl. set (g := mkGroup (Some gid) n subs).
  intros Hrun [Hkey Hmem] Hpar.
  assert (∀ i h, <[gid:=g]> (wGroups w) !! i = Some h → ID h = Some i) as Hkey1.
  { intros i h. destruct (decide (i = gid)) as [->|Hne].
    - rewrite lookup_insert_eq. intros [= Hh]. by rewrite <- Hh.
    - rewrite lookup_insert_ne by done. apply Hkey. }
  assert (∀ i, is_Some (wGroups w !! i) → is_Some (<[gid:=g]> (wGroups w) !! i)) as Hmono1.
  { intros i Hi. destruct (decide (i = gid)) as [->|Hne].
    - rewrite lookup_insert_eq. eauto.
    - by rewrite lookup_insert_ne. }
  destruct (GetGroupMembers c (AccessToken tok) realm gid) as [ms|err].
  2:{ injection Hrun as <- <-. simpl. split; [|done]. split; [done|].
      intros i Hi. by apply Hmono1, Hmem. }
  assert (∀ w2 : Walk,
            wGroups w2 = <[gid:=g]> (wGroups w) →
            (∀ i, is_Some (wMembers w2 !! i) → is_Some (wGroups w2 !! i)) →
            (if decide (SubSyncScope = scope)
             then w3 ← processSubGroups c tok realm g scope subs w2; Ret (@None error, w3)
             else Ret (None, w2)) = Ret (e, w') →
            coherent (wGroups w') (wMembers w') ∧
            ∀ i, is_Some (wGroups w !! i) → is_Some (wGroups w' !! i)) as Htail.
  { intros w2 Hg2 Hm2. destruct (decide (SubSyncScope = scope)).
    - destruct (processSubGroups c tok realm g scope subs w2) as [w3|] eqn:E; [|done].
      simpl. intros [= <- <-]. rewrite processSubGroups_visitUnseen in E.
      destruct (visitUnseen_coherent
                  (λ s, processGroupsAndMembers c tok realm s (Some g) scope)
                  (Some gid) subs) with (w := w2) (w' := w3) as [Hco Hmono].
      + eapply Forall_impl; [exact IH|]. intros s Hs. apply (Hs (Some g)).
      + done.
      + split; [by rewrite Hg2|done].
      + intros ? [= <-]. rewrite Hg2, lookup_insert_eq. eauto.
      + split; [done|]. intros i Hi. apply Hmono. rewrite Hg2. by apply Hmono1.
    - intros [= <- <-]. split; [split; [by rewrite Hg2|done]|].
      intros i Hi. rewrite Hg2. by apply Hmono1. }
  assert (∀ i, is_Some (<[gid:=ms]> (wMembers w) !! i) →
               is_Some (<[gid:=g]> (wGroups w) !! i)) as Hmem1.
  { intros i. destruct (decide (i = gid)) as [->|Hne].
    - rewrite !lookup_insert_eq. eauto.
    - rewrite !lookup_insert_ne by done. apply Hmem. }
  destruct parentGroup as [parent|]; simpl in Hrun, Hpar.
  - destruct (ID parent) as [pid|] eqn:Hpid; [|done]. simpl in Hrun.
    apply Htail in Hrun; [done|done|]. simpl. intros i.
    destruct (decide (i = pid)) as [->|Hne].
    + intros _. by apply Hmono1, Hpar.
    + rewrite lookup_insert_ne by done. apply Hmem1.
  - apply Htail in Hrun; [done|done|]. exact Hmem1.
Qed.

Lemma processTopLevel_coherent scope groups w w' :
  processTopLevel c tok realm scope groups w = Ret w' →
  coherent (wGroups w) (wMembers w) →
  coherent (wGroups w') (wMembers w').
Proof.
  rewrite processTopLevel_visitUnseen. intros Hrun Hco.
  destruct (visitUnseen_coherent
              (λ g, processGroupsAndMembers c tok realm g None scope) None groups)
    with (w := w) (w' := w') as [Hco' _]; try done.
  apply Forall_forall. intros g _. apply (processGroupsAndMembers_coherent g None).
Qed.
End WalkInvariants.

(** X9: [Sync] keeps the caches coherent, and from coherent caches (the
    empty ones of [Bind] are) it never returns two groups with the same
    source identifier. *)
Theorem sync_emits_each_identifier_once net k tr r k' tr' :
  Sync net k tr = Ret (r, k', tr') →
  coherent (CachedGroups k) (CachedGroupMembers k) →
  coherent (CachedGroups k') (CachedGroupMembers k') ∧
  ∀ out, r = Ok out → NoDup ((λ og, Annotations og !! SyncSourceUID) <$> out).
Proof.
  intros Hrun Hco.
  assert (coherent (CachedGroups k') (CachedGroupMembers k')) as Hco'.
  { revert Hrun. unfold Sync.
    destruct (GoCloak_ k) as [c|]; [|done]. simpl.
    destruct (Token k) as [tok|]; [|done]. simpl.
    destruct (GetGroups c _ _) as [groups|]; [|by intros [= _ <- _]].
    destruct (processTopLevel _ _ _ _ _ _) as [w|] eqn:Hw; [|done]. simpl.
    destruct (toOcpGroups _ _ _ _); [|done]. simpl. intros [= _ <- _]. simpl.
    by apply (processTopLevel_coherent _ _ _ _ _ _ _ Hw). }
  split; [done|]. intros out ->.
  pose proof (SyncerFacts.keycloak_sync_emits_cache _ _ _ _ _ _ Hrun) as HF.
  apply Forall2_fmap_l in HF.
  assert ((λ og, Annotations og !! SyncSourceUID) <$> out
          = Some <$> (map_to_list (CachedGroups k')).*1) as ->.
  { apply list_eq_same_length with (length out).
    - apply Forall2_length in HF. by rewrite !length_fmap.
    - by rewrite length_fmap.
    - intros i x y _. rewrite !list_lookup_fmap.
      destruct (out !! i) as [og|] eqn:Hog; [|done].
      destruct (map_to_list (CachedGroups k') !! i) as [[key G]|] eqn:HkG; [|done].
      simpl. intros [= <-] [= <-].
      pose proof (Forall2_lookup_lr _ _ _ _ _ _ HF HkG Hog) as HG. simpl in HG.
      apply toOcpGroup_inv in HG as (gid & Hid & _ & Huid & _).
      apply list_elem_of_lookup_2, elem_of_map_to_list in HkG.
      destruct Hco' as [Hkey _]. specialize (Hkey _ _ HkG). congruence. }
  apply (NoDup_fmap_2 _). apply NoDup_fst_map_to_list.
Qed.

Lemma sync_emits_each_identifier_once_witness :
  coherent (CachedGroups Samples.chainAfter) (CachedGroupMembers Samples.chainAfter) ∧
  ∀ out, Ok Samples.chainOut = Ok out →
         NoDup ((λ og, Annotations og !! SyncSourceUID) <$> out).
Proof.
  apply (sync_emits_each_identifier_once Samples.plainURL
           (Samples.syncerOf SubSyncScope Samples.chainDir) [] (Ok Samples.chainOut)
           Samples.chainAfter [MemberFetch "a"; MemberFetch "b"; MemberFetch "c"]).
  - reflexivity.
  - split; simpl; intros i; rewrite lookup_empty; [done|by intros [? ?]].
Defined.

Section WalkOrder.
Variables (c : GoCloak) (tok : JWT) (realm : string) (scope : SyncScope).
#[local] Abbreviation order := (walkOrder c tok realm scope).

Lemma walkOrder_unfold g gid :
  ID g = Some gid →
  order g = gid :: match GetGroupMembers c (AccessToken tok) realm gid with
                   | Ok _ =>
                       if decide (SubSyncScope = scope)
                       then flat_map order (SubGroups g)
                       else []
                   | Err _ => []
                   end.
Proof. destruct g as [i n subs]. simpl. by intros ->. Qed.

Lemma walkOrder_groupIDs g i : i ∈ order g → i ∈ groupIDs g.
Proof.
  revert i. induction g as [j n subs IH] using Group_nested_ind. intros i.
  destruct j as [gid|]; [|by intros ?%elem_of_nil].
  rewrite (walkOrder_unfold (mkGroup (Some gid) n subs) gid eq_refl).
  rewrite (groupIDs_unfold (mkGroup (Some gid) n subs) gid eq_refl). simpl.
  intros [->|Hi]%elem_of_cons; apply elem_of_cons; [by left|right].
  destruct (GetGroupMembers c (AccessToken tok) realm gid); [|by apply elem_of_nil in Hi].
  destruct (decide (SubSyncScope = scope)); [|by apply elem_of_nil in Hi].
  apply list_elem_of_In, in_flat_map in Hi as (s & Hs & Hi).
  apply list_elem_of_In in Hs, Hi. rewrite Forall_forall in IH.
  eapply groupIDs_forestIDs; [exact Hs|]. by apply IH.
Qed.

Lemma visitUnseen_in_order visit groups :
  Forall (λ g, ∀ w, (∀ i, i ∈ groupIDs g → wGroups w !! i = None) →
               ∃ e w', visit g w = Ret (e, w') ∧ grows w w' (order g)) groups →
  Forall wellFormed groups →
  NoDup (forestIDs groups) →
  ∀ w, (∀ i, i ∈ forestIDs groups → wGroups w !! i = None) →
       ∃ w', visitUnseen visit groups w = Ret w' ∧ grows w w' (flat_map order groups).
Proof.
  induction groups as [|s rest IH]; intros Hvisit Hwf Hnd w Hfresh.
  - exists w. split; [done|apply grows_refl].
  - apply Forall_cons in Hvisit as [Hs Hvisit]. apply Forall_cons in Hwf as [Hwfs Hwf].
    rewrite forestIDs_cons in Hnd, Hfresh.
    apply NoDup_app in Hnd as (_ & Hdisj & Hnd2).
    destruct (wellFormed_inv _ Hwfs) as [[sid Hsid] _].
    simpl. rewrite Hsid. simpl. rewrite (Hfresh sid).
    2:{ apply elem_of_app. left. rewrite (groupIDs_unfold _ _ Hsid).
        apply elem_of_cons. by left. }
    destruct (Hs w) as (e & w1 & -> & G1).
    { intros i Hi. apply Hfresh, elem_of_app. by left. }
    simpl. destruct (IH Hvisit Hwf Hnd2 w1) as (w' & -> & G2).
    { intros i Hi. destruct (wGroups w1 !! i) eqn:E; [|done].
      destruct G1 as (_ & _ & _ & Hdom & _).
      destruct (proj1 (Hdom i)) as [[? Hw]|Hin]; [eauto| |].
      - rewrite (Hfresh i) in Hw; [done|]. apply elem_of_app. by right.
      - destruct (Hdisj i); [by apply walkOrder_groupIDs|done]. }
    exists w'. split; [done|]. by eapply grows_trans.
Qed.

Lemma processGroupsAndMembers_in_order g :
  wellFormed g → NoDup (groupIDs g) →
  ∀ parentGroup w,
    (∀ parent, parentGroup = Some parent → is_Some (ID parent)) →
    (∀ i, i ∈ groupIDs g → wGroups w !! i = None) →
    ∃ e w', processGroupsAndMembers c tok realm g parentGroup scope w = Ret (e, w')
            ∧ grows w w' (order g).
Proof.
  induction g as [j n subs IH] using Group_nested_ind.
  intros Hwf Hnd parentGroup w Hparent Hfresh.
  destruct (wellFormed_inv _ Hwf) as [[gid Hid] Hsubs]. simpl in Hsubs, Hid. subst j.
  set (g := mkGroup (Some gid) n subs) in *.
  assert (ID g = Some gid) as Hid by done.
  rewrite (groupIDs_unfold _ _ Hid) in Hnd, Hfresh. simpl in Hnd, Hfresh.
  apply NoDup_cons in Hnd as [Hgid Hnd].
  assert (wGroups w !! gid = None) as Hg0 by (apply Hfresh, elem_of_cons; by left).
  rewrite processGroupsAndMembers_eq, Hid, (walkOrder_unfold g gid Hid). simpl.
  pose proof (grows_visit w gid g Hid Hg0) as G0.
  destruct (GetGroupMembers c (AccessToken tok) realm gid) as [ms|err].
  2:{ by eexists _, _. }
  assert (∀ w2, wGroups w2 = <[gid:=g]> (wGroups w) → grows w w2 [gid] →
            ∃ e w',
              (if decide (SubSyncScope = scope)
               then w3 ← processSubGroups c tok realm g scope subs w2; Ret (@None error, w3)
               else Ret (None, w2)) = Ret (e, w') ∧
              grows w w' (gid :: (if decide (SubSyncScope = scope)
                                  then flat_map order subs else []))) as Htail.
  { intros w2 Hg2 G2. destruct (decide (SubSyncScope = scope)); [|by eexists _, _].
    rewrite processSubGroups_visitUnseen.
    destruct (visitUnseen_in_order
                (λ s, processGroupsAndMembers c tok realm s (Some g) scope) subs)
      with (w := w2) as (w' & -> & G3).
    - apply Forall_forall. intros s Hs w0 Hw0.
      rewrite Forall_forall in IH. rewrite Forall_forall in Hsubs.
      apply (IH s Hs (Hsubs s Hs) (NoDup_forestIDs_group _ _ Hnd Hs) (Some g) w0);
        [|done]. intros ? [= <-]. eauto.
    - done.
    - done.
    - intros i Hi. rewrite Hg2, lookup_insert_ne by (by intros ->).
      apply Hfresh, elem_of_cons. by right.
    - simpl. eexists _, _. split; [done|].
      by apply (grows_trans _ _ _ [gid] _ G2 G3). }
  destruct parentGroup as [parent|]; simpl.
  - destruct (Hparent parent eq_refl) as [pid ->]. simpl. by apply Htail.
  - by apply Htail.
Qed.

Lemma walkOrder_whole_forest groups :
  scope = SubSyncScope →
  Forall wellFormed groups →
  (∀ i, i ∈ forestIDs groups → ∃ ms, GetGroupMembers c (AccessToken tok) realm i = Ok ms) →
  flat_map order groups = forestIDs groups.
Proof.
  intros Hscope.
  assert (∀ g, wellFormed g →
            (∀ i, i ∈ groupIDs g →
                  ∃ ms, GetGroupMembers c (AccessToken tok) realm i = Ok ms) →
            order g = groupIDs g) as Hone.
  { induction g as [j n subs IH] using Group_nested_ind. intros Hwf Hok.
    destruct (wellFormed_inv _ Hwf) as [[gid Hid] Hsubs]. simpl in Hsubs, Hid. subst j.
    rewrite (groupIDs_unfold (mkGroup (Some gid) n subs) gid eq_refl) in Hok.
    rewrite (walkOrder_unfold (mkGroup (Some gid) n subs) gid eq_refl),
      (groupIDs_unfold (mkGroup (Some gid) n subs) gid eq_refl).
    destruct (Hok gid) as [ms ->]; [apply elem_of_cons; by left|].
    rewrite decide_True by done. simpl. f_equal.
    assert (∀ i, i ∈ forestIDs subs →
              ∃ ms, GetGroupMembers c (AccessToken tok) realm i = Ok ms) as Hok'.
    { intros i Hi. apply Hok, elem_of_cons. by right. }
    clear Hok Hwf. induction subs as [|s subs IHs]; [done|].
    apply Forall_cons in IH as [IH1 IH]. apply Forall_cons in Hsubs as [Hs Hsubs].
    rewrite forestIDs_cons in *. simpl. f_equal.
    - apply IH1; [done|]. intros i Hi. apply Hok', elem_of_app. by left.
    - apply IHs; [done|done|]. intros i Hi. apply Hok', elem_of_app. by right. }
  induction groups as [|g groups IH]; intros Hwf Hok; [done|].
  apply Forall_cons in Hwf as [Hg Hwf]. rewrite forestIDs_cons in *. simpl. f_equal.
  - apply Hone; [done|]. intros i Hi. apply Hok, elem_of_app. by left.
  - apply IH; [done|]. intros i Hi. apply Hok, elem_of_app. by right.
Qed.

(** X8: on a forest of unseen groups with unique identifiers the walk
    asks for members in pre-order: each top-level group, then, when its
    own listing succeeded and sub-groups are in scope, its sub-groups
    from left to right; a failed listing cuts off exactly the groups
    below it.  The cache gains exactly these identifiers.  When every
    listing succeeds and sub-groups are in scope, this is the whole
    forest. *)
Theorem walk_follows_preorder groups w :
  Forall wellFormed groups →
  NoDup (forestIDs groups) →
  (∀ i, i ∈ forestIDs groups → wGroups w !! i = None) →
  ∃ w',
    processTopLevel c tok realm scope groups w = Ret w' ∧
    wTrace w' = wTrace w ++ map MemberFetch (flat_map order groups) ∧
    (∀ i, is_Some (wGroups w' !! i) ↔
          is_Some (wGroups w !! i) ∨ i ∈ flat_map order groups) ∧
    (scope = SubSyncScope →
     (∀ i, i ∈ forestIDs groups →
           ∃ ms, GetGroupMembers c (AccessToken tok) realm i = Ok ms) →
     flat_map order groups = forestIDs groups).
Proof.
  intros Hwf Hnd Hfresh. rewrite processTopLevel_visitUnseen.
  destruct (visitUnseen_in_order
              (λ g, processGroupsAndMembers c tok realm g None scope) groups)
    with (w := w) as (w' & Hrun & Ht & _ & _ & Hdom & _); try done.
  { apply Forall_forall. intros g Hg w0 Hw0. rewrite Forall_forall in Hwf.
    by apply (processGroupsAndMembers_in_order g (Hwf g Hg)
                (NoDup_forestIDs_group _ _ Hnd Hg) None w0). }
  exists w'. split; [done|]. split; [done|]. split; [done|].
  intros Hscope Hok. by apply walkOrder_whole_forest.
Qed.
End WalkOrder.

Lemma walk_follows_preorder_witness :
  ∃ w',
    processTopLevel Samples.prunedDir Samples.token "realm" SubSyncScope [Samples.teamA]
      (mkWalk ∅ ∅ []) = Ret w' ∧
    wTrace w' = [MemberFetch "a"; MemberFetch "b"] ∧
    (∀ i, is_Some (wGroups w' !! i) ↔ i ∈ ["a"; "b"]).
Proof.
  destruct (walk_follows_preorder Samples.prunedDir Samples.token "realm" SubSyncScope
              [Samples.teamA] (mkWalk ∅ ∅ []))
    as (w' & Hrun & Htrace & Hdom & _).
  - repeat constructor; eexists; reflexivity.
  - compute_done.
  - intros i _. apply lookup_empty.
  - exists w'. split; [exact Hrun|]. split; [exact Htrace|].
    intros i. rewrite (Hdom i). simpl. rewrite lookup_empty.
    split; [intros [[? ?]|?]; [discriminate|assumption]|by right].
Defined.

Lemma processTopLevel_all_cached c tok realm scope groups w :
  (∀ g, g ∈ groups → ∃ gid, ID g = Some gid ∧ is_Some (wGroups w !! gid)) →
  processTopLevel c tok realm scope groups w = Ret w.
Proof.
  induction groups as [|g groups IH]; intros Hall; [done|]. simpl.
  destruct (Hall g) as (gid & Hid & [h Hh]); [apply elem_of_cons; by left|].
  rewrite Hid. simpl. rewrite Hh.
  apply IH. intros h' Hh'. apply Hall, elem_of_cons. by right.
Qed.

Lemma toOcpGroups_ext net k1 k2 cached acc :
  Provider k1 = Provider k2 → CachedGroupMembers k1 = CachedGroupMembers k2 →
  toOcpGroups net k1 cached acc = toOcpGroups net k2 cached acc.
Proof.
  intros Hp Hm. revert acc. induction cached as [|G cached IH]; intros acc; [done|].
  simpl. unfold toOcpGroup. rewrite Hp, Hm.
  destruct (Name G); [|done]. simpl. destruct (url_Parse net _); [|done].
  destruct (ID G); [|done]. simpl. destruct (usernames _); [|done]. simpl. apply IH.
Qed.

(** X10: a [Sync] repeated on the syncer it left behind is answered from
    the cache: as long as the server lists the same top-level groups,
    it asks for no members, changes nothing and returns the same groups
    again, whatever the server would now list as their members. *)
Theorem repeated_sync_is_answered_from_cache net k c tok tr groups out k' tr' c2 tr2 :
  GoCloak_ k = Some c → Token k = Some tok →
  GetGroups c (AccessToken tok) (Realm (Provider k)) = Ok groups →
  Forall wellFormed groups →
  Sync net k tr = Ret (Ok out, k', tr') →
  GetGroups c2 (AccessToken tok) (Realm (Provider k)) = Ok groups →
  Sync net (setGoCloak (Some c2) k') tr2 = Ret (Ok out, setGoCloak (Some c2) k', tr2).
Proof.
  intros Hc Ht Hgroups Hwf Hrun Hgroups2.
  set (w0 := mkWalk (CachedGroups k) (CachedGroupMembers k) tr).
  destruct (processTopLevel_grows c tok (Realm (Provider k)) (Scope (Provider k))
              groups Hwf w0) as (w & ids & Hw & _ & Htop).
  rewrite (Sync_walked net k tr c tok groups w Hc Ht Hgroups Hw) in Hrun. simpl in Hrun.
  destruct (toOcpGroups _ _ _ _) as [[out'|]|] eqn:Hout; simpl in Hrun; [|done|done].
  injection Hrun as -> <- <-.
  unfold Sync. simpl. rewrite Ht. simpl. rewrite Hgroups2.
  rewrite processTopLevel_all_cached.
  2:{ intros g Hg. rewrite Forall_forall in Hwf.
      destruct (wellFormed_inv _ (Hwf g Hg)) as [[gid Hgid] _].
      exists gid. split; [done|]. by eapply Htop. }
  simpl. erewrite toOcpGroups_ext; [rewrite Hout|done|done]. done.
Qed.

Lemma repeated_sync_is_answered_from_cache_witness :
  Sync Samples.plainURL (setGoCloak (Some Samples.desertedDir) Samples.chainAfter)
    [LogInfo "second run"]
    = Ret (Ok Samples.chainOut, setGoCloak (Some Samples.desertedDir) Samples.chainAfter,
           [LogInfo "second run"]).
Proof.
  apply (repeated_sync_is_answered_from_cache Samples.plainURL
           (Samples.syncerOf SubSyncScope Samples.chainDir) Samples.chainDir Samples.token
           [] [Samples.teamA] Samples.chainOut Samples.chainAfter
           [MemberFetch "a"; MemberFetch "b"; MemberFetch "c"] Samples.desertedDir).
  - reflexivity.
  - reflexivity.
  - reflexivity.
  - repeat constructor; eexists; reflexivity.
  - reflexivity.
  - reflexivity.
Defined.

End KeycloakMore.

(** * Further properties of the Azure syncer *)
Module AzureMore.
Import Azure AzureFacts.

(** X11: [Validate] of the Azure syncer finds nothing to report exactly
    when the secret can be read and holds all three keys; otherwise it
    reports one error, never more, and keeps the secret whenever it
    could read it. *)
Theorem azure_validate_outcome (a : AzureSyncer) :
  ((Validate a).1 = None ↔
   ∃ secret,
     GetSecret (ReconcilerBase_ a) (RefName (CredentialsSecretRef (Provider a)))
       (RefNamespace (CredentialsSecretRef (Provider a))) = Ok secret ∧
     is_Some (Data secret !! TenantID) ∧ is_Some (Data secret !! ClientID) ∧
     is_Some (Data secret !! ClientSecret)) ∧
  (∀ errs, (Validate a).1 = Some errs → length errs = 1) ∧
  (∀ secret,
     GetSecret (ReconcilerBase_ a) (RefName (CredentialsSecretRef (Provider a)))
       (RefNamespace (CredentialsSecretRef (Provider a))) = Ok secret →
     CredentialsSecret (Validate a).2 = Some secret).
Proof.
  unfold Validate. destruct (GetSecret _ _ _) as [secret|e]; simpl.
  - destruct (decide (is_Some (Data secret !! TenantID))) as [Ht|Ht];
      destruct (decide (is_Some (Data secret !! ClientID))) as [Hc|Hc];
      destruct (decide (is_Some (Data secret !! ClientSecret))) as [Hs|Hs];
      rewrite ?(bool_decide_eq_true_2 _ Ht), ?(bool_decide_eq_false_2 _ Ht),
        ?(bool_decide_eq_true_2 _ Hc), ?(bool_decide_eq_false_2 _ Hc),
        ?(bool_decide_eq_true_2 _ Hs), ?(bool_decide_eq_false_2 _ Hs); simpl;
      (split; [split; [try done; intros _; by exists secret
                      |try done; by intros (s & [= <-] & ? & ? & ?)]|]);
      (split; [try done; by intros ? [= <-]|by intros ? [= <-]]).
  - split; [split; [done|by intros (? & ? & _)]|]. split; [by intros ? [= <-]|done].
Qed.

Lemma getUsernameForUser_stringAt p user field :
  requestedAttribute p = Some field →
  getUsernameForUser p user =
    match stringAt user field with
    | Some v => Ret (v, true)
    | None => Panic
    end.
Proof.
  unfold requestedAttribute, getUsernameForUser, stringAt.
  destruct (UserNameAttributes p) as [[|attribute rest]|]; simpl; [done| |];
    intros [= <-]; unfold isUsernamePresent, assertStringPtr;
    by destruct (AdditionalData user !! _) as [[[v|]|]|].
Qed.

(** X12: [getUsernameForUser] never falls back to a later attribute:
    with at least one attribute to ask for, it returns the string
    stored under the first one, or panics when that is missing, nil or
    not a string. *)
Theorem username_comes_from_first_attribute p user field :
  requestedAttribute p = Some field →
  getUsernameForUser p user =
    match stringAt user field with
    | Some v => Ret (v, true)
    | None => Panic
    end.
Proof. apply getUsernameForUser_stringAt. Qed.

Lemma username_comes_from_first_attribute_witness :
  stringAt (Samples.userObject "u1" "alice@example.com") GraphUserNameAttribute
    = Some "alice@example.com" ∧
  getUsernameForUser Samples.mailFirst (Samples.userObject "u1" "alice@example.com")
    = Panic.
Proof.
  split; [reflexivity|].
  apply (username_comes_from_first_attribute Samples.mailFirst
           (Samples.userObject "u1" "alice@example.com") "mail").
  reflexivity.
Defined.

Lemma collectUsernames_outcome p gid field members acc tr :
  requestedAttribute p = Some field →
  collectUsernames p gid members acc tr =
    if forallb (listable field) members
    then Ret (acc ++ omap (userNameOf field) members, tr)
    else Panic.
Proof.
  intros Hreq. revert acc. induction members as [|m members IH]; intros acc.
  - simpl. by rewrite app_nil_r.
  - change (omap (userNameOf field) (m :: members))
      with (match userNameOf field m with
            | Some y => y :: omap (userNameOf field) members
            | None => omap (userNameOf field) members
            end).
    cbn [collectUsernames forallb].
    set (b := forallb (listable field) members) in *.
    set (l := omap (userNameOf field) members) in *.
    unfold listable, userNameOf. rewrite (getUsernameForUser_stringAt _ _ _ Hreq).
    destruct (stringAt m field) as [v|]; unfold stringAt, assertStringPtr;
      destruct (AdditionalData m !! GraphOdataType) as [[[ty|]|]|]; simpl; try done;
      destruct (decide (ty = GraphUserType)) as [->|Hne]; simpl; try done;
      rewrite IH; destruct b; try done.
    by rewrite <- app_assoc.
Qed.

Lemma collectUsernames_unasked p gid members acc tr :
  requestedAttribute p = None →
  collectUsernames p gid members acc tr =
    if forallb typed members
    then Ret (acc, tr ++ replicate (length (filter userTyped members))
                            (LogInfo (usernameWarning gid)))
    else Panic.
Proof.
  intros Hreq. assert (∀ user, getUsernameForUser p user = Ret ("", false)) as Hnone.
  { intros user. unfold requestedAttribute in Hreq. unfold getUsernameForUser.
    by destruct (UserNameAttributes p) as [[|attribute rest]|]. }
  revert tr. induction members as [|m members IH]; intros tr.
  - simpl. by rewrite app_nil_r.
  - cbn [collectUsernames forallb]. rewrite filter_cons.
    set (b := forallb typed members) in *.
    set (l := filter userTyped members) in *.
    unfold typed, userTyped, stringAt, assertStringPtr.
    destruct (AdditionalData m !! GraphOdataType) as [[[ty|]|]|]; simpl; try done.
    destruct (decide (ty = GraphUserType)) as [->|Hne]; simpl.
    + rewrite Hnone. simpl. rewrite IH.
      destruct b; [|done]. simpl. by rewrite <- app_assoc.
    + rewrite IH. rewrite decide_False by congruence. done.
Qed.

(** X13: when the listing is answered and there is an attribute to ask
    for, [listGroupMembers] returns the user names of the user-typed
    members in the order of the listing, passes over members of any
    other type, and logs nothing; it panics if some member has no type
    or is a user without that attribute.  When the configured list of
    attributes is empty it returns no names and logs one warning for
    each user-typed member; it then panics only on a member without
    type. *)
Theorem list_group_members_outcome client p gid members tr :
  TransitiveMembersGet client gid = Ok members →
  listGroupMembers client p (Some gid) tr =
    match requestedAttribute p with
    | Some field =>
        if forallb (listable field) members
        then Ret (Ok (omap (userNameOf field) members), tr ++ [MemberFetch gid])
        else Panic
    | None =>
        if forallb typed members
        then Ret (Ok [], (tr ++ [MemberFetch gid])
                           ++ replicate (length (filter userTyped members))
                                (LogInfo (usernameWarning gid)))
        else Panic
    end.
Proof.
  intros Hget. unfold listGroupMembers. simpl. rewrite Hget.
  destruct (requestedAttribute p) as [field|] eqn:Hreq.
  - rewrite (collectUsernames_outcome _ _ _ _ _ _ Hreq). by destruct (forallb _ _).
  - rewrite (collectUsernames_unasked _ _ _ _ _ Hreq). by destruct (forallb _ _).
Qed.

Lemma list_group_members_outcome_witness :
  listGroupMembers Samples.mixedClient
    (Provider (Samples.azureSyncerOf Samples.mixedClient [] [])) (Some "g1") []
    = Ret (Ok ["alice@example.com"; "bob@example.com"], [MemberFetch "g1"]).
Proof.
  apply (list_group_members_outcome Samples.mixedClient
           (Provider (Samples.azureSyncerOf Samples.mixedClient [] [])) "g1"
           [Samples.userObject "u1" "alice@example.com"; Samples.groupObject "g9" "nested";
            Samples.userObject "u2" "bob@example.com"] []).
  reflexivity.
Defined.

Lemma emitGroups_records client p url aad ocp tr out tr' :
  emitGroups client p url aad ocp tr = Ret (Ok out, tr') →
  ∃ new, out = ocp ++ new ∧
    Forall2 (λ g og, ∃ name gid users,
               DisplayName g = Some name ∧ GetId g = Some gid ∧
               returned (listGroupMembers client p (Some gid) []) = Ret (Ok users) ∧
               og = canonicalGroup name (Host url) gid users)
            (filter (λ g, emitted p g = true) aad) new.
Proof.
  revert ocp tr. induction aad as [|g aad IH]; intros ocp tr; simpl.
  - intros [= <- _]. exists []. by rewrite app_nil_r.
  - destruct (DisplayName g) as [name|] eqn:Hn; simpl.
    2:{ rewrite filter_cons_False; [apply IH|]. unfold emitted. by rewrite Hn. }
    destruct (isGroupAllowed name (Groups p)) eqn:Ha; simpl.
    2:{ rewrite filter_cons_False; [apply IH|]. unfold emitted. by rewrite Hn, Ha. }
    rewrite filter_cons_True by (unfold emitted; by rewrite Hn).
    destruct (GetId g) as [gid|] eqn:Hid; [|done]. simpl.
    rewrite listGroupMembers_appends.
    destruct (listGroupMembers client p (Some gid) []) as [[[users|err] more]|] eqn:Hl;
      simpl; [|done|done].
    intros (new & -> & HF)%IH. eexists (_ :: new). split; [by rewrite <- app_assoc|].
    constructor; [|done]. exists name, gid, users. by rewrite Hl.
Qed.

(** X14: when [Sync] of the Azure syncer returns groups, it returns one
    canonical record for each collected group that has a name the
    allow-list accepts, in the order collected: named by the display
    name, annotated with the host of the parsed authority URL and the
    group's identifier, and carrying the user names its member listing
    gave.  So every one of these listings succeeded: there is no
    partial output. *)
Theorem azure_sync_output_records net a client tr aad tr1 out tr' :
  Client a = Some client →
  collectGroups client (Provider a) tr = Ret (Ok aad, tr1) →
  Sync net a tr = Ret (Ok out, tr') →
  ∃ url,
    url_Parse net (getAuthorityHost (AuthorityHost (Provider a))) = Ok url ∧
    Forall2 (λ g og, ∃ name gid users,
               DisplayName g = Some name ∧ GetId g = Some gid ∧
               returned (listGroupMembers client (Provider a) (Some gid) [])
                 = Ret (Ok users) ∧
               og = canonicalGroup name (Host url) gid users)
            (filter (λ g, emitted (Provider a) g = true) aad) out.
Proof.
  intros Hc Hg. unfold Sync. rewrite Hc. simpl. rewrite Hg. simpl.
  destruct (url_Parse net _) as [url|]; [|done].
  intros (new & -> & HF)%emitGroups_records. by exists url.
Qed.

Lemma azure_sync_output_records_witness :
  ∃ url,
    url_Parse Samples.plainURL
      (getAuthorityHost
         (AuthorityHost (Provider (Samples.azureSyncerOf Samples.baseClient ["base"] ["eng"]))))
      = Ok url ∧
    Forall2 (λ g og, ∃ name gid users,
               DisplayName g = Some name ∧ GetId g = Some gid ∧
               returned (listGroupMembers Samples.baseClient
                           (Provider (Samples.azureSyncerOf Samples.baseClient ["base"] ["eng"]))
                           (Some gid) [])
                 = Ret (Ok users) ∧
               og = canonicalGroup name (Host url) gid users)
            [mkGroup (Samples.groupObject "g1" "eng") (Some "eng")]
            [canonicalGroup "eng" AzurePublicCloud "g1" ["alice@example.com"]].
Proof.
  apply (azure_sync_output_records Samples.plainURL
           (Samples.azureSyncerOf Samples.baseClient ["base"] ["eng"]) Samples.baseClient []
           [Samples.azureGroup "g0" (Some "base");
            mkGroup (Samples.groupObject "g1" "eng") (Some "eng");
            mkGroup (Samples.groupObject "g2" "ops") (Some "ops")] []
           [canonicalGroup "eng" AzurePublicCloud "g1" ["alice@example.com"]]
           [MemberFetch "g1"]);
    reflexivity.
Defined.

Lemma addBaseGroupMembers_omap members aad out :
  addBaseGroupMembers members aad = Ret out → out = aad ++ omap groupOf members.
Proof.
  revert aad. induction members as [|m members IH]; intros aad.
  - simpl. intros [= <-]. by rewrite app_nil_r.
  - change (omap groupOf (m :: members))
      with (match groupOf m with
            | Some y => y :: omap groupOf members
            | None => omap groupOf members
            end).
    cbn [addBaseGroupMembers]. set (l := omap groupOf members) in *.
    unfold groupOf, stringAt, assertStringPtr, mustStringPtr.
    destruct (AdditionalData m !! GraphOdataType) as [[[ty|]|]|]; simpl; try done.
    destruct (decide (GraphGroupType = ty)) as [<-|Hne]; simpl; [|apply IH].
    destruct (AdditionalData m !! GraphDisplayName) as [[name|]|]; simpl; try done.
    intros ->%IH. by rewrite <- app_assoc.
Qed.

Lemma expandBaseGroups_expansion client p baseGroups aad tr out tr' :
  expandBaseGroups client p baseGroups aad tr = Ret (Ok out, tr') →
  out = aad ++ flat_map (expansion client p) baseGroups.
Proof.
  revert aad tr. induction baseGroups as [|b baseGroups IH]; intros aad tr.
  - simpl. intros [= <- _]. by rewrite app_nil_r.
  - cbn [expandBaseGroups flat_map]. unfold expansion at 1, baseGroupFilter, memberOptions.
    destruct (GroupsGet client _) as [[|found [|second more]]|err]; [| | |done].
    + intros ->%IH. done.
    + destruct (GetId found) as [foundID|]; [|done]. simpl.
      destruct (MembersGet client foundID _) as [members|err]; [|done].
      destruct (addBaseGroupMembers members (aad ++ [found])) as [aad'|] eqn:Hadd; [|done].
      simpl. apply addBaseGroupMembers_omap in Hadd as ->.
      intros ->%IH. by rewrite <- !app_assoc.
    + intros ->%IH. done.
Qed.

(** X15: with base groups configured, a successful collection is the
    concatenation, in the configured order, of what each base group
    name contributes: nothing when the lookup by display name does not
    find exactly one group, else that group followed by those of its
    direct members whose type is the group type.  Members of members
    are not looked at, and a group reached twice is collected twice. *)
Theorem base_groups_expand_one_level client p tr aad tr' :
  BaseGroups p ≠ [] →
  collectGroups client p tr = Ret (Ok aad, tr') →
  aad = flat_map (expansion client p) (BaseGroups p).
Proof.
  unfold collectGroups. destruct (BaseGroups p) as [|b rest] eqn:Hb; [done|].
  intros _ H. by apply expandBaseGroups_expansion in H.
Qed.

Lemma base_groups_expand_one_level_witness :
  BaseGroups (Provider (Samples.azureSyncerOf Samples.baseClient ["base"; "base"] [])) ≠ [] ∧
  [Samples.azureGroup "g0" (Some "base");
   mkGroup (Samples.groupObject "g1" "eng") (Some "eng");
   mkGroup (Samples.groupObject "g2" "ops") (Some "ops");
   Samples.azureGroup "g0" (Some "base");
   mkGroup (Samples.groupObject "g1" "eng") (Some "eng");
   mkGroup (Samples.groupObject "g2" "ops") (Some "ops")]
  = flat_map (expansion Samples.baseClient
                (Provider (Samples.azureSyncerOf Samples.baseClient ["base"; "base"] [])))
      ["base"; "base"].
Proof.
  split; [done|].
  apply (base_groups_expand_one_level Samples.baseClient
           (Provider (Samples.azureSyncerOf Samples.baseClient ["base"; "base"] [])) [] _ []);
    [done|reflexivity].
Defined.

Lemma expandBaseGroups_error client p baseGroups aad tr err tr' :
  expandBaseGroups client p baseGroups aad tr = Ret (Err err, tr') →
  ((∃ b, b ∈ baseGroups ∧ GroupsGet client (Some (baseGroupFilter b)) = Err err) ∨
   (∃ foundID, MembersGet client foundID (memberOptions p) = Err err)) ∧
  ∃ pre msg, tr' = pre ++ [LogError msg].
Proof.
  revert aad tr. induction baseGroups as [|b baseGroups IH]; intros aad tr; [done|].
  cbn [expandBaseGroups]. fold (baseGroupFilter b). fold (memberOptions p).
  assert (Hrest : ∀ aad tr,
    expandBaseGroups client p baseGroups aad tr = Ret (Err err, tr') →
    ((∃ b0, b0 ∈ b :: baseGroups ∧ GroupsGet client (Some (baseGroupFilter b0)) = Err err) ∨
     (∃ foundID, MembersGet client foundID (memberOptions p) = Err err)) ∧
    ∃ pre msg, tr' = pre ++ [LogError msg]).
  { intros aad0 tr0 [[(b0 & Hin & Hg)|Hm] Hlog]%IH; (split; [|done]);
      [left; exists b0; split; [by right|done]|by right]. }
  destruct (GroupsGet client (Some (baseGroupFilter b)))
    as [[|found [|second more]]|e] eqn:Hg.
  - apply Hrest.
  - destruct (GetId found) as [foundID|]; [|done]. simpl.
    destruct (MembersGet client foundID (memberOptions p)) as [members|e] eqn:Hm.
    + destruct (addBaseGroupMembers members (aad ++ [found])) as [aad'|]; [|done].
      simpl. apply Hrest.
    + intros [= -> <-]. split; [right; by exists foundID|by eexists _, _].
  - apply Hrest.
  - intros [= -> <-]. split; [|by eexists _, _].
    left. exists b. split; [by left|done].
Qed.

Lemma emitGroups_error client p url aad ocp tr err tr' :
  emitGroups client p url aad ocp tr = Ret (Err err, tr') →
  (∃ g gid, g ∈ aad ∧ emitted p g = true ∧ GetId g = Some gid ∧
            TransitiveMembersGet client gid = Err err) ∧
  ∃ pre msg, tr' = pre ++ [LogError msg].
Proof.
  revert ocp tr. induction aad as [|g aad IH]; intros ocp tr; [done|].
  assert (Hrest : ∀ ocp tr,
    emitGroups client p url aad ocp tr = Ret (Err err, tr') →
    (∃ g0 gid, g0 ∈ g :: aad ∧ emitted p g0 = true ∧ GetId g0 = Some gid ∧
               TransitiveMembersGet client gid = Err err) ∧
    ∃ pre msg, tr' = pre ++ [LogError msg]).
  { intros ocp0 tr0 [(g0 & gid & Hin & H) Hlog]%IH. split; [|done].
    exists g0, gid. split; [by right|done]. }
  cbn [emitGroups]. destruct (DisplayName g) as [name|] eqn:Hn; [|apply Hrest].
  destruct (isGroupAllowed name (Groups p)) eqn:Ha; simpl; [|apply Hrest].
  destruct (GetId g) as [gid|] eqn:Hid; [|done]. simpl.
  unfold listGroupMembers at 1. simpl.
  destruct (TransitiveMembersGet client gid) as [members|e] eqn:Hf.
  - destruct (collectUsernames p gid members [] _) as [[users more]|]; [|done].
    simpl. apply Hrest.
  - simpl. intros [= -> <-]. split; [|by eexists _, _].
    exists g, gid. split; [by left|]. unfold emitted. by rewrite Hn.
Qed.

(** X16: an error returned by [Sync] of the Azure syncer is the error
    of a request to the directory (a lookup or listing of groups, the
    members of a base group, the transitive members of a group that
    would be emitted) or of parsing the authority URL, and the last
    line logged is an error line. *)
Theorem azure_sync_error_sources net a tr err tr' :
  Sync net a tr = Ret (Err err, tr') →
  (∃ client, Client a = Some client ∧
     ((∃ options, GroupsGet client options = Err err) ∨
      (∃ foundID, MembersGet client foundID (memberOptions (Provider a)) = Err err) ∨
      url_Parse net (getAuthorityHost (AuthorityHost (Provider a))) = Err err ∨
      (∃ gid, TransitiveMembersGet client gid = Err err))) ∧
  ∃ pre msg, tr' = pre ++ [LogError msg].
Proof.
  unfold Sync. destruct (Client a) as [client|]; [|done]. simpl.
  destruct (collectGroups client (Provider a) tr) as [[[aad|e] tr1]|] eqn:Hc; [| |done]; simpl.
  - destruct (url_Parse net _) as [url|e] eqn:Hu.
    + intros [(g & gid & _ & _ & _ & Hf) Hlog]%emitGroups_error. split; [|done].
      exists client. split; [done|]. right. right. right. by exists gid.
    + intros [= -> <-]. split; [|by eexists _, _].
      exists client. split; [done|]. right. right. by left.
  - intros [= -> ->]. unfold collectGroups in Hc.
    destruct (BaseGroups (Provider a)) as [|b rest].
    + destruct (GroupsGet client _) as [gs|e'] eqn:Hg; [done|].
      injection Hc as -> <-. split; [|by eexists _, _].
      exists client. split; [done|]. left. by eexists.
    + apply expandBaseGroups_error in Hc as [[(b0 & _ & Hg)|Hm] Hlog]; (split; [|done]);
        exists client; (split; [done|]); [left; by eexists|right; by left].
Qed.

Lemma azure_sync_error_sources_witness :
  (∃ client, Client (Samples.azureSyncerOf Samples.failingClient [] []) = Some client ∧
     ((∃ options, GroupsGet client options = Err "graph unavailable") ∨
      (∃ foundID,
         MembersGet client foundID
           (memberOptions (Provider (Samples.azureSyncerOf Samples.failingClient [] [])))
           = Err "graph unavailable") ∨
      url_Parse Samples.plainURL
        (getAuthorityHost
           (AuthorityHost (Provider (Samples.azureSyncerOf Samples.failingClient [] []))))
        = Err "graph unavailable" ∨
      (∃ gid, TransitiveMembersGet client gid = Err "graph unavailable"))) ∧
  ∃ pre msg,
    [MemberFetch "g1"; LogError "Failed to get Group members for Group"]
    = pre ++ [LogError msg].
Proof.
  apply (azure_sync_error_sources Samples.plainURL
           (Samples.azureSyncerOf Samples.failingClient [] []) [] "graph unavailable"
           [MemberFetch "g1"; LogError "Failed to get Group members for Group"]).
  reflexivity.
Defined.

Lemma azure_bind_outcome_aux {Credential AuthProvider Adapter : Type}
    (sdk : AzureSDK Credential AuthProvider Adapter) (a : AzureSyncer) :
  (Bind sdk a = Panic ↔ CredentialsSecret a = None) ∧
  (∀ err a', Bind sdk a = Ret (Some err, a') → a' = a) ∧
  (∀ a', Bind sdk a = Ret (None, a') →
     is_Some (Client a') ∧ a' = setClient (Client a') a).
Proof.
  unfold Bind. destruct (CredentialsSecret a) as [secret|]; simpl.
  - destruct (NewClientSecretCredential sdk _ _ _ _) as [cred|e1]; simpl.
    + destruct (NewAzureIdentityAuthenticationProvider sdk cred) as [auth|e2]; simpl.
      * destruct (NewGraphRequestAdapter sdk auth) as [adapter|e3]; simpl.
        -- split; [done|]. split; [done|]. by intros a' [= <-].
        -- split; [done|]. split; [by intros ? ? [= _ <-]|done].
      * split; [done|]. split; [by intros ? ? [= _ <-]|done].
    + split; [done|]. split; [by intros ? ? [= _ <-]|done].
  - done.
Qed.

(** X17: [Bind] of the Azure syncer panics exactly when no secret is
    stored.  When a constructor fails the syncer is left as it was,
    with any client of an earlier [Bind]; when all succeed only the
    client changes. *)
Theorem azure_bind_outcome {Credential AuthProvider Adapter : Type}
    (sdk : AzureSDK Credential AuthProvider Adapter) (a : AzureSyncer) :
  (Bind sdk a = Panic ↔ CredentialsSecret a = None) ∧
  (∀ err a', Bind sdk a = Ret (Some err, a') → a' = a) ∧
  (∀ a', Bind sdk a = Ret (None, a') →
     is_Some (Client a') ∧ a' = setClient (Client a') a).
Proof. apply azure_bind_outcome_aux. Qed.

(** X18: on a syncer that holds no secret yet, [Bind] after [Validate]
    panics exactly when [Validate] could not read the secret.  A secret
    that lacks some of the three keys is reported by [Validate] but
    does not make [Bind] panic: the missing values are passed on as
    empty strings. *)
Theorem azure_bind_after_validate {Credential AuthProvider Adapter : Type}
    (sdk : AzureSDK Credential AuthProvider Adapter) (a : AzureSyncer) :
  CredentialsSecret a = None →
  (Bind sdk (Validate a).2 = Panic ↔
   ∃ err, GetSecret (ReconcilerBase_ a) (RefName (CredentialsSecretRef (Provider a)))
            (RefNamespace (CredentialsSecretRef (Provider a))) = Err err).
Proof.
  intros Hnone. destruct (azure_bind_outcome_aux sdk (Validate a).2) as [-> _].
  unfold Validate. destruct (GetSecret _ _ _) as [secret|e]; simpl.
  - split; [done|by intros [? ?]].
  - split; [by eexists|done].
Qed.

Lemma azure_bind_after_validate_witness :
  Bind Samples.obligingSDK (Validate (Samples.azureSyncerOf Samples.flatClient [] [])).2
    = Panic ↔
  ∃ err, GetSecret (ReconcilerBase_ (Samples.azureSyncerOf Samples.flatClient [] []))
           (RefName (CredentialsSecretRef
                       (Provider (Samples.azureSyncerOf Samples.flatClient [] []))))
           (RefNamespace (CredentialsSecretRef
                            (Provider (Samples.azureSyncerOf Samples.flatClient [] []))))
         = Err err.
Proof.
  apply (azure_bind_after_validate Samples.obligingSDK
           (Samples.azureSyncerOf Samples.flatClient [] [])).
  reflexivity.
Defined.

(** X19: [getGroupsFromResults] and [getDirectoryObjectsFromResults]
    return a list exactly when every element of the response is a
    non-nil pointer of the expected type, and then the list holds the
    values pointed to, in order; on any other response they panic. *)
Theorem results_unpack_typed_pointers :
  (∀ values groups,
     getGroupsFromResults values = Ret groups ↔ values = (GroupPtr ∘ Some) <$> groups) ∧
  (∀ values objects,
     getDirectoryObjectsFromResults values = Ret objects ↔
     values = (DirectoryObjectPtr ∘ Some) <$> objects).
Proof.
  split.
  - induction values as [|v values IH]; intros groups.
    + simpl. split; [intros [= <-]; done|]. by destruct groups.
    + simpl. destruct v as [[g|]|d|]; simpl;
        try (split; [done|destruct groups; simpl; congruence]).
      destruct (getGroupsFromResults values) as [gs|] eqn:Hgs; simpl.
      * split.
        -- intros [= <-]. simpl. f_equal. by apply IH.
        -- destruct groups as [|g' groups]; [done|]. simpl. intros [= -> Hv].
           apply IH in Hv. congruence.
      * split; [done|]. destruct groups as [|g' groups]; [done|]. simpl.
        intros [= -> Hv]. apply IH in Hv. congruence.
  - induction values as [|v values IH]; intros objects.
    + simpl. split; [intros [= <-]; done|]. by destruct objects.
    + simpl. destruct v as [g|[d|]|]; simpl;
        try (split; [done|destruct objects; simpl; congruence]).
      destruct (getDirectoryObjectsFromResults values) as [ds|] eqn:Hds; simpl.
      * split.
        -- intros [= <-]. simpl. f_equal. by apply IH.
        -- destruct objects as [|d' objects]; [done|]. simpl. intros [= -> Hv].
           apply IH in Hv. congruence.
      * split; [done|]. destruct objects as [|d' objects]; [done|]. simpl.
        intros [= -> Hv]. apply IH in Hv. congruence.
Qed.

End AzureMore.
